(** * GoEV3: the touch sensor's change notification (Sensors/touch.go)
      and the motor commands with their folder lookup (Motor)

    The touch sensor owns a slice of subscriber channels, a flag
    [isListening] and a stop channel.  [StartListening] spawns a goroutine
    that polls the attribute [value0] and, on a change, spawns one
    [sendEvent] goroutine per subscriber.  The development embeds

    - Go slices over an explicit store of backing arrays, so that the
      in-place [append] of [StopNotify] and the [range] loop of the poller
      see the same cells;
    - the goroutines as a labelled step function on a machine state: the
      caller's thread, the poller goroutines, the pending [sendEvent]
      goroutines and the subscribers taking values from their channels;
    - [log.Fatal] as an outcome that ends the whole process.

    One thread makes the calls on the sensor, one call at a time; each
    call, and each statement of a goroutine, is one step of the machine,
    and the steps of the caller, of the pollers and of the subscribers
    interleave in any order.  A second machine, on top of the first,
    lets further goroutines call [Notify] statement by statement, the
    slice header stored word by word: the code takes no lock, and there
    the calls overlap. *)

From Stdlib Require Import String ZArith Bool Arith Lia List Permutation Sorted.
Import ListNotations.

(** ** Outcomes: a Go call returns, or [log.Fatal] ends the process *)

Inductive outcome (A : Type) : Type :=
| Returned (a : A)
| Fatal (msg : string).

Arguments Returned {A} a.
Arguments Fatal {A} msg.

Definition bind {A B : Type} (o : outcome A) (k : A -> outcome B) : outcome B :=
  match o with
  | Returned a => k a
  | Fatal msg => Fatal msg
  end.

Notation "x <- o ;; k" := (bind o (fun x => k))
  (at level 61, o at next level, right associativity).

(** ** Data *)

(** [uint8] values are only compared, never computed with. *)
Definition uint8 := Z.

(** A [chan uint8] is compared by identity; [0] stands for the nil channel. *)
Definition chan := nat.

Definition InPort := string.

(** Modelled from the spec: the device types are an enumeration declared
    elsewhere in the package; touch.go only uses [TypeTouch]. *)
Inductive SensorType : Type := TypeTouch | TypeOther.

(** What the code calls but does not define: the sensor lookup and the
    attribute read (the first argument of each counts the lookups, or the
    reads, made so far: sensors come and go and attributes change), the
    root of the sensor tree and the capacity the Go runtime picks when
    [append] has to grow a slice. *)
Record Env : Type := {
  baseSensorPath : string;
  findSensor : nat -> InPort -> SensorType -> outcome string;
  ReadUInt8Value : nat -> string -> string -> outcome uint8;
  growcap : nat -> nat
}.

(** ** Slices over shared backing arrays *)

(** A slice header: the backing array and the length.  Every slice the
    sensor keeps starts at offset 0, and the capacity is the length of the
    backing array. *)
Record slice : Type := { arr : nat; len : nat }.

Definition heap := list (list chan).

(** The nil slice points at the array 0, which has no cell. *)
Definition nil_slice : slice := {| arr := 0; len := 0 |}.
Definition empty_heap : heap := [ [] ].

Definition backing (h : heap) (s : slice) : list chan := nth (arr s) h [].

(** The elements a slice denotes. *)
Definition elems (h : heap) (s : slice) : list chan := firstn (len s) (backing h s).

Fixpoint update {A : Type} (l : list A) (k : nat) (x : A) : list A :=
  match l, k with
  | [], _ => []
  | _ :: r, 0 => x :: r
  | y :: r, S k' => y :: update r k' x
  end.

(** [copy(a[i:], xs)] *)
Definition write_at (a : list chan) (i : nat) (xs : list chan) : list chan :=
  firstn i a ++ xs ++ skipn (i + length xs) a.

(** [append(s, xs...)]: in place when the capacity allows it, into a fresh
    array otherwise. *)
Definition append (E : Env) (h : heap) (s : slice) (xs : list chan) : heap * slice :=
  let a := backing h s in
  let n := len s + length xs in
  if n <=? length a
  then (update h (arr s) (write_at a (len s) xs), {| arr := arr s; len := n |})
  else
    let c := Nat.max n (growcap E (length a)) in
    (h ++ [firstn (len s) a ++ xs ++ repeat 0 (c - n)],
     {| arr := length h; len := n |}).

(** ** The sensor *)

(** The fields of [TouchSensor].  The stop channel [chStop] is unbuffered
    and only ever holds the caller blocked in [StopListening]: it is the
    field [caller] of the machine state below. *)
Record TouchSensor : Type := {
  port : InPort;
  isListening : bool;
  channels : slice
}.

(** The caller's thread: between two calls, or blocked in
    [sensor.chStop <- true]. *)
Inductive caller_state : Type := CReady | CStopping.

(** A poller goroutine, by the statement it is about to run. *)
Inductive poller : Type :=
| PFind
| PBase (path : string)
| PSelect (path : string) (curVal : uint8)
| PRange (path : string) (curVal value : uint8) (s : slice) (i : nat)
| PDone.

(** The machine state: the sensor object and the backing arrays of its
    slice; the caller's thread; the poller goroutines ever spawned; the
    [sendEvent] goroutines blocked on their send, oldest first; and the
    numbers of lookups and reads made so far.  Three logs record what
    happened, and no step reads them: [issued], the sends the pollers
    started, oldest first; [stamps], for each of them the number of the
    read that was the last one when it was started; [received], what the
    subscribers took, oldest first. *)
Record state : Type := {
  sensor : TouchSensor;
  mem : heap;
  caller : caller_state;
  pollers : list poller;
  senders : list (chan * uint8);
  nfinds : nat;
  nreads : nat;
  issued : list (chan * uint8);
  stamps : list nat;
  received : list (chan * uint8)
}.

Definition set_channels (st : state) (h : heap) (s : slice) : state :=
  {| sensor := {| port := port (sensor st);
                  isListening := isListening (sensor st);
                  channels := s |};
     mem := h; caller := caller st; pollers := pollers st;
     senders := senders st; nfinds := nfinds st; nreads := nreads st;
     issued := issued st; stamps := stamps st;
     received := received st |}.

Definition set_listening (st : state) (b : bool) : state :=
  {| sensor := {| port := port (sensor st);
                  isListening := b;
                  channels := channels (sensor st) |};
     mem := mem st; caller := caller st; pollers := pollers st;
     senders := senders st; nfinds := nfinds st; nreads := nreads st;
     issued := issued st; stamps := stamps st;
     received := received st |}.

Definition set_caller (st : state) (c : caller_state) : state :=
  {| sensor := sensor st; mem := mem st; caller := c; pollers := pollers st;
     senders := senders st; nfinds := nfinds st; nreads := nreads st;
     issued := issued st; stamps := stamps st;
     received := received st |}.

Definition set_pollers (st : state) (ps : list poller) : state :=
  {| sensor := sensor st; mem := mem st; caller := caller st; pollers := ps;
     senders := senders st; nfinds := nfinds st; nreads := nreads st;
     issued := issued st; stamps := stamps st;
     received := received st |}.

Definition count_read (st : state) : state :=
  {| sensor := sensor st; mem := mem st; caller := caller st;
     pollers := pollers st; senders := senders st; nfinds := nfinds st;
     nreads := S (nreads st);
     issued := issued st; stamps := stamps st;
     received := received st |}.

Definition count_find (st : state) : state :=
  {| sensor := sensor st; mem := mem st; caller := caller st;
     pollers := pollers st; senders := senders st; nfinds := S (nfinds st);
     nreads := nreads st;
     issued := issued st; stamps := stamps st;
     received := received st |}.

(** [go sendEvent(ch, val)] *)
Definition go_sendEvent (st : state) (ch : chan) (val : uint8) : state :=
  {| sensor := sensor st; mem := mem st; caller := caller st;
     pollers := pollers st; senders := senders st ++ [(ch, val)];
     nfinds := nfinds st; nreads := nreads st;
     issued := issued st ++ [(ch, val)];
     stamps := stamps st ++ [pred (nreads st)];
     received := received st |}.

(** The registry as the caller sees it. *)
Definition registry (st : state) : list chan := elems (mem st) (channels (sensor st)).

(** *** FindTouchSensor *)

Definition FindTouchSensor (E : Env) (p : InPort) : outcome state :=
  _ <- findSensor E 0 p TypeTouch ;;
  Returned
    {| sensor := {| port := p; isListening := false; channels := nil_slice |};
       mem := empty_heap; caller := CReady; pollers := [];
       senders := []; nfinds := 1; nreads := 0; issued := [];
       stamps := []; received := [] |}.

(** *** indexOf, Notify, StopNotify *)

Fixpoint indexOf_from (l : list chan) (ch : chan) (i : Z) : Z :=
  match l with
  | [] => (-1)%Z
  | val :: r => if Nat.eqb val ch then i else indexOf_from r ch (i + 1)%Z
  end.

Definition indexOf (st : state) (ch : chan) : Z :=
  indexOf_from (registry st) ch 0%Z.

Definition Notify (E : Env) (ch : chan) (st : state) : state :=
  if Z.eqb (indexOf st ch) (-1)
  then let (h, s) := append E (mem st) (channels (sensor st)) [ch] in
       set_channels st h s
  else st.

Definition StopNotify (E : Env) (ch : chan) (st : state) : state :=
  let i := indexOf st ch in
  if negb (Z.eqb i (-1))
  then
    let s := channels (sensor st) in
    let head := {| arr := arr s; len := Z.to_nat i |} in
    let tail := skipn (Z.to_nat i + 1) (elems (mem st) s) in
    let (h, s') := append E (mem st) head tail in
    set_channels st h s'
  else st.

(** *** StartListening, StopListening *)

(** [StartListening] up to its return: the goroutine is spawned at its
    first statement, nothing of its body has run yet. *)
Definition StartListening (st : state) : state :=
  if isListening (sensor st)
  then st
  else set_listening (set_pollers st (pollers st ++ [PFind])) true.

(** [StopListening] up to the send on [chStop], where the caller blocks
    until a poller takes the value in its [select]. *)
Definition StopListening_enter (st : state) : state :=
  if isListening (sensor st)
  then set_caller st CStopping
  else st.

(** The rest of [StopListening], once the send has been taken. *)
Definition StopListening_leave (st : state) : state :=
  set_listening (set_caller st CReady) false.

(** *** The poller goroutine, one statement at a time

    The statement a poller runs depends on where it is: the lookup
    [findSensor], the read of [curVal] before the loop, the [select] with
    the read and the comparison of its default branch, one turn of the
    [range] loop (or, at its end, [curVal = value]), nothing once it has
    returned.  [time.Sleep] changes no state. *)

Definition set_poller (st : state) (k : nat) (p : poller) : state :=
  set_pollers st (update (pollers st) k p).

Definition value0 : string := "value0".

Definition sensor_path (E : Env) (snr : string) : string :=
  (baseSensorPath E ++ "/" ++ snr)%string.

Definition poll_step (E : Env) (k : nat) (st : state) : option (outcome state) :=
  match nth_error (pollers st) k with
  | None => None
  | Some PFind =>
      Some (snr <- findSensor E (nfinds st) (port (sensor st)) TypeTouch ;;
            Returned (count_find (set_poller st k (PBase (sensor_path E snr)))))
  | Some (PBase path) =>
      Some (curVal <- ReadUInt8Value E (nreads st) path value0 ;;
            Returned (count_read (set_poller st k (PSelect path curVal))))
  | Some (PSelect path curVal) =>
      match caller st with
      | CStopping =>
          (* case <-sensor.chStop: return; the caller, released, clears
             the flag, which no goroutine reads *)
          Some (Returned (StopListening_leave (set_poller st k PDone)))
      | CReady =>
          (* default: *)
          Some (value <- ReadUInt8Value E (nreads st) path value0 ;;
                Returned
                  (count_read
                     (set_poller st k
                        (if negb (Z.eqb value curVal)
                         then PRange path curVal value (channels (sensor st)) 0
                         else PSelect path curVal))))
      end
  | Some (PRange path curVal value s i) =>
      if i <? len s
      then match nth_error (backing (mem st) s) i with
           | Some ch =>
               Some (Returned
                       (go_sendEvent
                          (set_poller st k (PRange path curVal value s (S i)))
                          ch value))
           | None => Some (Fatal "panic: index out of range")
           end
      else Some (Returned (set_poller st k (PSelect path value)))
  | Some PDone => None
  end.

(** *** sendEvent: the send [ch <- val] of the [k]-th pending goroutine
    completes, a subscriber taking the value from its channel.  Nobody
    can receive from the nil channel. *)

Fixpoint remove_nth {A : Type} (l : list A) (k : nat) : list A :=
  match l, k with
  | [], _ => []
  | _ :: r, 0 => r
  | x :: r, S k' => x :: remove_nth r k'
  end.

Definition sendEvent (k : nat) (st : state) : option (outcome state) :=
  match nth_error (senders st) k with
  | Some (ch, val) =>
      if Nat.eqb ch 0
      then None
      else Some (Returned
                   {| sensor := sensor st; mem := mem st; caller := caller st;
                      pollers := pollers st;
                      senders := remove_nth (senders st) k;
                      nfinds := nfinds st; nreads := nreads st;
                      issued := issued st; stamps := stamps st;
                      received := received st ++ [(ch, val)] |})
  | None => None
  end.

(** ** The machine *)

(** Who moves next: the caller, with one of its four calls; the poller
    number [k]; or the pending send number [k], its value being taken. *)
Inductive label : Type :=
| LStart
| LStop
| LNotify (ch : chan)
| LStopNotify (ch : chan)
| LPoll (k : nat)
| LRecv (k : nat).

(** A call of the caller goes ahead only when the caller is not blocked. *)
Definition when_ready (st : state) (st' : state) : option (outcome state) :=
  match caller st with
  | CReady => Some (Returned st')
  | CStopping => None
  end.

(** One step: [None] when the move is not possible in this state. *)
Definition step (E : Env) (l : label) (st : state) : option (outcome state) :=
  match l with
  | LStart => when_ready st (StartListening st)
  | LStop => when_ready st (StopListening_enter st)
  | LNotify ch => when_ready st (Notify E ch st)
  | LStopNotify ch => when_ready st (StopNotify E ch st)
  | LPoll k => poll_step E k st
  | LRecv k => sendEvent k st
  end.

Fixpoint run (E : Env) (ls : list label) (st : state) : option (outcome state) :=
  match ls with
  | [] => Some (Returned st)
  | l :: ls' =>
      match step E l st with
      | Some (Returned st') => run E ls' st'
      | Some (Fatal msg) => Some (Fatal msg)
      | None => None
      end
  end.

(** A program: build the sensor at a port, then follow a schedule. *)
Definition program (E : Env) (p : InPort) (ls : list label) : option (outcome state) :=
  match FindTouchSensor E p with
  | Returned st => run E ls st
  | Fatal msg => Some (Fatal msg)
  end.

Inductive reachable (E : Env) (p : InPort) : state -> Prop :=
| reach_init : forall st, FindTouchSensor E p = Returned st -> reachable E p st
| reach_step : forall st l st',
    reachable E p st -> step E l st = Some (Returned st') -> reachable E p st'.

(** ** Scenarios *)

(** Go's runtime doubles small capacities. *)
Definition double (c : nat) : nat := 2 * c.

(** An attribute whose successive reads give [vs], then stay at [last]; a
    sensor is attached at every port. *)
Definition scripted (vs : list uint8) (last : uint8) : Env :=
  {| baseSensorPath := "/sys/class/lego-sensor";
     findSensor := fun _ _ _ => Returned "sensor0"%string;
     ReadUInt8Value := fun n _ _ => Returned (nth n vs last);
     growcap := double |}.

(** ** Well-formed slices *)

(** The slice points at an array of the store and is no longer than it. *)
Definition wf_slice (h : heap) (s : slice) : Prop :=
  arr s < length h /\ len s <= length (backing h s).

Definition wf_state (st : state) : Prop := wf_slice (mem st) (channels (sensor st)).

(** ** Poller goroutines that have not returned *)

Definition live (p : poller) : bool :=
  match p with
  | PDone => false
  | _ => true
  end.

Definition count_live (ps : list poller) : nat := length (filter live ps).

(** The flag counts the pollers: one while listening, none otherwise; and
    the caller only blocks in [StopListening] while the flag is set. *)
Definition lifecycle_inv (st : state) : Prop :=
  count_live (pollers st) = (if isListening (sensor st) then 1 else 0) /\
  (caller st = CStopping -> isListening (sensor st) = true).

(** ** No read outside an array *)

Definition range_ok (h : heap) (p : poller) : Prop :=
  match p with
  | PRange _ _ _ s _ => wf_slice h s
  | _ => True
  end.

Definition mem_inv (st : state) : Prop :=
  wf_state st /\ Forall (range_ok (mem st)) (pollers st).

(** ** Who touches the registry *)

Definition registry_call (l : label) : bool :=
  match l with
  | LNotify _ | LStopNotify _ => true
  | _ => false
  end.

(** ** Membership after a sequence of calls *)

(** Whether [ch] is subscribed after the calls of [ls], given whether it
    was before: the last call about [ch] decides. *)
Fixpoint last_call (ls : list label) (ch : chan) (before : bool) : bool :=
  match ls with
  | [] => before
  | LNotify c :: r => last_call r ch (if Nat.eqb c ch then true else before)
  | LStopNotify c :: r => last_call r ch (if Nat.eqb c ch then false else before)
  | _ :: r => last_call r ch before
  end.

(** The position in the schedule of the call that registered [ch], if it
    is registered after [ls]; [t] is the position of the head of [ls]. *)
Fixpoint registered_at (ls : list label) (ch : chan) (t : nat) (before : option nat)
  : option nat :=
  match ls with
  | [] => before
  | LNotify c :: r =>
      registered_at r ch (S t)
        (if Nat.eqb c ch
         then match before with Some u => Some u | None => Some t end
         else before)
  | LStopNotify c :: r =>
      registered_at r ch (S t) (if Nat.eqb c ch then None else before)
  | _ :: r => registered_at r ch (S t) before
  end.

Definition earlier (f : chan -> option nat) (a b : chan) : Prop :=
  exists ta tb, f a = Some ta /\ f b = Some tb /\ ta < tb.

(** The registry lists exactly the channels [f] gives a time to, by
    increasing time, and every time is before [t]. *)
Definition ordered_by (f : chan -> option nat) (t : nat) (r : list chan) : Prop :=
  StronglySorted (earlier f) r /\
  (forall ch, In ch r <-> f ch <> None) /\
  (forall ch u, f ch = Some u -> u < t).

(** ** Runs under a condition; sends and receptions *)

(** [run_all E ok ls st]: every step of the run is taken from a state and
    with a label that [ok] accepts. *)
Fixpoint run_all (E : Env) (ok : state -> label -> bool) (ls : list label) (st : state)
  : bool :=
  match ls with
  | [] => true
  | l :: ls' =>
      ok st l &&
      match step E l st with
      | Some (Returned st') => run_all E ok ls' st'
      | _ => true
      end
  end.

Definition program_all (E : Env) (ok : state -> label -> bool) (p : InPort)
  (ls : list label) : bool :=
  match FindTouchSensor E p with
  | Returned st => run_all E ok ls st
  | Fatal _ => true
  end.

(** Every value a subscriber took, or that a [sendEvent] still holds,
    was issued by a poller, once. *)
Definition conservation (st : state) : Prop :=
  Permutation (issued st) (received st ++ senders st).

(** The entries of a log that concern one channel. *)
Definition on_chan (ch : chan) (l : list (chan * uint8)) : list (chan * uint8) :=
  filter (fun e => Nat.eqb (fst e) ch) l.

(** A reception is oldest-first when no earlier pending send is for the
    same channel. *)
Definition oldest_first (st : state) (l : label) : bool :=
  match l with
  | LRecv k =>
      match nth_error (senders st) k with
      | Some (ch, _) =>
          forallb (fun e => negb (Nat.eqb (fst e) ch)) (firstn k (senders st))
      | None => true
      end
  | _ => true
  end.

Definition in_issue_order (st : state) : Prop :=
  forall ch, on_chan ch (issued st) = on_chan ch (received st) ++ on_chan ch (senders st).

(** ** What one poller sends while the registry stays as it is *)

(** The value of the [n]-th read of [value0] at [path]. *)
Definition obs (E : Env) (path : string) (n : nat) : uint8 :=
  match ReadUInt8Value E n path value0 with
  | Returned v => v
  | Fatal _ => 0%Z
  end.

(** The values of [vs] that differ from the value observed just before,
    starting from [cur]. *)
Fixpoint changes (cur : uint8) (vs : list uint8) : list uint8 :=
  match vs with
  | [] => []
  | v :: r => if Z.eqb v cur then changes cur r else v :: changes v r
  end.

Definition fan_out (r : list chan) (v : uint8) : list (chan * uint8) :=
  map (fun ch => (ch, v)) r.

Definition sends (r : list chan) (cur : uint8) (vs : list uint8) : list (chan * uint8) :=
  flat_map (fan_out r) (changes cur vs).

(** The reads made in the loop, after the read number 0 made before it. *)
Definition readings (E : Env) (path : string) (n : nat) : list uint8 :=
  map (obs E path) (seq 1 n).

(** The path of a first session: the lookup number 0 was made by
    [FindTouchSensor], the poller makes the lookup number 1. *)
Definition resolved_path (E : Env) (p : InPort) : string :=
  match findSensor E 1 p TypeTouch with
  | Returned snr => sensor_path E snr
  | Fatal _ => EmptyString
  end.

(** The state of a first listening session with registry [r], as long as
    the caller makes no call: the poller has sent, in this order, the
    changes among the reads it made, each to every channel of [r] in the
    order of [r]. *)
Definition session_inv (E : Env) (p : InPort) (r : list chan) (st : state) : Prop :=
  registry st = r /\ wf_state st /\ caller st = CReady /\ port (sensor st) = p /\
  match pollers st with
  | [PFind] => nfinds st = 1 /\ nreads st = 0 /\ issued st = []
  | [PBase path] => path = resolved_path E p /\ nreads st = 0 /\ issued st = []
  | [PSelect path cur] =>
      path = resolved_path E p /\
      exists n, nreads st = S n /\ cur = obs E path n /\
                issued st = sends r (obs E path 0) (readings E path n)
  | [PRange path cur value s i] =>
      path = resolved_path E p /\ s = channels (sensor st) /\ i <= len s /\
      exists n, nreads st = S (S n) /\ cur = obs E path n /\
                value = obs E path (S n) /\ value <> cur /\
                issued st = sends r (obs E path 0) (readings E path n)
                            ++ fan_out (firstn i r) value
  | _ => False
  end.

(** The moves of the goroutines and of the subscribers. *)
Definition background (l : label) : bool :=
  match l with
  | LPoll _ | LRecv _ => true
  | _ => false
  end.

(** Nothing runs in the background before the first [StartListening]. *)
Definition idle_fresh (p : InPort) (st : state) : Prop :=
  wf_state st /\ caller st = CReady /\ port (sensor st) = p /\
  isListening (sensor st) = false /\ pollers st = [] /\
  nfinds st = 1 /\ nreads st = 0 /\ issued st = [].

(** ** The five ticks 0, 0, 1, 1, 2 *)

Definition five_ticks : list uint8 := [0; 0; 1; 1; 2]%Z.

(** How many changes the poller has seen after [n] reads in the loop, for
    the script [five_ticks] preceded by [b] more zeros. *)
Definition seen (b n : nat) : nat :=
  if n <? 2 + b then 0 else if n <? 4 + b then 1 else 2.

Definition five_ticks_env (b : nat) : Env :=
  scripted (repeat 0%Z b ++ five_ticks) 2%Z.

(** ** StopListening returns *)

(** How many of its own steps a poller needs, at most, to be back at its
    [select] and take the stop signal. *)
Definition steps_to_stop (q : poller) : nat :=
  match q with
  | PFind => 3
  | PBase _ => 2
  | PSelect _ _ => 1
  | PRange _ _ _ s i => 2 + (len s - i)
  | PDone => 0
  end.

(** The caller has left [StopListening]: the handle is idle and the poller
    [k] has returned; or the process has ended. *)
Definition stopped (k : nat) (r : option (outcome state)) : Prop :=
  match r with
  | Some (Returned st') =>
      caller st' = CReady /\ isListening (sensor st') = false /\
      nth_error (pollers st') k = Some PDone
  | Some (Fatal _) => True
  | None => False
  end.

(** ** One delivery, while the caller subscribes *)

Definition no_StopNotify (l : label) : bool :=
  match l with
  | LStopNotify _ => false
  | _ => true
  end.

(** A poller that has made no read of the loop yet, or has returned. *)
Definition quiet (q : poller) : Prop :=
  match q with
  | PFind | PBase _ | PDone => True
  | _ => False
  end.

(** The poller [k] is delivering [value] to the slice [s0] it took when
    it saw the change; [r0] were its elements and [log0] the sends issued
    before.  No read has been made since. *)
Definition delivering (k : nat) (path : string) (cur value : uint8) (s0 : slice)
  (r0 : list chan) (log0 : list (chan * uint8)) (n0 : nat) (st : state) : Prop :=
  wf_state st /\ wf_slice (mem st) s0 /\ elems (mem st) s0 = r0 /\
  (arr s0 = arr (channels (sensor st)) -> len s0 <= len (channels (sensor st))) /\
  nreads st = n0 /\
  (forall j q, j <> k -> nth_error (pollers st) j = Some q -> quiet q) /\
  ((exists i, i <= len s0 /\
              nth_error (pollers st) k = Some (PRange path cur value s0 i) /\
              issued st = log0 ++ fan_out (firstn i r0) value) \/
   ((nth_error (pollers st) k = Some (PSelect path value) \/
     nth_error (pollers st) k = Some PDone) /\
    issued st = log0 ++ fan_out r0 value)).

(** [Notify] and [StopNotify] write the slice and its arrays, nothing else. *)
Definition same_tasks (st st' : state) : Prop :=
  port (sensor st') = port (sensor st) /\
  isListening (sensor st') = isListening (sensor st) /\
  caller st' = caller st /\ pollers st' = pollers st /\
  senders st' = senders st /\ nfinds st' = nfinds st /\ nreads st' = nreads st /\
  issued st' = issued st /\ received st' = received st.

(** ** Motor: the folder lookup *)

Module Motor.

Definition OutPort := string.

Definition rootMotorPath : string := "/sys/class/tacho-motor".
Definition portFD : string := "port_name".

(** [path.Join] of a directory and an entry name. *)
Definition Join (dir name : string) : string := (dir ++ "/" ++ name)%string.

(** The motor tree: the entries of [rootMotorPath], or [None] when the
    directory is missing; and the attribute read of the utilities package,
    which the code calls but does not define. *)
Record Tree : Type := {
  entries : option (list string);
  ReadStringValue : string -> string -> outcome string
}.

Fixpoint scan (t : Tree) (port : OutPort) (motorFolders : list string) : outcome string :=
  match motorFolders with
  | [] => Fatal ("No motor is connected to port " ++ port)
  | folder :: rest =>
      motorPort <- ReadStringValue t (Join rootMotorPath folder) portFD ;;
      if String.eqb motorPort ("out" ++ port)
      then Returned (Join rootMotorPath folder)
      else scan t port rest
  end.

Definition findFolder (t : Tree) (port : OutPort) : outcome string :=
  match entries t with
  | None => Fatal "There are no motors connected"
  | Some motorFolders =>
      if Nat.eqb (length motorFolders) 0
      then Fatal "There are no motors connected"
      else scan t port motorFolders
  end.

End Motor.

(** ** Motor: the commands *)

Module MotorOps.

(** The attribute files of a motor folder, and the commands. *)
Definition regulationModeFD : string := "speed_regulation".
Definition speedGetterFD : string := "speed".
Definition speedSetterFD : string := "speed_sp".
Definition powerGetterFD : string := "duty_cycle".
Definition powerSetterFD : string := "duty_cycle_sp".
Definition runFD : string := "command".
Definition stopModeFD : string := "stop_command".
Definition positionFD : string := "position".
Definition desiredPositionFD : string := "position_sp".
Definition timeFD : string := "time_sp".

Definition runForeverCommand : string := "run-forever".
Definition runToAbsPosCommand : string := "run-to-abs-pos".
Definition runToRelPosCommand : string := "run-to-rel-pos".
Definition runTimedCommand : string := "run-timed".
Definition runDirectCommand : string := "run-direct".

Definition Coast : string := "coast".
Definition Brake : string := "brake".
Definition Hold : string := "hold".

(** A write of the utilities package: [WriteIntValue] or
    [WriteStringValue], with the folder, the file and the value. *)
Inductive write : Type :=
| WriteInt (folder name : string) (v : Z)
| WriteString (folder name : string) (v : string).

Definition folder_of (w : write) : string :=
  match w with
  | WriteInt folder _ _ => folder
  | WriteString folder _ _ => folder
  end.

(** The utilities package and the driver behind the files, which the code
    calls but does not define.  What a read gives may depend on every
    write made before it; a write goes through or ends the process. *)
Record Driver : Type := {
  tree_after : list write -> Motor.Tree;
  ReadInt16Value : list write -> string -> string -> outcome Z;
  ReadInt32Value : list write -> string -> string -> outcome Z;
  write_fails : list write -> write -> option string
}.

(** How a call ends: it returns, or the process ends; either way with the
    writes made so far, oldest first. *)
Inductive result (A : Type) : Type :=
| Done (a : A) (ws : list write)
| Died (msg : string) (ws : list write).

Arguments Done {A} a ws.
Arguments Died {A} msg ws.

Definition writes_of {A : Type} (r : result A) : list write :=
  match r with
  | Done _ ws => ws
  | Died _ ws => ws
  end.

(** A piece of code, run after the writes [ws]. *)
Definition M (A : Type) : Type := list write -> result A.

Definition ret {A : Type} (a : A) : M A := fun ws => Done a ws.

Definition and_then {A B : Type} (m : M A) (k : A -> M B) : M B :=
  fun ws =>
    match m ws with
    | Done a ws' => k a ws'
    | Died msg ws' => Died msg ws'
    end.

Notation "x <-- m ;; k" := (and_then m (fun x => k))
  (at level 61, m at next level, right associativity).

(** [log.Fatal] *)
Definition fatal {A : Type} (msg : string) : M A := fun ws => Died msg ws.

(** A call that reads: the process ends when the read does. *)
Definition reading {A : Type} (read : list write -> outcome A) : M A :=
  fun ws =>
    match read ws with
    | Returned a => Done a ws
    | Fatal msg => Died msg ws
    end.

Definition ReadStringValue (D : Driver) (folder name : string) : M string :=
  reading (fun ws => Motor.ReadStringValue (tree_after D ws) folder name).

Definition writing (D : Driver) (w : write) : M unit :=
  fun ws =>
    match write_fails D ws w with
    | Some msg => Died msg ws
    | None => Done tt (ws ++ [w])
    end.

Definition WriteIntValue (D : Driver) (folder name : string) (v : Z) : M unit :=
  writing D (WriteInt folder name v).

Definition WriteStringValue (D : Driver) (folder name : string) (v : string) : M unit :=
  writing D (WriteString folder name v).

Definition findFolder (D : Driver) (port : Motor.OutPort) : M string :=
  reading (fun ws => Motor.findFolder (tree_after D ws) port).

Definition setSpeed (D : Driver) (folder : string) (speed : Z) : M unit :=
  regulationMode <-- ReadStringValue D folder regulationModeFD ;;
  if String.eqb regulationMode "on"
  then WriteIntValue D folder speedSetterFD speed
  else if String.eqb regulationMode "off"
  then
    _ <-- (if (speed >? 100)%Z || (speed <? -100)%Z
           then fatal "The speed must be in range [-100, 100]"
           else ret tt) ;;
    WriteIntValue D folder powerSetterFD speed
  else ret tt.

Definition setAngle (D : Driver) (folder : string) (angle : Z) : M unit :=
  WriteIntValue D folder desiredPositionFD angle.

Definition setTime (D : Driver) (folder : string) (seconds : Z) : M unit :=
  WriteIntValue D folder timeFD seconds.

Definition run (D : Driver) (folder : string) (speed : Z) (command : string) : M unit :=
  _ <-- setSpeed D folder speed ;;
  WriteStringValue D folder runFD command.

Definition RunForever (D : Driver) (port : Motor.OutPort) (speed : Z) : M unit :=
  folder <-- findFolder D port ;;
  run D folder speed runForeverCommand.

Definition Rotate (D : Driver) (port : Motor.OutPort) (angle speed : Z) : M unit :=
  folder <-- findFolder D port ;;
  _ <-- setAngle D folder angle ;;
  run D folder speed runToRelPosCommand.

Definition RotateTo (D : Driver) (port : Motor.OutPort) (angle speed : Z) : M unit :=
  folder <-- findFolder D port ;;
  _ <-- setAngle D folder angle ;;
  run D folder speed runToAbsPosCommand.

Definition RunFor (D : Driver) (port : Motor.OutPort) (time : Z) (speed : Z) : M unit :=
  folder <-- findFolder D port ;;
  _ <-- setTime D folder time ;;
  run D folder speed runTimedCommand.

Definition Stop (D : Driver) (port : Motor.OutPort) : M unit :=
  folder <-- findFolder D port ;;
  WriteStringValue D folder runFD "stop".

Definition CurrentSpeed (D : Driver) (port : Motor.OutPort) : M Z :=
  folder <-- findFolder D port ;;
  reading (fun ws => ReadInt16Value D ws folder speedGetterFD).

Definition CurrentPower (D : Driver) (port : Motor.OutPort) : M Z :=
  folder <-- findFolder D port ;;
  reading (fun ws => ReadInt16Value D ws folder powerGetterFD).

Definition EnableRegulationMode (D : Driver) (port : Motor.OutPort) : M unit :=
  folder <-- findFolder D port ;;
  WriteStringValue D folder regulationModeFD "on".

Definition DisableRegulationMode (D : Driver) (port : Motor.OutPort) : M unit :=
  folder <-- findFolder D port ;;
  WriteStringValue D folder regulationModeFD "off".

Definition SetStopMode (D : Driver) (port : Motor.OutPort) (mode : string) : M unit :=
  folder <-- findFolder D port ;;
  WriteStringValue D folder stopModeFD mode.

Definition CurrentPosition (D : Driver) (port : Motor.OutPort) : M Z :=
  folder <-- findFolder D port ;;
  reading (fun ws => ReadInt32Value D ws folder positionFD).

Definition InitializePosition (D : Driver) (port : Motor.OutPort) (value : Z) : M unit :=
  folder <-- findFolder D port ;;
  WriteIntValue D folder positionFD value.

(** The exported functions, as calls with their arguments. *)
Inductive call : Type :=
| CRunForever (speed : Z)
| CRotate (angle speed : Z)
| CRotateTo (angle speed : Z)
| CRunFor (time speed : Z)
| CStop
| CCurrentSpeed
| CCurrentPower
| CEnableRegulationMode
| CDisableRegulationMode
| CSetStopMode (mode : string)
| CCurrentPosition
| CInitializePosition (value : Z).

Definition forget {A : Type} (m : M A) : M (option Z) :=
  _ <-- m ;; ret None.

Definition answer (m : M Z) : M (option Z) :=
  v <-- m ;; ret (Some v).

(** A call on the motor at [port]; the functions that read give a value. *)
Definition exec (D : Driver) (port : Motor.OutPort) (c : call) : M (option Z) :=
  match c with
  | CRunForever speed => forget (RunForever D port speed)
  | CRotate angle speed => forget (Rotate D port angle speed)
  | CRotateTo angle speed => forget (RotateTo D port angle speed)
  | CRunFor time speed => forget (RunFor D port time speed)
  | CStop => forget (Stop D port)
  | CCurrentSpeed => answer (CurrentSpeed D port)
  | CCurrentPower => answer (CurrentPower D port)
  | CEnableRegulationMode => forget (EnableRegulationMode D port)
  | CDisableRegulationMode => forget (DisableRegulationMode D port)
  | CSetStopMode mode => forget (SetStopMode D port mode)
  | CCurrentPosition => answer (CurrentPosition D port)
  | CInitializePosition value => forget (InitializePosition D port value)
  end.

(** Calls one after the other, as long as the process lives. *)
Fixpoint exec_all (D : Driver) (port : Motor.OutPort) (cs : list call) : M unit :=
  match cs with
  | [] => ret tt
  | c :: cs' => _ <-- exec D port c ;; exec_all D port cs'
  end.

(** Files that keep what is written to them: a read of a file gives the
    last string written to it, or what [t] gives when nothing was. *)
Fixpoint last_written (ws : list write) (folder name : string) : option string :=
  match ws with
  | [] => None
  | w :: ws' =>
      match last_written ws' folder name with
      | Some v => Some v
      | None =>
          match w with
          | WriteString f n v =>
              if String.eqb f folder && String.eqb n name then Some v else None
          | WriteInt _ _ _ => None
          end
      end
  end.

(** The write starts the motor: it is a write to the command file. *)
Definition is_command (w : write) : bool :=
  match w with
  | WriteString _ name _ => String.eqb name runFD
  | WriteInt _ _ _ => false
  end.

(** The call ended with the writes [ws] followed by writes that all
    satisfy [P]. *)
Definition wrote {A : Type} (P : write -> Prop) (ws : list write) (r : result A) : Prop :=
  exists new, writes_of r = ws ++ new /\ Forall P new.

(** If the process ended, it ended with the writes [ws] followed by
    writes that all satisfy [P]. *)
Definition died_clean {A : Type} (P : write -> Prop) (ws : list write) (r : result A)
  : Prop :=
  match r with
  | Died _ ws' => exists new, ws' = ws ++ new /\ Forall P new
  | Done _ _ => True
  end.

(** If the call returned, it has made at least one write after [ws]. *)
Definition done_wrote {A : Type} (ws : list write) (r : result A) : Prop :=
  match r with
  | Done _ ws' => exists w new, ws' = ws ++ new ++ [w]
  | Died _ _ => True
  end.

(** The calls that move the motor: the file and the value of the target
    they set first, if any; their speed; their command. *)
Definition set_point (c : call) : option (string * Z) :=
  match c with
  | CRotate angle _ | CRotateTo angle _ => Some (desiredPositionFD, angle)
  | CRunFor time _ => Some (timeFD, time)
  | _ => None
  end.

Definition speed_of (c : call) : option Z :=
  match c with
  | CRunForever speed | CRotate _ speed | CRotateTo _ speed | CRunFor _ speed => Some speed
  | _ => None
  end.

Definition command_of (c : call) : string :=
  match c with
  | CRunForever _ => runForeverCommand
  | CRotate _ _ => runToRelPosCommand
  | CRotateTo _ _ => runToAbsPosCommand
  | CRunFor _ _ => runTimedCommand
  | _ => EmptyString
  end.

Definition set_point_writes (folder : string) (c : call) : list write :=
  match set_point c with
  | Some (name, v) => [WriteInt folder name v]
  | None => []
  end.

Definition reads_value (c : call) : bool :=
  match c with
  | CCurrentSpeed | CCurrentPower | CCurrentPosition => true
  | _ => false
  end.

(** Modelled from the spec: the attribute files as a key/value store (the
    spec's AttributeStore): a file reads as the last string written to it,
    and as in [t] before; every write goes through. *)
Definition kv_driver (t : Motor.Tree) : Driver :=
  {| tree_after := fun ws =>
       {| Motor.entries := Motor.entries t;
          Motor.ReadStringValue := fun folder name =>
            match last_written ws folder name with
            | Some v => Returned v
            | None => Motor.ReadStringValue t folder name
            end |};
     ReadInt16Value := fun _ _ _ => Returned 0%Z;
     ReadInt32Value := fun _ _ _ => Returned 0%Z;
     write_fails := fun _ _ => None |}.

(** Two motors, at the ports A and B, unregulated. *)
Definition two_motors : Motor.Tree :=
  {| Motor.entries := Some ["motor0"; "motor1"]%string;
     Motor.ReadStringValue := fun folder name =>
       if String.eqb name Motor.portFD
       then if String.eqb folder "/sys/class/tacho-motor/motor0"
            then Returned "outA"%string
            else Returned "outB"%string
       else if String.eqb name regulationModeFD
            then Returned "off"%string
            else Returned EmptyString |}.

Definition motor1 : string := "/sys/class/tacho-motor/motor1".

End MotorOps.

(** ** Sends follow the reads, in every program *)

Definition read_is (E : Env) (t : nat) (path : string) (v : uint8) : Prop :=
  ReadUInt8Value E t path value0 = Returned v.

(** The read number [t] gave [v], and the read before it, of the same
    attribute, gave another value. *)
Definition observed_change (E : Env) (t : nat) (v : uint8) : Prop :=
  exists path prev,
    1 <= t /\ read_is E t path v /\ read_is E (t - 1) path prev /\ prev <> v.

(** A poller in its loop made the last read: [curVal] is what it gave;
    during a delivery, [value] is what it gave and [curVal] what the read
    before gave. *)
Definition poller_last_read (E : Env) (n : nat) (q : poller) : Prop :=
  match q with
  | PSelect path cur => 1 <= n /\ read_is E (n - 1) path cur
  | PRange path cur value _ _ =>
      2 <= n /\ read_is E (n - 1) path value /\ read_is E (n - 2) path cur /\
      value <> cur
  | _ => True
  end.

Definition observation_inv (E : Env) (st : state) : Prop :=
  lifecycle_inv st /\
  Forall (poller_last_read E (nreads st)) (pollers st) /\
  Forall (fun t => t < nreads st) (stamps st) /\
  StronglySorted le (stamps st) /\
  Forall2 (fun e t => observed_change E t (snd e)) (issued st) (stamps st).

(** ** Scenarios of the properties *)

(** The state a program ends in; the state of a sensor just built when
    the program does not end in one. *)
Definition final_state (r : option (outcome state)) : state :=
  match r with
  | Some (Returned st) => st
  | _ =>
      {| sensor := {| port := EmptyString; isListening := false; channels := nil_slice |};
         mem := empty_heap; caller := CReady; pollers := [];
         senders := []; nfinds := 1; nreads := 0; issued := [];
       stamps := []; received := [] |}
  end.

(** A sensor whose value never changes. *)
Definition steady : Env := scripted [] 0%Z.

Definition in1 : InPort := "in1"%string.

Definition calls_demo : list label :=
  [LNotify 7; LNotify 7; LStopNotify 8; LNotify 8; LNotify 9; LStopNotify 7].

Definition after_calls_demo : state :=
  Eval vm_compute in final_state (program steady in1 calls_demo).

(** A registry that holds the channel 7 twice, as no program builds it. *)
Definition twice_7 : state :=
  {| sensor := {| port := in1; isListening := false;
                  channels := {| arr := 1; len := 4 |} |};
     mem := [ []; [8; 7; 9; 7] ]; caller := CReady; pollers := [];
     senders := []; nfinds := 1; nreads := 0; issued := [];
       stamps := []; received := [] |}.

Definition stop_demo : list label :=
  [LNotify 7; LStart; LPoll 0; LPoll 0; LPoll 0; LStop].

Definition stopping_demo : state :=
  Eval vm_compute in final_state (program steady in1 stop_demo).

Definition late_env : Env := scripted [0; 1; 1; 2]%Z 2%Z.

Definition nobody_demo : state :=
  Eval vm_compute in final_state (program late_env in1 [LStart; LPoll 0; LPoll 0]).

Definition sensor0_path : string := "/sys/class/lego-sensor/sensor0".

Definition prompt_schedule : list label :=
  [LPoll 0; LPoll 0; LPoll 0; LPoll 0; LPoll 0; LRecv 0; LPoll 0;
   LPoll 0; LPoll 0; LPoll 0; LRecv 0; LPoll 0].

Definition after_prompt : state :=
  Eval vm_compute in
    final_state (program (five_ticks_env 0) in1 (LNotify 7 :: LStart :: prompt_schedule)).

(** The two sends of the five ticks are pending together once the
    subscriber has waited; it may then be handed 2 before 1. *)
Definition late_schedule : list label :=
  [LPoll 0; LPoll 0; LPoll 0; LPoll 0; LPoll 0; LPoll 0; LPoll 0;
   LPoll 0; LPoll 0; LPoll 0; LRecv 1; LRecv 0].

(** The sensor goes 0, 1, 0. *)
Definition press_release : Env := scripted [0; 1; 0]%Z 0%Z.

Definition in_order_schedule : list label :=
  [LNotify 7; LNotify 8; LStart;
   LPoll 0; LPoll 0; LPoll 0; LPoll 0; LPoll 0; LPoll 0;
   LPoll 0; LPoll 0; LPoll 0; LPoll 0;
   LRecv 1; LRecv 0; LRecv 0; LRecv 0].

Definition after_in_order : state :=
  Eval vm_compute in final_state (program press_release in1 in_order_schedule).

Definition three_subscribers : list label :=
  [LNotify 7; LNotify 8; LNotify 9; LStart; LPoll 0; LPoll 0; LPoll 0].

(** The poller has just seen the change to 1 and taken the slice header. *)
Definition change_seen : state :=
  Eval vm_compute in final_state (program late_env in1 three_subscribers).

(** ** Failures *)

(** Modelled from the spec: the sensor lookup is defined elsewhere in the
    package.  The code uses its result as a plain string, so it has
    no error to return; the spec (its design notes) records that the
    source ends the process through [log.Fatal] when no matching device is
    attached, as [Motor.findFolder] does.  Here the sensor is attached for
    the first [n] lookups and gone afterwards. *)
Definition unplugged_after (n : nat) : Env :=
  {| baseSensorPath := "/sys/class/lego-sensor";
     findSensor := fun k _ _ =>
       if k <? n then Returned "sensor0"%string else Fatal "sensor not found";
     ReadUInt8Value := fun _ _ _ => Returned 0%Z;
     growcap := double |}.


(** A sensor just built, about to start listening. *)
Definition built : state :=
  Eval vm_compute in final_state (program (unplugged_after 1) in1 []).



(** ** Pending sends, and stopping during a delivery *)

(** Every move but a subscriber taking a value. *)
Definition no_recv (l : label) : bool :=
  match l with
  | LRecv _ => false
  | _ => true
  end.

(** The poller has seen the change to 1 and sent it to the channel 7,
    which has not taken it yet. *)
Definition one_pending : state :=
  Eval vm_compute in
    final_state (program late_env in1
                   [LNotify 7; LStart; LPoll 0; LPoll 0; LPoll 0; LPoll 0]).

(** The caller has entered [StopListening] while the poller, which has
    sent the change to the first of three subscribers, is in its loop. *)
Definition stop_during_delivery : state :=
  Eval vm_compute in
    final_state (program late_env in1 (three_subscribers ++ [LPoll 0; LStop])).

(** The nil channel was subscribed and a change was sent to it. *)
Definition nil_subscribed : state :=
  Eval vm_compute in
    final_state (program late_env in1
                   [LNotify 0; LStart; LPoll 0; LPoll 0; LPoll 0; LPoll 0]).

(** A first session saw the value 0 and was stopped. *)
Definition stopped_session : state :=
  Eval vm_compute in
    final_state (program late_env in1
                   [LNotify 7; LStart; LPoll 0; LPoll 0; LStop; LPoll 0]).

(** Nothing was taken from the nil channel, and every send issued to it
    is pending. *)
Definition nil_blocked (st : state) : Prop :=
  on_chan 0 (received st) = [] /\ on_chan 0 (senders st) = on_chan 0 (issued st).

(** ** Calls that overlap

    Nothing in touch.go takes a lock.  The machine above runs every call
    of the caller as one step.  Here further goroutines call [Notify],
    and their calls run statement by statement between the steps of
    everyone else: the condition [sensor.indexOf(ch) == -1]; the
    evaluation of [append(sensor.channels, ch)]; and the assignment to
    [sensor.channels], which stores the words of the slice header, the
    pointer and the length, one by one and in either order (Go promises
    no more for a value larger than a word that is read while it is
    written). *)

(** A call of [Notify] under way, by what is left of it: the condition
    held and the assignment is next; [append] gave [s] and the words of
    [s] marked are stored; the call has returned. *)
Inductive pending_call : Type :=
| Checked (ch : chan)
| Storing (s : slice) (ptr_stored len_stored : bool)
| CallReturned.

Record fine_state : Type := {
  base : state;
  calls : list pending_call
}.

(** Who moves next: anyone of the machine above, a call of the caller
    running as a whole; a goroutine that enters [Notify]; or the call
    number [n] under way, with its next statement or word. *)
Inductive fine_label : Type :=
| FWhole (l : label)
| FEnter (ch : chan)
| FAppend (n : nat)
| FStorePtr (n : nat)
| FStoreLen (n : nat).

(** The array written by [append], the header not stored yet. *)
Definition set_mem (st : state) (h : heap) : state :=
  set_channels st h (channels (sensor st)).

(** One word of [sensor.channels] stored. *)
Definition store_ptr (st : state) (a : nat) : state :=
  set_channels st (mem st) {| arr := a; len := len (channels (sensor st)) |}.

Definition store_len (st : state) (n : nat) : state :=
  set_channels st (mem st) {| arr := arr (channels (sensor st)); len := n |}.

Definition after_store (s : slice) (ptr_stored len_stored : bool) : pending_call :=
  if ptr_stored && len_stored then CallReturned else Storing s ptr_stored len_stored.

(** A call has stored one word of the header and not the other. *)
Definition mid_store (c : pending_call) : bool :=
  match c with
  | Storing _ ptr_stored len_stored => xorb ptr_stored len_stored
  | _ => false
  end.

Definition settled (fs : fine_state) : bool := negb (existsb mid_store (calls fs)).

(** One step.  The poller's loop is followed cell by cell, whatever the
    header it took.  A call is followed on the elements its header
    denotes, which says nothing of a header taken in the middle of a
    store: the statements of a call that load [sensor.channels] are left
    out ([None]) in such a state. *)
Definition fine_step (E : Env) (fl : fine_label) (fs : fine_state)
  : option (outcome fine_state) :=
  match fl with
  | FWhole l =>
      if registry_call l && negb (settled fs)
      then None
      else
        match step E l (base fs) with
        | Some (Returned st') => Some (Returned {| base := st'; calls := calls fs |})
        | Some (Fatal msg) => Some (Fatal msg)
        | None => None
        end
  | FEnter ch =>
      if negb (settled fs)
      then None
      else if Z.eqb (indexOf (base fs) ch) (-1)
      then Some (Returned {| base := base fs; calls := calls fs ++ [Checked ch] |})
      else Some (Returned fs)
  | FAppend n =>
      match nth_error (calls fs) n with
      | Some (Checked ch) =>
          if negb (settled fs)
          then None
          else
            let (h, s) := append E (mem (base fs)) (channels (sensor (base fs))) [ch] in
            Some (Returned {| base := set_mem (base fs) h;
                              calls := update (calls fs) n (Storing s false false) |})
      | _ => None
      end
  | FStorePtr n =>
      match nth_error (calls fs) n with
      | Some (Storing s false len_stored) =>
          Some (Returned {| base := store_ptr (base fs) (arr s);
                            calls := update (calls fs) n (after_store s true len_stored) |})
      | _ => None
      end
  | FStoreLen n =>
      match nth_error (calls fs) n with
      | Some (Storing s ptr_stored false) =>
          Some (Returned {| base := store_len (base fs) (len s);
                            calls := update (calls fs) n (after_store s ptr_stored true) |})
      | _ => None
      end
  end.

Fixpoint fine_run (E : Env) (fls : list fine_label) (fs : fine_state)
  : option (outcome fine_state) :=
  match fls with
  | [] => Some (Returned fs)
  | fl :: fls' =>
      match fine_step E fl fs with
      | Some (Returned fs') => fine_run E fls' fs'
      | Some (Fatal msg) => Some (Fatal msg)
      | None => None
      end
  end.

Definition fine_program (E : Env) (p : InPort) (fls : list fine_label)
  : option (outcome fine_state) :=
  match FindTouchSensor E p with
  | Returned st => fine_run E fls {| base := st; calls := [] |}
  | Fatal msg => Some (Fatal msg)
  end.

(** No call is split: every step is a step of the machine above. *)
Definition whole (fl : fine_label) : bool :=
  match fl with
  | FWhole _ => true
  | _ => false
  end.

(** The steps of the machine above among the steps of a schedule. *)
Fixpoint wholes (fls : list fine_label) : list label :=
  match fls with
  | [] => []
  | FWhole l :: r => l :: wholes r
  | _ :: r => wholes r
  end.

(** A call of [Notify] in a goroutine of its own, from its first
    statement to its return, the pointer stored first. *)
Definition whole_Notify (ch : chan) (n : nat) : list fine_label :=
  [FEnter ch; FAppend n; FStorePtr n; FStoreLen n].

(** Two goroutines call [Notify(7)] and both find 7 absent before either
    has appended; [StopNotify(7)] is called when both have returned. *)
Definition both_pass_the_check : list fine_label :=
  [FEnter 7; FEnter 7;
   FAppend 0; FStorePtr 0; FStoreLen 0;
   FAppend 1; FStorePtr 1; FStoreLen 1].

(** Two goroutines call [Notify(7)] and [Notify(8)]; both evaluate
    [append] on the empty slice before either has stored its result. *)
Definition both_append_to_nil : list fine_label :=
  [FEnter 7; FEnter 8; FAppend 0; FAppend 1;
   FStorePtr 0; FStoreLen 0; FStorePtr 1; FStoreLen 1].

(** The poller sees the change to 1 when [Notify(8)], which has moved
    the registry 7 to a longer array, has stored the new length and not
    yet the new pointer. *)
Definition header_read_in_mid_store : list fine_label :=
  [FWhole (LNotify 7); FWhole LStart; FWhole (LPoll 0); FWhole (LPoll 0);
   FEnter 8; FAppend 0; FStoreLen 0;
   FWhole (LPoll 0); FWhole (LPoll 0)].

(** * Properties *)

(** Proof steps that recur: read the state off a step that returned;
    open a call of the caller, which went ahead; split a step of a poller
    by the statement the poller was at. *)
Ltac inv_some H := inversion H; subst; clear H.

Ltac ready_step H :=
  unfold when_ready in H;
  match type of H with
  | context [caller ?st] => destruct (caller st) eqn:?; [|discriminate]
  end;
  inv_some H.

Ltac poll_cases H k :=
  unfold poll_step in H;
  match type of H with
  | context [nth_error ?ps k] =>
      let Hk := fresh "Hk" in
      destruct (nth_error ps k) as [[| path | path cur | path cur value s i |]|] eqn:Hk;
      [| | | | discriminate | discriminate]
  end.

(** ** Lists and slices *)

Lemma nth_update_same :
  forall (A : Type) (l : list A) k x d, k < length l -> nth k (update l k x) d = x.
Proof.
  induction l as [|y l IH]; intros k x d Hk; simpl in *; [lia|].
  destruct k; simpl; [reflexivity|]. apply IH. lia.
Qed.

Lemma nth_update_other :
  forall (A : Type) (l : list A) k j x d, j <> k -> nth j (update l k x) d = nth j l d.
Proof.
  induction l as [|y l IH]; intros k j x d Hjk; simpl.
  - destruct k; reflexivity.
  - destruct k, j; simpl; try reflexivity; try lia. apply IH. lia.
Qed.

Lemma length_update :
  forall (A : Type) (l : list A) k x, length (update l k x) = length l.
Proof.
  induction l as [|y l IH]; intros k x; simpl; [destruct k; reflexivity|].
  destruct k; simpl; [reflexivity|]. now rewrite IH.
Qed.

Lemma nth_error_update_same :
  forall (A : Type) (l : list A) k x, k < length l -> nth_error (update l k x) k = Some x.
Proof.
  induction l as [|y l IH]; intros k x Hk; simpl in *; [lia|].
  destruct k; simpl; [reflexivity|]. apply IH. lia.
Qed.

Lemma nth_error_update_other :
  forall (A : Type) (l : list A) k j x, j <> k -> nth_error (update l k x) j = nth_error l j.
Proof.
  induction l as [|y l IH]; intros k j x Hjk; simpl.
  - destruct k; reflexivity.
  - destruct k, j; simpl; try reflexivity; try lia. apply IH. lia.
Qed.

Lemma update_last :
  forall (A : Type) (l : list A) x y, update (l ++ [x]) (length l) y = l ++ [y].
Proof.
  induction l as [|a l IH]; intros x y; simpl; [reflexivity|]. now rewrite IH.
Qed.

Lemma nth_error_last :
  forall (A : Type) (l : list A) x, nth_error (l ++ [x]) (length l) = Some x.
Proof.
  intros A l x. rewrite nth_error_app2 by lia. now rewrite Nat.sub_diag.
Qed.

Lemma firstn_app_exact :
  forall (A : Type) (l1 l2 : list A) n, n = length l1 -> firstn n (l1 ++ l2) = l1.
Proof.
  intros A l1 l2 n ->. rewrite firstn_app, Nat.sub_diag, firstn_all. simpl.
  apply app_nil_r.
Qed.

Lemma length_write_at :
  forall a i xs, i + length xs <= length a -> length (write_at a i xs) = length a.
Proof.
  intros a i xs H. unfold write_at.
  rewrite !length_app, length_firstn, length_skipn. lia.
Qed.

Lemma firstn_write_at :
  forall a i xs, i <= length a ->
    firstn (i + length xs) (write_at a i xs) = firstn i a ++ xs.
Proof.
  intros a i xs H. unfold write_at. rewrite app_assoc.
  apply firstn_app_exact. rewrite length_app, length_firstn. lia.
Qed.

(** Cells below the write position keep their content. *)
Lemma firstn_write_at_below :
  forall a i xs n, n <= i -> i <= length a -> firstn n (write_at a i xs) = firstn n a.
Proof.
  intros a i xs n Hn Hi. unfold write_at.
  rewrite firstn_app, length_firstn.
  replace (n - Nat.min i (length a)) with 0 by lia.
  simpl. rewrite app_nil_r, firstn_firstn. f_equal. lia.
Qed.

Lemma append_elems :
  forall E h s xs h' s',
    wf_slice h s -> append E h s xs = (h', s') ->
    elems h' s' = elems h s ++ xs /\ wf_slice h' s'.
Proof.
  intros E h s xs h' s' [Ha Hl] Happ. unfold append in Happ.
  destruct (len s + length xs <=? length (backing h s)) eqn:Hfit;
    inversion Happ; subst; clear Happ; unfold elems, wf_slice, backing in *; simpl.
  - apply Nat.leb_le in Hfit.
    rewrite nth_update_same by exact Ha.
    rewrite firstn_write_at by exact Hl.
    rewrite length_update, length_write_at by exact Hfit. auto.
  - rewrite app_nth2, Nat.sub_diag by lia. simpl.
    rewrite app_assoc, length_app. simpl. split.
    + apply firstn_app_exact. rewrite length_app, length_firstn. lia.
    + rewrite !length_app, length_firstn. lia.
Qed.

(** ** The registry: [indexOf], [Notify] and [StopNotify] on the elements *)

Lemma indexOf_from_absent :
  forall l ch i, ~ In ch l -> indexOf_from l ch i = (-1)%Z.
Proof.
  induction l as [|x l IH]; intros ch i Hn; simpl; [reflexivity|].
  destruct (Nat.eqb_spec x ch) as [->|Hne].
  - exfalso. apply Hn. now left.
  - apply IH. intro H. apply Hn. now right.
Qed.

Lemma indexOf_from_first :
  forall l1 l2 ch i, ~ In ch l1 ->
    indexOf_from (l1 ++ ch :: l2) ch i = (i + Z.of_nat (length l1))%Z.
Proof.
  induction l1 as [|x l1 IH]; intros l2 ch i Hn; simpl.
  - rewrite Nat.eqb_refl. lia.
  - destruct (Nat.eqb_spec x ch) as [->|Hne].
    + exfalso. apply Hn. now left.
    + rewrite IH; [lia|]. intro H. apply Hn. now right.
Qed.

(** Every list splits at the first occurrence of an element it holds. *)
Lemma split_first :
  forall (ch : chan) l, In ch l -> exists l1 l2, l = l1 ++ ch :: l2 /\ ~ In ch l1.
Proof.
  induction l as [|x l IH]; intros Hin; [destruct Hin|].
  destruct (Nat.eq_dec x ch) as [->|Hne].
  - exists [], l. auto.
  - destruct Hin as [->|Hin]; [congruence|].
    destruct (IH Hin) as (l1 & l2 & -> & Hn).
    exists (x :: l1), l2. split; [reflexivity|].
    intros [H|H]; [congruence|auto].
Qed.

Lemma Notify_registry :
  forall E ch st, wf_state st ->
    wf_state (Notify E ch st) /\
    ((In ch (registry st) /\ Notify E ch st = st) \/
     (~ In ch (registry st) /\ registry (Notify E ch st) = registry st ++ [ch])).
Proof.
  intros E ch st Hwf. unfold Notify, indexOf.
  destruct (in_dec Nat.eq_dec ch (registry st)) as [Hin|Hn].
  - destruct (split_first ch _ Hin) as (l1 & l2 & Heq & Hn1).
    rewrite Heq, indexOf_from_first by exact Hn1.
    destruct (Z.eqb_spec (0 + Z.of_nat (length l1)) (-1)); [lia|].
    split; [exact Hwf|]. left. rewrite <- Heq. auto.
  - rewrite indexOf_from_absent by exact Hn. simpl.
    destruct (append E (mem st) (channels (sensor st)) [ch]) as [h s] eqn:Happ.
    destruct (append_elems _ _ _ _ _ _ Hwf Happ) as [Hel Hwf'].
    split; [exact Hwf'|]. right. split; [exact Hn|exact Hel].
Qed.

Lemma StopNotify_registry :
  forall E ch st, wf_state st ->
    wf_state (StopNotify E ch st) /\
    ((~ In ch (registry st) /\ StopNotify E ch st = st) \/
     (exists l1 l2, registry st = l1 ++ ch :: l2 /\ ~ In ch l1 /\
                    registry (StopNotify E ch st) = l1 ++ l2)).
Proof.
  intros E ch st Hwf. unfold StopNotify, indexOf.
  destruct (in_dec Nat.eq_dec ch (registry st)) as [Hin|Hn].
  - destruct (split_first ch _ Hin) as (l1 & l2 & Heq & Hn1).
    rewrite Heq, indexOf_from_first by exact Hn1.
    destruct (Z.eqb_spec (0 + Z.of_nat (length l1)) (-1)); [lia|]. simpl negb. cbv iota.
    replace (Z.to_nat (0 + Z.of_nat (length l1))) with (length l1) by lia.
    fold (registry st). rewrite Heq.
    set (hd := {| arr := arr (channels (sensor st)); len := length l1 |}).
    assert (Hlen : length l1 < len (channels (sensor st))).
    { assert (H : length (registry st) <= len (channels (sensor st)))
        by (unfold registry, elems; rewrite length_firstn; lia).
      rewrite Heq, length_app in H. simpl in H. lia. }
    assert (Hwfh : wf_slice (mem st) hd).
    { destruct Hwf as [Ha Hl]. unfold wf_slice, backing, hd in *. simpl. split; [exact Ha|lia]. }
    assert (Hhd : elems (mem st) hd = l1).
    { unfold elems, hd, backing. simpl.
      replace (length l1) with (Nat.min (length l1) (len (channels (sensor st)))) by lia.
      rewrite <- firstn_firstn.
      change (firstn (length l1) (registry st) = l1).
      rewrite Heq. now apply firstn_app_exact. }
    replace (skipn (length l1 + 1) (l1 ++ ch :: l2)) with l2.
    2:{ rewrite skipn_app. rewrite skipn_all2 by lia.
        replace (length l1 + 1 - length l1) with 1 by lia. reflexivity. }
    destruct (append E (mem st) hd l2) as [h s] eqn:Happ.
    destruct (append_elems _ _ _ _ _ _ Hwfh Happ) as [Hel Hwf'].
    split; [exact Hwf'|]. right. exists l1, l2.
    split; [reflexivity|]. split; [exact Hn1|].
    unfold registry. simpl. rewrite Hel, Hhd. reflexivity.
  - rewrite indexOf_from_absent by exact Hn. simpl. auto.
Qed.

(** ** The lifecycle invariant *)

Lemma count_live_app :
  forall ps qs, count_live (ps ++ qs) = count_live ps + count_live qs.
Proof.
  intros. unfold count_live. now rewrite filter_app, length_app.
Qed.

Lemma count_live_update :
  forall ps k p q, nth_error ps k = Some q ->
    count_live (update ps k p) + (if live q then 1 else 0)
    = count_live ps + (if live p then 1 else 0).
Proof.
  unfold count_live.
  induction ps as [|x ps IH]; intros k p q Hk; [destruct k; discriminate|].
  destruct k; simpl in *.
  - inversion Hk; subst. destruct (live p), (live q); simpl; lia.
  - specialize (IH _ p _ Hk). destruct (live x); simpl; lia.
Qed.

Lemma count_live_zero :
  forall ps, count_live ps = 0 -> Forall (fun p => p = PDone) ps.
Proof.
  unfold count_live.
  induction ps as [|x ps IH]; intros H; [constructor|].
  simpl in H. destruct x; simpl in H; try discriminate.
  constructor; [reflexivity|auto].
Qed.

Lemma lifecycle_init :
  forall E p st, FindTouchSensor E p = Returned st -> lifecycle_inv st.
Proof.
  intros E p st H. unfold FindTouchSensor in H.
  destruct (findSensor E 0 p TypeTouch); simpl in H; [|discriminate].
  inv_some H. split; [reflexivity|discriminate].
Qed.

Lemma lifecycle_step :
  forall E l st st', lifecycle_inv st -> step E l st = Some (Returned st') ->
    lifecycle_inv st'.
Proof.
  intros E l st st' [Hc Hs] Hstep. destruct l; simpl in Hstep.
  - ready_step Hstep. unfold StartListening, lifecycle_inv.
    destruct (isListening (sensor st)) eqn:Hl; simpl.
    + rewrite Hl. split; [exact Hc|congruence].
    + rewrite count_live_app, Hc. split; [reflexivity|congruence].
  - ready_step Hstep. unfold StopListening_enter, lifecycle_inv.
    destruct (isListening (sensor st)) eqn:Hl; simpl.
    + rewrite Hl. auto.
    + rewrite Hl. split; [exact Hc|congruence].
  - ready_step Hstep. unfold Notify, lifecycle_inv.
    destruct (indexOf st ch =? -1)%Z; [|split; [exact Hc|congruence]].
    destruct (append E (mem st) (channels (sensor st)) [ch]). simpl.
    split; [exact Hc|congruence].
  - ready_step Hstep. unfold StopNotify, lifecycle_inv.
    destruct (negb (indexOf st ch =? -1)%Z); [|split; [exact Hc|congruence]].
    destruct (append E (mem st) _ _). simpl.
    split; [exact Hc|congruence].
  - poll_cases Hstep k.
    + destruct (findSensor E (nfinds st) (port (sensor st)) TypeTouch); simpl in Hstep; inv_some Hstep.
      unfold lifecycle_inv. simpl.
      pose proof (count_live_update _ _ (PBase (sensor_path E a)) _ Hk) as Hu.
      simpl in Hu. split; [lia|exact Hs].
    + destruct (ReadUInt8Value E (nreads st) path value0); simpl in Hstep; inv_some Hstep.
      unfold lifecycle_inv. simpl.
      pose proof (count_live_update _ _ (PSelect path a) _ Hk) as Hu.
      simpl in Hu. split; [lia|exact Hs].
    + destruct (caller st) eqn:Hcal.
      * destruct (ReadUInt8Value E (nreads st) path value0); simpl in Hstep; inv_some Hstep.
        unfold lifecycle_inv. simpl. rewrite Hcal.
        match goal with |- context [update _ _ ?p] =>
          pose proof (count_live_update _ _ p _ Hk) as Hu end.
        destruct (negb (a =? cur)%Z); simpl in Hu; (split; [lia|discriminate]).
      * inv_some Hstep. unfold lifecycle_inv. simpl.
        pose proof (count_live_update _ _ PDone _ Hk) as Hu. simpl in Hu.
        rewrite (Hs eq_refl) in Hc. split; [lia|discriminate].
    + destruct (i <? len s).
      * destruct (nth_error (backing (mem st) s) i); inv_some Hstep.
        unfold lifecycle_inv. simpl.
        pose proof (count_live_update _ _ (PRange path cur value s (S i)) _ Hk) as Hu.
        simpl in Hu. split; [lia|exact Hs].
      * inv_some Hstep. unfold lifecycle_inv. simpl.
        pose proof (count_live_update _ _ (PSelect path value) _ Hk) as Hu.
        simpl in Hu. split; [lia|exact Hs].
  - unfold sendEvent in Hstep.
    destruct (nth_error (senders st) k) as [[ch val]|]; [|discriminate].
    destruct (Nat.eqb ch 0); inv_some Hstep. split; assumption.
Qed.

Lemma lifecycle_reachable :
  forall E p st, reachable E p st -> lifecycle_inv st.
Proof.
  induction 1 as [st H|st l st' _ IH Hstep].
  - eapply lifecycle_init; eassumption.
  - eapply lifecycle_step; eassumption.
Qed.

(** ** What [append] leaves alone *)

Lemma append_frame :
  forall E h s xs h' s',
    wf_slice h s -> append E h s xs = (h', s') ->
    length h <= length h' /\
    (forall j, j < length h -> length (nth j h' []) = length (nth j h [])) /\
    (forall j, j < length h -> j <> arr s -> nth j h' [] = nth j h []) /\
    (forall n, n <= len s -> firstn n (nth (arr s) h' []) = firstn n (nth (arr s) h [])) /\
    (arr s' = arr s \/ arr s' = length h) /\
    len s' = len s + length xs.
Proof.
  intros E h s xs h' s' [Ha Hl] Happ. unfold append, backing in *.
  destruct (len s + length xs <=? length (nth (arr s) h [])) eqn:Hfit;
    inversion Happ; subst; clear Happ; simpl.
  - apply Nat.leb_le in Hfit. rewrite length_update.
    split; [lia|]. split; [|split; [|split]].
    + intros j Hj. destruct (Nat.eq_dec j (arr s)) as [->|Hne].
      * rewrite nth_update_same by exact Ha. now apply length_write_at.
      * now rewrite nth_update_other by exact Hne.
    + intros j _ Hne. now apply nth_update_other.
    + intros n Hn. rewrite nth_update_same by exact Ha.
      now apply firstn_write_at_below.
    + auto.
  - rewrite length_app. simpl.
    split; [lia|]. split; [|split; [|split]].
    + intros j Hj. now rewrite app_nth1 by exact Hj.
    + intros j Hj _. now rewrite app_nth1 by exact Hj.
    + intros n _. now rewrite app_nth1 by exact Ha.
    + auto.
Qed.

Lemma append_keeps_wf :
  forall E h s xs h' s' s0,
    wf_slice h s -> append E h s xs = (h', s') -> wf_slice h s0 -> wf_slice h' s0.
Proof.
  intros E h s xs h' s' s0 Hwf Happ [Ha Hl].
  destruct (append_frame _ _ _ _ _ _ Hwf Happ) as (Hlen & Hsame & _).
  unfold wf_slice, backing in *. rewrite Hsame by exact Ha. split; lia.
Qed.

(** A slice that is no longer than the one appended to, when both share
    the array, keeps its elements. *)
Lemma append_keeps_elems :
  forall E h s xs h' s' s0,
    wf_slice h s -> append E h s xs = (h', s') -> wf_slice h s0 ->
    (arr s0 = arr s -> len s0 <= len s) ->
    elems h' s0 = elems h s0.
Proof.
  intros E h s xs h' s' s0 Hwf Happ [Ha Hl] Hshort.
  destruct (append_frame _ _ _ _ _ _ Hwf Happ) as (_ & _ & Hoth & Hbelow & _).
  unfold elems, backing in *.
  destruct (Nat.eq_dec (arr s0) (arr s)) as [Heq|Hne].
  - rewrite Heq. apply Hbelow. auto.
  - now rewrite Hoth.
Qed.

(** ** The calls of [append] in [Notify] and [StopNotify] *)

Lemma length_registry :
  forall st, wf_state st -> length (registry st) = len (channels (sensor st)).
Proof.
  intros st [_ Hl]. unfold registry, elems. rewrite length_firstn. lia.
Qed.

Lemma indexOf_from_range :
  forall l ch i,
    indexOf_from l ch i = (-1)%Z \/
    (i <= indexOf_from l ch i < i + Z.of_nat (length l))%Z.
Proof.
  induction l as [|x l IH]; intros ch i; simpl; [auto|].
  destruct (Nat.eqb x ch); [right; lia|].
  destruct (IH ch (i + 1)%Z) as [H|H]; [auto|right; lia].
Qed.

Lemma Notify_shape :
  forall E ch st,
    Notify E ch st = st \/
    exists h s, append E (mem st) (channels (sensor st)) [ch] = (h, s) /\
                Notify E ch st = set_channels st h s.
Proof.
  intros E ch st. unfold Notify.
  destruct (indexOf st ch =? -1)%Z; [|auto].
  destruct (append E (mem st) (channels (sensor st)) [ch]) as [h s].
  right. exists h, s. auto.
Qed.

Lemma StopNotify_shape :
  forall E ch st, wf_state st ->
    StopNotify E ch st = st \/
    exists i h s,
      i < len (channels (sensor st)) /\
      append E (mem st) {| arr := arr (channels (sensor st)); len := i |}
             (skipn (i + 1) (registry st)) = (h, s) /\
      StopNotify E ch st = set_channels st h s.
Proof.
  intros E ch st Hwf. unfold StopNotify.
  destruct (indexOf st ch =? -1)%Z eqn:Hi; simpl; [auto|].
  apply Z.eqb_neq in Hi.
  fold (registry st).
  destruct (append E (mem st) _ _) as [h s] eqn:Happ.
  right. exists (Z.to_nat (indexOf st ch)), h, s.
  split; [|auto].
  unfold indexOf in *.
  destruct (indexOf_from_range (registry st) ch 0) as [H|H]; [contradiction|].
  rewrite length_registry in H by exact Hwf. lia.
Qed.

(** ** No read outside an array *)

Lemma Forall_update :
  forall (A : Type) (P : A -> Prop) l k x,
    Forall P l -> P x -> Forall P (update l k x).
Proof.
  induction l as [|y l IH]; intros k x Hl Hx; simpl; [destruct k; constructor|].
  inversion Hl; subst. destruct k; constructor; auto.
Qed.

Lemma range_ok_append :
  forall E h s xs h' s' ps,
    wf_slice h s -> append E h s xs = (h', s') ->
    Forall (range_ok h) ps -> Forall (range_ok h') ps.
Proof.
  intros E h s xs h' s' ps Hwf Happ Hps.
  eapply Forall_impl; [|exact Hps].
  intros [] Hp; simpl in Hp |- *; auto.
  eapply append_keeps_wf; [exact Hwf|exact Happ|exact Hp].
Qed.

Lemma mem_inv_init :
  forall E p st, FindTouchSensor E p = Returned st -> mem_inv st.
Proof.
  intros E p st H. unfold FindTouchSensor in H.
  destruct (findSensor E 0 p TypeTouch); simpl in H; [|discriminate].
  inv_some H. split; [|constructor].
  unfold wf_state, wf_slice, backing. simpl. lia.
Qed.

Lemma mem_inv_step :
  forall E l st st', mem_inv st -> step E l st = Some (Returned st') -> mem_inv st'.
Proof.
  intros E l st st' [Hwf Hps] Hstep. destruct l; simpl in Hstep.
  - ready_step Hstep. unfold StartListening.
    destruct (isListening (sensor st)); [split; assumption|].
    split; [exact Hwf|]. simpl. apply Forall_app. split; [exact Hps|].
    constructor; [exact I|constructor].
  - ready_step Hstep. unfold StopListening_enter.
    destruct (isListening (sensor st)); split; assumption.
  - ready_step Hstep.
    destruct (Notify_shape E ch st) as [->|(h & s & Happ & ->)]; [split; assumption|].
    split.
    + now destruct (append_elems _ _ _ _ _ _ Hwf Happ).
    + simpl. eapply range_ok_append; eassumption.
  - ready_step Hstep.
    destruct (StopNotify_shape E ch st Hwf) as [->|(i & h & s & Hi & Happ & ->)];
      [split; assumption|].
    assert (Hwfh : wf_slice (mem st) {| arr := arr (channels (sensor st)); len := i |}).
    { destruct Hwf as [Ha Hl]. unfold wf_slice, backing in *. simpl. split; [exact Ha|lia]. }
    split.
    + now destruct (append_elems _ _ _ _ _ _ Hwfh Happ).
    + simpl. eapply range_ok_append; eassumption.
  - poll_cases Hstep k.
    + destruct (findSensor E (nfinds st) (port (sensor st)) TypeTouch); simpl in Hstep; inv_some Hstep.
      split; [exact Hwf|]. simpl. apply Forall_update; [exact Hps|exact I].
    + destruct (ReadUInt8Value E (nreads st) path value0); simpl in Hstep; inv_some Hstep.
      split; [exact Hwf|]. simpl. apply Forall_update; [exact Hps|exact I].
    + destruct (caller st).
      * destruct (ReadUInt8Value E (nreads st) path value0); simpl in Hstep; inv_some Hstep.
        split; [exact Hwf|]. simpl. apply Forall_update; [exact Hps|].
        destruct (negb (a =? cur)%Z); simpl; [exact Hwf|exact I].
      * inv_some Hstep. split; [exact Hwf|]. simpl.
        apply Forall_update; [exact Hps|exact I].
    + assert (Hs : wf_slice (mem st) s).
      { apply nth_error_In in Hk. rewrite Forall_forall in Hps. exact (Hps _ Hk). }
      destruct (i <? len s).
      * destruct (nth_error (backing (mem st) s) i); inv_some Hstep.
        split; [exact Hwf|]. simpl. apply Forall_update; [exact Hps|exact Hs].
      * inv_some Hstep. split; [exact Hwf|]. simpl.
        apply Forall_update; [exact Hps|exact I].
  - unfold sendEvent in Hstep.
    destruct (nth_error (senders st) k) as [[ch val]|]; [|discriminate].
    destruct (Nat.eqb ch 0); inv_some Hstep. split; assumption.
Qed.

Lemma mem_inv_reachable :
  forall E p st, reachable E p st -> mem_inv st.
Proof.
  induction 1 as [st H|st l st' _ IH Hstep].
  - eapply mem_inv_init; eassumption.
  - eapply mem_inv_step; eassumption.
Qed.

(** ** Who touches the registry *)

(** Only [Notify] and [StopNotify] write the slice or its arrays. *)
Lemma step_keeps_registry :
  forall E l st st',
    registry_call l = false -> step E l st = Some (Returned st') ->
    mem st' = mem st /\ channels (sensor st') = channels (sensor st).
Proof.
  intros E l st st' Hl Hstep. destruct l; try discriminate; simpl in Hstep.
  - ready_step Hstep. unfold StartListening.
    destruct (isListening (sensor st)); auto.
  - ready_step Hstep. unfold StopListening_enter.
    destruct (isListening (sensor st)); auto.
  - poll_cases Hstep k.
    + destruct (findSensor E (nfinds st) (port (sensor st)) TypeTouch); simpl in Hstep; inv_some Hstep. auto.
    + destruct (ReadUInt8Value E (nreads st) path value0); simpl in Hstep; inv_some Hstep. auto.
    + destruct (caller st).
      * destruct (ReadUInt8Value E (nreads st) path value0); simpl in Hstep; inv_some Hstep. auto.
      * inv_some Hstep. auto.
    + destruct (i <? len s).
      * destruct (nth_error (backing (mem st) s) i); inv_some Hstep. auto.
      * inv_some Hstep. auto.
  - unfold sendEvent in Hstep.
    destruct (nth_error (senders st) k) as [[ch val]|]; [|discriminate].
    destruct (Nat.eqb ch 0); inv_some Hstep. auto.
Qed.

(** ** The order of the registry *)

Lemma sorted_snoc :
  forall (A : Type) (R : A -> A -> Prop) l x,
    StronglySorted R l -> Forall (fun a => R a x) l -> StronglySorted R (l ++ [x]).
Proof.
  intros A R. induction l as [|y l IH]; intros x Hs Hall; simpl.
  - repeat constructor.
  - inversion Hs as [|? ? Hs' Hy]; subst. inversion Hall as [|? ? Hyx Hall']; subst.
    constructor; [auto|]. apply Forall_app. split; [assumption|].
    repeat constructor. assumption.
Qed.

Lemma sorted_remove :
  forall (R : chan -> chan -> Prop) l1 x l2,
    StronglySorted R (l1 ++ x :: l2) -> StronglySorted R (l1 ++ l2).
Proof.
  induction l1 as [|y l1 IH]; intros x l2 Hs; simpl in *.
  - now inversion Hs.
  - inversion Hs as [|? ? Hs' Hall]; subst. constructor; [eauto|].
    apply Forall_app in Hall. destruct Hall as [Ha Hb].
    inversion Hb; subst. apply Forall_app. auto.
Qed.

Lemma sorted_ext :
  forall (R R' : chan -> chan -> Prop) l,
    (forall a b, In a l -> In b l -> R a b -> R' a b) ->
    StronglySorted R l -> StronglySorted R' l.
Proof.
  induction l as [|y l IH]; intros Himp Hs; [constructor|].
  inversion Hs as [|? ? Hs' Hall]; subst. constructor.
  - apply IH; [|assumption]. intros a b Ha Hb. apply Himp; now right.
  - rewrite Forall_forall in *. intros b Hb. apply Himp; [now left|now right|auto].
Qed.

Lemma sorted_irrefl_NoDup :
  forall (R : chan -> chan -> Prop) l,
    (forall a, ~ R a a) -> StronglySorted R l -> NoDup l.
Proof.
  induction l as [|y l IH]; intros Hirr Hs; [constructor|].
  inversion Hs as [|? ? Hs' Hall]; subst. constructor; [|auto].
  intro Hin. rewrite Forall_forall in Hall. exact (Hirr _ (Hall _ Hin)).
Qed.

Lemma earlier_irrefl : forall f a, ~ earlier f a a.
Proof.
  intros f a (ta & tb & Ha & Hb & Hlt). rewrite Ha in Hb. inversion Hb. lia.
Qed.

Lemma ordered_by_later :
  forall f t r, ordered_by f t r -> ordered_by f (S t) r.
Proof.
  intros f t r (Hs & Hin & Hlt). split; [exact Hs|]. split; [exact Hin|].
  intros ch u Hu. specialize (Hlt _ _ Hu). lia.
Qed.

Lemma ordered_by_Notify :
  forall E ch st f t, wf_state st -> ordered_by f t (registry st) ->
    ordered_by
      (fun c => if Nat.eqb ch c
                then match f c with Some u => Some u | None => Some t end
                else f c)
      (S t) (registry (Notify E ch st)).
Proof.
  intros E ch st f t Hwf (Hs & Hin & Hlt).
  destruct (Notify_registry E ch st Hwf) as [_ [[Hch ->]|[Hch ->]]].
  - (* already there: nothing changes *)
    assert (Hf : exists u, f ch = Some u).
    { apply Hin in Hch. destruct (f ch) as [u|]; [eauto|congruence]. }
    destruct Hf as [u Hu].
    assert (Hsame : forall c,
      (if Nat.eqb ch c then match f c with Some v => Some v | None => Some t end else f c) = f c).
    { intros c. destruct (Nat.eqb_spec ch c) as [<-|]; [now rewrite Hu|reflexivity]. }
    split; [|split].
    + eapply sorted_ext; [|exact Hs].
      intros a b _ _ (ta & tb & Ha & Hb & Hlt'). exists ta, tb. now rewrite !Hsame.
    + intros c. rewrite Hsame. apply Hin.
    + intros c v. rewrite Hsame. intros Hv. specialize (Hlt _ _ Hv). lia.
  - (* appended, with the time [t] *)
    assert (Hnone : f ch = None).
    { destruct (f ch) eqn:Hf; [|reflexivity]. exfalso. apply Hch, Hin. congruence. }
    assert (Hold : forall c, In c (registry st) ->
      (if Nat.eqb ch c then match f c with Some v => Some v | None => Some t end else f c) = f c).
    { intros c Hc. destruct (Nat.eqb_spec ch c) as [<-|]; [contradiction|reflexivity]. }
    split; [|split].
    + apply sorted_snoc.
      * eapply sorted_ext; [|exact Hs].
        intros a b Ha Hb (ta & tb & Hfa & Hfb & Hlt'). exists ta, tb.
        rewrite !Hold by assumption. auto.
      * rewrite Forall_forall. intros a Ha.
        assert (Hfa : exists ta, f a = Some ta).
        { apply Hin in Ha. destruct (f a) as [u|]; [eauto|congruence]. }
        destruct Hfa as [ta Hfa]. exists ta, t.
        rewrite Hold by exact Ha. rewrite Nat.eqb_refl, Hnone.
        split; [exact Hfa|]. split; [reflexivity|]. exact (Hlt _ _ Hfa).
    + intros c. rewrite in_app_iff. simpl.
      destruct (Nat.eqb_spec ch c) as [<-|Hne].
      * rewrite Hnone. split; [congruence|auto].
      * rewrite Hin. split; [intros [H|[H|[]]]; [exact H|contradiction]|auto].
    + intros c v. destruct (Nat.eqb_spec ch c) as [<-|Hne].
      * rewrite Hnone. intros Hv. inversion Hv. lia.
      * intros Hv. specialize (Hlt _ _ Hv). lia.
Qed.

Lemma ordered_by_StopNotify :
  forall E ch st f t, wf_state st -> ordered_by f t (registry st) ->
    ordered_by (fun c => if Nat.eqb ch c then None else f c)
      (S t) (registry (StopNotify E ch st)).
Proof.
  intros E ch st f t Hwf (Hs & Hin & Hlt).
  pose proof (sorted_irrefl_NoDup _ _ (earlier_irrefl f) Hs) as Hnd.
  destruct (StopNotify_registry E ch st Hwf)
    as [_ [[Hch ->]|(l1 & l2 & Heq & Hn1 & ->)]].
  - assert (Hnone : f ch = None).
    { destruct (f ch) eqn:Hf; [|reflexivity]. exfalso. apply Hch, Hin. congruence. }
    assert (Hsame : forall c, (if Nat.eqb ch c then None else f c) = f c).
    { intros c. destruct (Nat.eqb_spec ch c) as [<-|]; [now rewrite Hnone|reflexivity]. }
    split; [|split].
    + eapply sorted_ext; [|exact Hs].
      intros a b _ _ (ta & tb & Ha & Hb & Hlt'). exists ta, tb. now rewrite !Hsame.
    + intros c. rewrite Hsame. apply Hin.
    + intros c v. rewrite Hsame. intros Hv. specialize (Hlt _ _ Hv). lia.
  - rewrite Heq in Hs, Hin, Hnd.
    assert (Hn2 : ~ In ch l2).
    { apply NoDup_remove_2 in Hnd. intro H. apply Hnd. apply in_or_app. now right. }
    assert (Hold : forall c, In c (l1 ++ l2) ->
      (if Nat.eqb ch c then None else f c) = f c).
    { intros c Hc. destruct (Nat.eqb_spec ch c) as [<-|]; [|reflexivity].
      apply in_app_or in Hc. tauto. }
    split; [|split].
    + eapply sorted_ext; [|eapply sorted_remove; exact Hs].
      intros a b Ha Hb (ta & tb & Hfa & Hfb & Hlt'). exists ta, tb.
      rewrite !Hold by assumption. auto.
    + intros c. destruct (Nat.eqb_spec ch c) as [<-|Hne].
      * split; [|congruence]. intro Hc. apply in_app_or in Hc. tauto.
      * rewrite <- Hin, !in_app_iff. simpl. split; [tauto|].
        intros [H|[H|H]]; [auto|contradiction|auto].
    + intros c v. destruct (Nat.eqb ch c); [discriminate|].
      intros Hv. specialize (Hlt _ _ Hv). lia.
Qed.

Lemma wf_state_step :
  forall E l st st', wf_state st -> step E l st = Some (Returned st') -> wf_state st'.
Proof.
  intros E l st st' Hwf Hstep.
  destruct (registry_call l) eqn:Hl.
  - destruct l; try discriminate; simpl in Hstep; ready_step Hstep.
    + now destruct (Notify_registry E ch st Hwf).
    + now destruct (StopNotify_registry E ch st Hwf).
  - destruct (step_keeps_registry _ _ _ _ Hl Hstep) as [Hm Hc].
    unfold wf_state. now rewrite Hm, Hc.
Qed.

Lemma run_ordered :
  forall E ls st st' f t,
    wf_state st -> ordered_by f t (registry st) ->
    run E ls st = Some (Returned st') ->
    wf_state st' /\
    ordered_by (fun c => registered_at ls c t (f c)) (t + length ls) (registry st').
Proof.
  intros E ls. induction ls as [|l ls IH]; intros st st' f t Hwf Hord Hrun.
  - simpl in Hrun. inv_some Hrun. simpl. rewrite Nat.add_0_r. auto.
  - simpl in Hrun.
    destruct (step E l st) as [[st1|msg]|] eqn:Hstep; try discriminate.
    pose proof (wf_state_step _ _ _ _ Hwf Hstep) as Hwf1.
    simpl length. rewrite <- plus_n_Sm.
    destruct (registry_call l) eqn:Hl.
    + destruct l; try discriminate; simpl in Hstep; ready_step Hstep; simpl.
      * eapply (IH _ _ _ (S t) Hwf1); [|exact Hrun].
        now apply ordered_by_Notify.
      * eapply (IH _ _ _ (S t) Hwf1); [|exact Hrun].
        now apply ordered_by_StopNotify.
    + destruct (step_keeps_registry _ _ _ _ Hl Hstep) as [Hm Hc].
      assert (Hreg : registry st1 = registry st) by (unfold registry; now rewrite Hm, Hc).
      assert (Hsame : forall c, registered_at (l :: ls) c t (f c)
                                = registered_at ls c (S t) (f c))
        by (intros c; destruct l; try discriminate; reflexivity).
      destruct (IH st1 st' f (S t) Hwf1) as [Hwf' Hord'];
        [rewrite Hreg; now apply ordered_by_later|exact Hrun|].
      split; [exact Hwf'|].
      destruct Hord' as (Hs & Hin & Hlt). split; [|split].
      * eapply sorted_ext; [|exact Hs].
        intros a b _ _ (ta & tb & Ha & Hb & Hlt'). exists ta, tb. now rewrite !Hsame.
      * intros c. rewrite Hsame. apply Hin.
      * intros c u. rewrite Hsame. apply Hlt.
Qed.

Lemma registered_at_last_call :
  forall ls ch t b,
    registered_at ls ch t b <> None <->
    last_call ls ch (match b with Some _ => true | None => false end) = true.
Proof.
  induction ls as [|l ls IH]; intros ch t b; simpl.
  - destruct b; split; congruence.
  - destruct l; try apply IH.
    + rewrite IH. destruct (Nat.eqb ch0 ch); [destruct b|]; reflexivity.
    + rewrite IH. destruct (Nat.eqb ch0 ch); reflexivity.
Qed.

Lemma ordered_by_init :
  forall E p st, FindTouchSensor E p = Returned st ->
    wf_state st /\ ordered_by (fun _ => None) 0 (registry st).
Proof.
  intros E p st H. split; [exact (proj1 (mem_inv_init _ _ _ H))|].
  unfold FindTouchSensor in H.
  destruct (findSensor E 0 p TypeTouch); simpl in H; [|discriminate].
  inv_some H. split; [constructor|]. split; [|discriminate].
  intros ch. cbn. split; [intros []|congruence].
Qed.

Lemma program_ordered :
  forall E p ls st, program E p ls = Some (Returned st) ->
    wf_state st /\
    ordered_by (fun c => registered_at ls c 0 None) (length ls) (registry st).
Proof.
  intros E p ls st H. unfold program in H.
  destruct (FindTouchSensor E p) as [st0|] eqn:H0; [|discriminate].
  destruct (ordered_by_init _ _ _ H0) as [Hwf Hord].
  exact (run_ordered _ _ _ _ _ _ Hwf Hord H).
Qed.

Lemma program_reachable :
  forall E p ls st, program E p ls = Some (Returned st) -> reachable E p st.
Proof.
  intros E p ls st H. unfold program in H.
  destruct (FindTouchSensor E p) as [st0|] eqn:H0; [|discriminate].
  assert (Hr : reachable E p st0) by now apply reach_init.
  clear H0. revert st0 Hr H.
  induction ls as [|l ls IH]; intros st0 Hr H; simpl in H.
  - now inv_some H.
  - destruct (step E l st0) as [[st1|]|] eqn:Hs; try discriminate.
    eapply IH; [|exact H]. eapply reach_step; eassumption.
Qed.

(** ** Runs and invariants *)

Lemma run_invariant :
  forall E (P : state -> Prop),
    (forall l st st', P st -> step E l st = Some (Returned st') -> P st') ->
    forall ls st st', P st -> run E ls st = Some (Returned st') -> P st'.
Proof.
  intros E P Hstep ls. induction ls as [|l ls IH]; intros st st' HP Hrun; simpl in Hrun.
  - now inv_some Hrun.
  - destruct (step E l st) as [[st1|]|] eqn:Hs; try discriminate.
    eapply IH; [|exact Hrun]. eapply Hstep; eassumption.
Qed.

Lemma run_all_invariant :
  forall E ok (P : state -> Prop),
    (forall l st st', P st -> ok st l = true -> step E l st = Some (Returned st') -> P st') ->
    forall ls st st',
      P st -> run_all E ok ls st = true -> run E ls st = Some (Returned st') -> P st'.
Proof.
  intros E ok P Hstep ls.
  induction ls as [|l ls IH]; intros st st' HP Hall Hrun; simpl in Hrun, Hall.
  - now inv_some Hrun.
  - destruct (step E l st) as [[st1|]|] eqn:Hs; try discriminate.
    apply andb_prop in Hall. destruct Hall as [Hok Hall].
    eapply IH; [|exact Hall|exact Hrun]. eapply Hstep; eassumption.
Qed.

(** ** Sends and receptions *)

Lemma remove_nth_perm :
  forall (A : Type) (l : list A) k x,
    nth_error l k = Some x -> Permutation l (x :: remove_nth l k).
Proof.
  induction l as [|y l IH]; intros k x Hk; [destruct k; discriminate|].
  destruct k; simpl in *.
  - inversion Hk. reflexivity.
  - rewrite perm_swap. constructor. now apply IH.
Qed.

Lemma remove_nth_split :
  forall (A : Type) (l : list A) k x,
    nth_error l k = Some x ->
    l = firstn k l ++ x :: skipn (S k) l /\ remove_nth l k = firstn k l ++ skipn (S k) l.
Proof.
  induction l as [|y l IH]; intros k x Hk; [destruct k; discriminate|].
  destruct k; simpl in *.
  - inversion Hk. auto.
  - destruct (IH _ _ Hk) as [H1 H2]. rewrite <- H1, H2. auto.
Qed.

Lemma conservation_step :
  forall E l st st',
    conservation st -> step E l st = Some (Returned st') -> conservation st'.
Proof.
  unfold conservation. intros E l st st' Hc Hstep. destruct l; simpl in Hstep.
  - ready_step Hstep. unfold StartListening. now destruct (isListening (sensor st)).
  - ready_step Hstep. unfold StopListening_enter. now destruct (isListening (sensor st)).
  - ready_step Hstep. destruct (Notify_shape E ch st) as [->|(h & s & _ & ->)]; exact Hc.
  - ready_step Hstep. unfold StopNotify.
    destruct (negb _); [|exact Hc]. destruct (append _ _ _ _). exact Hc.
  - poll_cases Hstep k.
    + destruct (findSensor E (nfinds st) (port (sensor st)) TypeTouch); simpl in Hstep; inv_some Hstep.
      exact Hc.
    + destruct (ReadUInt8Value E (nreads st) path value0); simpl in Hstep; inv_some Hstep.
      exact Hc.
    + destruct (caller st).
      * destruct (ReadUInt8Value E (nreads st) path value0); simpl in Hstep; inv_some Hstep.
        exact Hc.
      * inv_some Hstep. exact Hc.
    + destruct (i <? len s).
      * destruct (nth_error (backing (mem st) s) i); inv_some Hstep. simpl.
        rewrite app_assoc. now apply Permutation_app_tail.
      * inv_some Hstep. exact Hc.
  - unfold sendEvent in Hstep.
    destruct (nth_error (senders st) k) as [[ch val]|] eqn:Hk; [|discriminate].
    destruct (Nat.eqb ch 0); inv_some Hstep. simpl.
    rewrite Hc, <- app_assoc. apply Permutation_app_head. simpl.
    now apply remove_nth_perm.
Qed.

Lemma conservation_init :
  forall E p st, FindTouchSensor E p = Returned st -> conservation st.
Proof.
  intros E p st H. unfold FindTouchSensor in H.
  destruct (findSensor E 0 p TypeTouch); simpl in H; [|discriminate].
  inv_some H. constructor.
Qed.

Lemma conservation_reachable :
  forall E p st, reachable E p st -> conservation st.
Proof.
  induction 1 as [st H|st l st' _ IH Hstep].
  - eapply conservation_init; eassumption.
  - eapply conservation_step; eassumption.
Qed.

Lemma on_chan_app :
  forall ch l1 l2, on_chan ch (l1 ++ l2) = on_chan ch l1 ++ on_chan ch l2.
Proof. intros. apply filter_app. Qed.

Lemma on_chan_none :
  forall ch l, forallb (fun e => negb (Nat.eqb (fst e) ch)) l = true -> on_chan ch l = [].
Proof.
  induction l as [|e l IH]; intros H; [reflexivity|].
  simpl in *. apply andb_prop in H. destruct H as [He Hl].
  destruct (Nat.eqb (fst e) ch); [discriminate|auto].
Qed.

Lemma in_issue_order_step :
  forall E l st st',
    in_issue_order st -> oldest_first st l = true ->
    step E l st = Some (Returned st') -> in_issue_order st'.
Proof.
  unfold in_issue_order. intros E l st st' Hc Hok Hstep. destruct l; simpl in Hstep.
  - ready_step Hstep. unfold StartListening. now destruct (isListening (sensor st)).
  - ready_step Hstep. unfold StopListening_enter. now destruct (isListening (sensor st)).
  - ready_step Hstep. destruct (Notify_shape E ch st) as [->|(h & s & _ & ->)]; exact Hc.
  - ready_step Hstep. unfold StopNotify.
    destruct (negb _); [|exact Hc]. destruct (append _ _ _ _). exact Hc.
  - poll_cases Hstep k.
    + destruct (findSensor E (nfinds st) (port (sensor st)) TypeTouch); simpl in Hstep; inv_some Hstep.
      exact Hc.
    + destruct (ReadUInt8Value E (nreads st) path value0); simpl in Hstep; inv_some Hstep.
      exact Hc.
    + destruct (caller st).
      * destruct (ReadUInt8Value E (nreads st) path value0); simpl in Hstep; inv_some Hstep.
        exact Hc.
      * inv_some Hstep. exact Hc.
    + destruct (i <? len s).
      * destruct (nth_error (backing (mem st) s) i); inv_some Hstep. simpl.
        intros ch. rewrite !on_chan_app, Hc, app_assoc. reflexivity.
      * inv_some Hstep. exact Hc.
  - unfold sendEvent in Hstep. simpl in Hok.
    destruct (nth_error (senders st) k) as [[c val]|] eqn:Hk; [|discriminate].
    destruct (Nat.eqb c 0); inv_some Hstep. simpl.
    destruct (remove_nth_split _ _ _ _ Hk) as [Hsplit ->].
    intros ch. rewrite Hc. rewrite Hsplit at 1.
    rewrite !on_chan_app, <- app_assoc. f_equal. simpl.
    destruct (Nat.eqb_spec c ch) as [->|Hne]; [|reflexivity].
    rewrite (on_chan_none _ _ Hok). reflexivity.
Qed.

(** ** What one poller sends while the registry stays as it is *)

Lemma last_cons_default :
  forall (vs : list uint8) v d, last (v :: vs) d = last vs v.
Proof.
  induction vs as [|w vs IH]; intros v d; [reflexivity|].
  change (last (v :: w :: vs) d) with (last (w :: vs) d).
  now rewrite (IH w d), (IH w v).
Qed.

Lemma changes_app :
  forall vs ws cur, changes cur (vs ++ ws) = changes cur vs ++ changes (last vs cur) ws.
Proof.
  induction vs as [|v vs IH]; intros ws cur; [reflexivity|].
  rewrite last_cons_default. simpl app. simpl changes.
  destruct (Z.eqb_spec v cur) as [->|Hne].
  - apply IH.
  - rewrite IH. reflexivity.
Qed.

Lemma readings_S :
  forall E path n, readings E path (S n) = readings E path n ++ [obs E path (S n)].
Proof.
  intros E path n. unfold readings. rewrite seq_S, map_app. reflexivity.
Qed.

Lemma last_readings :
  forall E path n, last (readings E path n) (obs E path 0) = obs E path n.
Proof.
  intros E path n. destruct n; [reflexivity|].
  rewrite readings_S. apply last_last.
Qed.

Lemma sends_same :
  forall E path r n,
    obs E path (S n) = obs E path n ->
    sends r (obs E path 0) (readings E path (S n)) = sends r (obs E path 0) (readings E path n).
Proof.
  intros E path r n Heq. unfold sends.
  rewrite readings_S, changes_app, last_readings. simpl.
  rewrite Heq, Z.eqb_refl, app_nil_r. reflexivity.
Qed.

Lemma sends_change :
  forall E path r n,
    obs E path (S n) <> obs E path n ->
    sends r (obs E path 0) (readings E path (S n))
    = sends r (obs E path 0) (readings E path n) ++ fan_out r (obs E path (S n)).
Proof.
  intros E path r n Hne. unfold sends.
  rewrite readings_S, changes_app, last_readings. simpl.
  apply Z.eqb_neq in Hne. rewrite Hne, flat_map_app. simpl.
  rewrite app_nil_r. reflexivity.
Qed.

Lemma firstn_S_nth_error :
  forall (A : Type) (l : list A) i x,
    nth_error l i = Some x -> firstn (S i) l = firstn i l ++ [x].
Proof.
  induction l as [|y l IH]; intros i x Hi; [destruct i; discriminate|].
  destruct i; simpl in *.
  - now inversion Hi.
  - f_equal. now apply IH.
Qed.

Lemma session_step :
  forall E p r l st st',
    session_inv E p r st -> background l = true ->
    step E l st = Some (Returned st') -> session_inv E p r st'.
Proof.
  intros E p r l st st' (Hreg & Hwf & Hcal & Hport & Hps) Hl Hstep.
  destruct l; try discriminate; simpl in Hstep.
  - (* the poller *)
    destruct (pollers st) as [|q [|q' ps]] eqn:Hpol; try contradiction.
    2:{ destruct q; contradiction. }
    unfold poll_step in Hstep. rewrite Hpol in Hstep.
    destruct k as [|k]; [|destruct k; discriminate]. simpl in Hstep.
    destruct q as [|path|path cur|path cur value s i|]; try contradiction.
    + destruct Hps as (Hnf & Hn & Hi). rewrite Hport, Hnf in Hstep.
      destruct (findSensor E 1 p TypeTouch) as [snr|] eqn:Hf; simpl in Hstep;
        [|discriminate]; injection Hstep as <-.
      unfold session_inv, set_poller. simpl. rewrite Hpol. simpl.
      do 4 (split; [assumption || reflexivity|]).
      unfold resolved_path. rewrite Hf. auto.
    + destruct Hps as (Hp & Hn & Hi).
      destruct (ReadUInt8Value E (nreads st) path value0) as [v|] eqn:Hrd;
        simpl in Hstep; [|discriminate]; injection Hstep as <-.
      unfold session_inv, set_poller. simpl. rewrite Hpol. simpl.
      do 4 (split; [assumption || reflexivity|]).
      split; [exact Hp|]. exists 0. rewrite Hn in Hrd. unfold obs. rewrite Hrd, Hi, Hn. auto.
    + destruct Hps as (Hp & n & Hn & Hcur & Hi). rewrite Hcal in Hstep.
      destruct (ReadUInt8Value E (nreads st) path value0) as [v|] eqn:Hrd;
        simpl in Hstep; [|discriminate]; injection Hstep as <-.
      rewrite Hn in Hrd.
      assert (Hv : obs E path (S n) = v) by (unfold obs; now rewrite Hrd).
      unfold session_inv, set_poller. simpl. rewrite Hpol. simpl.
      do 4 (split; [assumption || reflexivity|]).
      subst cur.
      destruct (Z.eqb_spec v (obs E path n)) as [Heq|Hne]; simpl.
      * split; [exact Hp|]. exists (S n). rewrite Hn.
        split; [reflexivity|]. split; [congruence|].
        rewrite sends_same by congruence. exact Hi.
      * split; [exact Hp|]. split; [reflexivity|]. split; [lia|].
        exists n. rewrite Hn, Hi, app_nil_r. auto.
    + destruct Hps as (Hp & Hs & Hle & n & Hn & Hcur & Hval & Hne & Hi).
      destruct (Nat.ltb_spec i (len s)) as [Hlt|Hge].
      * destruct (nth_error (backing (mem st) s) i) as [ch|] eqn:Hnth;
          [|discriminate]; injection Hstep as <-.
        unfold session_inv, set_poller. simpl. rewrite Hpol. simpl.
        do 4 (split; [assumption || reflexivity|]).
        split; [exact Hp|]. split; [exact Hs|]. split; [lia|].
        exists n. do 4 (split; [assumption|]).
        rewrite Hi, <- app_assoc. f_equal.
        assert (Hfs : firstn (S i) (registry st) = firstn i (registry st) ++ [ch]).
        { unfold registry, elems. rewrite <- Hs, !firstn_firstn.
          replace (Nat.min (S i) (len s)) with (S i) by lia.
          replace (Nat.min i (len s)) with i by lia.
          now apply firstn_S_nth_error. }
        rewrite Hreg in Hfs.
        change (fan_out (firstn i r) value ++ [(ch, value)]
                = fan_out (firstn (S i) r) value).
        rewrite Hfs. unfold fan_out. rewrite map_app. reflexivity.
      * injection Hstep as <-.
        unfold session_inv, set_poller. simpl. rewrite Hpol. simpl.
        do 4 (split; [assumption || reflexivity|]).
        split; [exact Hp|]. exists (S n).
        split; [assumption|]. split; [assumption|].
        rewrite sends_change by congruence. rewrite Hi, <- Hval. f_equal. f_equal.
        apply firstn_all2. rewrite <- Hreg, length_registry by exact Hwf.
        rewrite <- Hs. lia.
  - (* a subscriber *)
    unfold sendEvent in Hstep.
    destruct (nth_error (senders st) k) as [[ch val]|]; [|discriminate].
    destruct (Nat.eqb ch 0); [discriminate|]. injection Hstep as <-.
    unfold session_inv. simpl. auto.
Qed.

(** ** From the construction of the sensor to a listening session *)

Lemma run_app :
  forall E ls1 ls2 st,
    run E (ls1 ++ ls2) st =
    match run E ls1 st with
    | Some (Returned st1) => run E ls2 st1
    | other => other
    end.
Proof.
  intros E ls1. induction ls1 as [|l ls1 IH]; intros ls2 st; simpl; [reflexivity|].
  destruct (step E l st) as [[st1|]|]; auto.
Qed.

Lemma run_all_static :
  forall E (ok : label -> bool) ls st,
    forallb ok ls = true -> run_all E (fun _ l => ok l) ls st = true.
Proof.
  intros E ok ls. induction ls as [|l ls IH]; intros st H; simpl in *; [reflexivity|].
  apply andb_prop in H. destruct H as [H1 H2]. rewrite H1. simpl.
  destruct (step E l st) as [[st1|]|]; auto.
Qed.

Lemma idle_fresh_init :
  forall E p st, FindTouchSensor E p = Returned st -> idle_fresh p st.
Proof.
  intros E p st H. pose proof (mem_inv_init _ _ _ H) as [Hwf _].
  unfold FindTouchSensor in H.
  destruct (findSensor E 0 p TypeTouch); simpl in H; [|discriminate].
  injection H as <-. unfold idle_fresh. simpl. auto 10.
Qed.

Lemma idle_fresh_step :
  forall E p l st st',
    idle_fresh p st -> registry_call l = true ->
    step E l st = Some (Returned st') -> idle_fresh p st'.
Proof.
  intros E p l st st' (Hwf & Hc & Hp & Hl & Hps & Hnf & Hn & Hi) Hreg Hstep.
  pose proof (wf_state_step _ _ _ _ Hwf Hstep) as Hwf'.
  destruct l; try discriminate; simpl in Hstep; ready_step Hstep.
  - destruct (Notify_shape E ch st) as [Heq|(h & s & _ & Heq)]; rewrite Heq in *;
      unfold idle_fresh; simpl; auto 10.
  - destruct (StopNotify_shape E ch st Hwf) as [Heq|(i & h & s & _ & _ & Heq)];
      rewrite Heq in *; unfold idle_fresh; simpl; auto 10.
Qed.

Lemma session_start :
  forall E p st, idle_fresh p st -> session_inv E p (registry st) (StartListening st).
Proof.
  intros E p st (Hwf & Hc & Hp & Hl & Hps & Hnf & Hn & Hi).
  unfold StartListening. rewrite Hl.
  unfold session_inv. simpl. rewrite Hps. simpl. auto 10.
Qed.

Lemma session_run :
  forall E p pre ls st,
    forallb registry_call pre = true -> forallb background ls = true ->
    program E p (pre ++ LStart :: ls) = Some (Returned st) ->
    exists st0,
      program E p pre = Some (Returned st0) /\ idle_fresh p st0 /\
      session_inv E p (registry st0) st.
Proof.
  intros E p pre ls st Hpre Hls H. unfold program in *.
  destruct (FindTouchSensor E p) as [sti|] eqn:Hinit; [|discriminate].
  rewrite run_app in H.
  destruct (run E pre sti) as [[st0|]|] eqn:Hrun; try discriminate.
  exists st0. split; [reflexivity|].
  assert (Hidle : idle_fresh p st0).
  { eapply (run_all_invariant E (fun _ l => registry_call l) (idle_fresh p)).
    - intros l s s' Hs Hok Hst. eapply idle_fresh_step; eassumption.
    - eapply idle_fresh_init; eassumption.
    - apply run_all_static. exact Hpre.
    - exact Hrun. }
  split; [exact Hidle|].
  simpl in H. unfold when_ready in H.
  destruct Hidle as (Hwf & Hc & Hrest). rewrite Hc in H.
  eapply (run_all_invariant E (fun _ l => background l)
            (session_inv E p (registry st0))).
  - intros l s s' Hs Hok Hst. eapply session_step; eassumption.
  - apply session_start. unfold idle_fresh. auto.
  - apply run_all_static. exact Hls.
  - exact H.
Qed.

Lemma Permutation_filter_compat :
  forall (A : Type) (f : A -> bool) (l l' : list A),
    Permutation l l' -> Permutation (filter f l) (filter f l').
Proof.
  intros A f l l' H. induction H as [|x l l' H IH|x y l|l l' l'' H1 IH1 H2 IH2]; simpl.
  - constructor.
  - destruct (f x); [now constructor|assumption].
  - destruct (f x), (f y); try reflexivity. apply perm_swap.
  - now transitivity (filter f l').
Qed.

Lemma on_chan_all :
  forall ch l, Forall (fun e => fst e = ch) l -> on_chan ch l = l.
Proof.
  induction l as [|e l IH]; intros H; [reflexivity|].
  inversion H as [|? ? He Hl]. destruct e as [c v]. simpl in He |- *.
  rewrite He, Nat.eqb_refl. f_equal. subst. auto.
Qed.

(** ** The five ticks *)

Lemma sends_stable :
  forall E path r n0,
    (forall k, n0 <= k -> obs E path k = obs E path n0) ->
    forall n, n0 <= n ->
      sends r (obs E path 0) (readings E path n) = sends r (obs E path 0) (readings E path n0).
Proof.
  intros E path r n0 Hconst n Hn. induction Hn as [|n Hn IH]; [reflexivity|].
  rewrite sends_same; [exact IH|].
  rewrite (Hconst (S n)), (Hconst n) by lia. reflexivity.
Qed.

Lemma scripted_obs :
  forall vs last path n, obs (scripted vs last) path n = nth n vs last.
Proof. reflexivity. Qed.

Lemma five_ticks_sends :
  forall b c path n, b <= 1 ->
    sends [c] (obs (scripted (repeat 0%Z b ++ five_ticks) 2%Z) path 0)
          (readings (scripted (repeat 0%Z b ++ five_ticks) 2%Z) path n)
    = firstn (seen b n) [(c, 1%Z); (c, 2%Z)].
Proof.
  intros b c path n Hb.
  destruct (le_lt_dec (4 + b) n) as [Hge|Hlt].
  - rewrite (sends_stable _ path [c] (4 + b)); [| |exact Hge].
    + unfold seen.
      destruct (Nat.ltb_spec n (2 + b)); [lia|].
      destruct (Nat.ltb_spec n (4 + b)); [lia|].
      destruct b as [|[|b]]; [reflexivity|reflexivity|lia].
    + intros k Hk. rewrite !scripted_obs.
      destruct b as [|[|b]]; [| |lia]; simpl in Hk |- *;
        do 6 (destruct k as [|k]; [reflexivity || lia|]); destruct k; reflexivity.
  - destruct b as [|[|b]]; [| |lia];
      do 5 (destruct n as [|n]; [reflexivity|]); lia.
Qed.

Lemma one_subscriber :
  forall b p c st0,
    program (five_ticks_env b) p [LNotify c] = Some (Returned st0) ->
    registry st0 = [c].
Proof.
  intros b p c st0 H. cbn in H. injection H as <-. reflexivity.
Qed.

Lemma firstn_prefix :
  forall (A : Type) k (l : list A), exists rest, firstn k l ++ rest = l.
Proof. intros A k l. exists (skipn k l). apply firstn_skipn. Qed.

Lemma five_ticks_issued :
  forall b p c ls st,
    b <= 1 -> forallb background ls = true ->
    program (five_ticks_env b) p (LNotify c :: LStart :: ls) = Some (Returned st) ->
    (exists rest, issued st ++ rest = [(c, 1%Z); (c, 2%Z)]) /\
    (forall path cur, pollers st = [PSelect path cur] -> 5 + b <= nreads st ->
                      issued st = [(c, 1%Z); (c, 2%Z)]).
Proof.
  intros b p c ls st Hb Hls H.
  destruct (session_run (five_ticks_env b) p [LNotify c] ls st eq_refl Hls H)
    as (st0 & H0 & _ & Hinv).
  rewrite (one_subscriber _ _ _ _ H0) in Hinv. clear H0 st0.
  destruct Hinv as (Hreg & Hwf & _ & _ & Hps).
  assert (Hlen : len (channels (sensor st)) = 1)
    by (rewrite <- length_registry, Hreg by exact Hwf; reflexivity).
  destruct (pollers st) as [|q [|q' ps]] eqn:Hpol; try contradiction.
  2:{ destruct q; contradiction. }
  destruct q as [|path|path cur|path cur value s i|]; try contradiction.
  - destruct Hps as (_ & _ & ->). split; [eexists; reflexivity|discriminate].
  - destruct Hps as (_ & _ & ->). split; [eexists; reflexivity|discriminate].
  - destruct Hps as (_ & n & Hn & _ & ->).
    unfold five_ticks_env. rewrite five_ticks_sends by exact Hb.
    split; [apply firstn_prefix|].
    intros _ _ _ Hge. unfold seen.
    destruct (Nat.ltb_spec n (2 + b)); [lia|].
    destruct (Nat.ltb_spec n (4 + b)); [lia|]. reflexivity.
  - destruct Hps as (_ & -> & Hle & n & Hn & Hcur & Hval & Hne & ->).
    split; [|discriminate].
    unfold five_ticks_env in *. rewrite five_ticks_sends by exact Hb.
    rewrite Hlen in Hle. subst cur value. rewrite !scripted_obs in Hne.
    destruct b as [|[|b]]; [| |lia];
      do 6 (destruct n as [|n];
            [first [ solve [exfalso; apply Hne; reflexivity]
                   | destruct i as [|[|i]];
                     [cbn; eexists; reflexivity|cbn; eexists; reflexivity|lia] ]|]);
      exfalso; apply Hne; destruct n; reflexivity.
Qed.

Lemma program_conservation :
  forall E p ls st, program E p ls = Some (Returned st) -> conservation st.
Proof.
  intros E p ls st H. eapply conservation_reachable, program_reachable, H.
Qed.

Lemma in_issue_order_init :
  forall E p st, FindTouchSensor E p = Returned st -> in_issue_order st.
Proof.
  intros E p st H. unfold FindTouchSensor in H.
  destruct (findSensor E 0 p TypeTouch); simpl in H; [|discriminate].
  injection H as <-. intros ch. reflexivity.
Qed.

Lemma program_in_issue_order :
  forall E p ls st,
    program_all E oldest_first p ls = true ->
    program E p ls = Some (Returned st) -> in_issue_order st.
Proof.
  intros E p ls st Hall H. unfold program, program_all in *.
  destruct (FindTouchSensor E p) as [st0|] eqn:H0; [|discriminate].
  apply (run_all_invariant E oldest_first in_issue_order
           (fun l s s' Hs Hok Hst => in_issue_order_step E l s s' Hs Hok Hst)
           ls st0 st (in_issue_order_init _ _ _ H0) Hall H).
Qed.

(** ** The only ways the process ends *)

(** A step ends the process only through the sensor lookup or the
    attribute read: the [range] loop never reads outside its array. *)
Lemma step_fatal :
  forall E l st msg,
    mem_inv st -> step E l st = Some (Fatal msg) ->
    findSensor E (nfinds st) (port (sensor st)) TypeTouch = Fatal msg \/
    exists path, ReadUInt8Value E (nreads st) path value0 = Fatal msg.
Proof.
  intros E l st msg [Hwf Hps] Hstep. destruct l; simpl in Hstep;
    try (unfold when_ready in Hstep; destruct (caller st); discriminate).
  - poll_cases Hstep k.
    + destruct (findSensor E (nfinds st) (port (sensor st)) TypeTouch); simpl in Hstep;
        [discriminate|]. left. congruence.
    + destruct (ReadUInt8Value E (nreads st) path value0) eqn:Hrd; simpl in Hstep;
        [discriminate|]. right. exists path. congruence.
    + destruct (caller st); [|discriminate].
      destruct (ReadUInt8Value E (nreads st) path value0) eqn:Hrd; simpl in Hstep;
        [discriminate|]. right. exists path. congruence.
    + assert (Hs : wf_slice (mem st) s).
      { apply nth_error_In in Hk. rewrite Forall_forall in Hps. exact (Hps _ Hk). }
      destruct (Nat.ltb_spec i (len s)) as [Hlt|]; [|discriminate].
      destruct (nth_error (backing (mem st) s) i) eqn:Hnth; [discriminate|].
      apply nth_error_None in Hnth. destruct Hs as [_ Hs]. lia.
  - unfold sendEvent in Hstep.
    destruct (nth_error (senders st) k) as [[ch val]|]; [|discriminate].
    destruct (Nat.eqb ch 0); discriminate.
Qed.

(** ** StopListening returns *)

Lemma nth_error_Some_lt :
  forall (A : Type) (l : list A) k x, nth_error l k = Some x -> k < length l.
Proof.
  intros A l k x H. apply nth_error_Some. congruence.
Qed.

Lemma stop_completes :
  forall E m st k q,
    mem_inv st -> caller st = CStopping ->
    nth_error (pollers st) k = Some q -> live q = true -> steps_to_stop q <= m ->
    exists n, n <= m /\ stopped k (run E (repeat (LPoll k) n) st).
Proof.
  intros E m. induction m as [|m IH]; intros st k q Hmem Hcal Hk Hlive Hm.
  - destruct q; simpl in *; try lia; discriminate.
  - pose proof (nth_error_Some_lt _ _ _ _ Hk) as Hlt.
    assert (Hnext : forall st1 q1,
      step E (LPoll k) st = Some (Returned st1) ->
      caller st1 = CStopping -> pollers st1 = update (pollers st) k q1 ->
      live q1 = true -> steps_to_stop q1 <= m ->
      exists n, n <= S m /\ stopped k (run E (repeat (LPoll k) n) st)).
    { intros st1 q1 Hstep Hc1 Hp1 Hl1 Hm1.
      assert (Hmem1 : mem_inv st1) by (eapply mem_inv_step; eassumption).
      assert (Hk1 : nth_error (pollers st1) k = Some q1)
        by (rewrite Hp1; now apply nth_error_update_same).
      destruct (IH st1 k q1 Hmem1 Hc1 Hk1 Hl1 Hm1) as (n & Hn & Hstop).
      exists (S n). split; [lia|]. simpl. simpl in Hstep. rewrite Hstep. exact Hstop. }
    assert (Hdie : forall msg,
      step E (LPoll k) st = Some (Fatal msg) ->
      exists n, n <= S m /\ stopped k (run E (repeat (LPoll k) n) st)).
    { intros msg Hstep. exists 1. split; [lia|]. simpl. simpl in Hstep.
      rewrite Hstep. exact I. }
    destruct q as [|path|path cur|path cur value s i|]; simpl in Hm; try discriminate.
    + destruct (findSensor E (nfinds st) (port (sensor st)) TypeTouch) as [snr|msg] eqn:Hf.
      * apply (Hnext (count_find (set_poller st k (PBase (sensor_path E snr))))
                     (PBase (sensor_path E snr)));
          auto; simpl; try lia.
        unfold poll_step. rewrite Hk, Hf. reflexivity.
      * apply (Hdie msg). simpl. unfold poll_step. rewrite Hk, Hf. reflexivity.
    + destruct (ReadUInt8Value E (nreads st) path value0) as [v|msg] eqn:Hrd.
      * apply (Hnext (count_read (set_poller st k (PSelect path v))) (PSelect path v));
          auto; simpl; try lia.
        unfold poll_step. rewrite Hk, Hrd. reflexivity.
      * apply (Hdie msg). simpl. unfold poll_step. rewrite Hk, Hrd. reflexivity.
    + exists 1. split; [lia|]. simpl. unfold poll_step. rewrite Hk, Hcal. simpl.
      split; [reflexivity|]. split; [reflexivity|]. now apply nth_error_update_same.
    + assert (Hs : wf_slice (mem st) s).
      { destruct Hmem as [_ Hps]. apply nth_error_In in Hk.
        rewrite Forall_forall in Hps. exact (Hps _ Hk). }
      destruct (Nat.ltb_spec i (len s)) as [Hi|Hi].
      * destruct (nth_error (backing (mem st) s) i) as [ch|] eqn:Hnth.
        -- apply (Hnext (go_sendEvent (set_poller st k (PRange path cur value s (S i))) ch value)
                        (PRange path cur value s (S i))); auto; simpl; try lia.
           unfold poll_step. rewrite Hk.
           destruct (Nat.ltb_spec i (len s)); [|lia]. rewrite Hnth. reflexivity.
        -- apply nth_error_None in Hnth. destruct Hs as [_ Hs]. lia.
      * apply (Hnext (set_poller st k (PSelect path value)) (PSelect path value));
          auto; simpl; try lia.
        unfold poll_step. rewrite Hk.
        destruct (Nat.ltb_spec i (len s)); [lia|]. reflexivity.
Qed.

(** ** One delivery, while the caller subscribes *)

Lemma step_nreads_mono :
  forall E l st st', step E l st = Some (Returned st') -> nreads st <= nreads st'.
Proof.
  intros E l st st' Hstep. destruct l; simpl in Hstep.
  - ready_step Hstep. unfold StartListening. destruct (isListening (sensor st)); simpl; lia.
  - ready_step Hstep. unfold StopListening_enter.
    destruct (isListening (sensor st)); simpl; lia.
  - ready_step Hstep. destruct (Notify_shape E ch st) as [->|(h & s & _ & ->)]; simpl; lia.
  - ready_step Hstep. unfold StopNotify.
    destruct (negb _); [|lia]. destruct (append _ _ _ _). simpl. lia.
  - poll_cases Hstep k.
    + destruct (findSensor E (nfinds st) (port (sensor st)) TypeTouch); simpl in Hstep; inv_some Hstep.
      simpl. lia.
    + destruct (ReadUInt8Value E (nreads st) path value0); simpl in Hstep; inv_some Hstep.
      simpl. lia.
    + destruct (caller st).
      * destruct (ReadUInt8Value E (nreads st) path value0); simpl in Hstep; inv_some Hstep.
        simpl. lia.
      * inv_some Hstep. simpl. lia.
    + destruct (i <? len s).
      * destruct (nth_error (backing (mem st) s) i); inv_some Hstep. simpl. lia.
      * inv_some Hstep. simpl. lia.
  - unfold sendEvent in Hstep.
    destruct (nth_error (senders st) k) as [[ch val]|]; [|discriminate].
    destruct (Nat.eqb ch 0); inv_some Hstep. simpl. lia.
Qed.

Lemma run_nreads_mono :
  forall E ls st st', run E ls st = Some (Returned st') -> nreads st <= nreads st'.
Proof.
  intros E ls. induction ls as [|l ls IH]; intros st st' H; simpl in H.
  - inv_some H. lia.
  - destruct (step E l st) as [[st1|]|] eqn:Hs; try discriminate.
    apply step_nreads_mono in Hs. apply IH in H. lia.
Qed.

Lemma quiet_update :
  forall ps k (q' : poller),
    (forall j q, j <> k -> nth_error ps j = Some q -> quiet q) ->
    forall j q, j <> k -> nth_error (update ps k q') j = Some q -> quiet q.
Proof.
  intros ps k q' H j q Hjk Hj. rewrite nth_error_update_other in Hj by exact Hjk. eauto.
Qed.

Lemma quiet_update_other :
  forall ps k j (q' : poller),
    (forall j q, j <> k -> nth_error ps j = Some q -> quiet q) ->
    quiet q' ->
    forall j' q, j' <> k -> nth_error (update ps j q') j' = Some q -> quiet q.
Proof.
  intros ps k j q' H Hq' j' q Hjk Hj.
  destruct (Nat.eq_dec j' j) as [->|Hne].
  - destruct (le_lt_dec (length ps) j) as [Hge|Hlt].
    + assert (Hnone : nth_error (update ps j q') j = None)
        by (apply nth_error_None; now rewrite length_update).
      congruence.
    + rewrite nth_error_update_same in Hj by exact Hlt. now inversion Hj; subst.
  - rewrite nth_error_update_other in Hj by exact Hne. eauto.
Qed.

Lemma delivering_step :
  forall E k path cur value s0 r0 log0 n0 l st st',
    delivering k path cur value s0 r0 log0 n0 st ->
    no_StopNotify l = true ->
    step E l st = Some (Returned st') -> nreads st' = n0 ->
    delivering k path cur value s0 r0 log0 n0 st'.
Proof.
  intros E k path cur value s0 r0 log0 n0 l st st'
         (Hwf & Hs0 & Hel & Hshort & Hn & Hq & Hk) Hl Hstep Hn'.
  pose proof (wf_state_step _ _ _ _ Hwf Hstep) as Hwf'.
  assert (Hklt : k < length (pollers st)).
  { destruct Hk as [(i & _ & Hk & _)|[[Hk|Hk] _]]; eapply nth_error_Some_lt; exact Hk. }
  destruct l; try discriminate; simpl in Hstep.
  - (* StartListening *)
    ready_step Hstep. unfold StartListening in *.
    destruct (isListening (sensor st)); [unfold delivering; auto 10|].
    unfold delivering. simpl.
    do 5 (split; [assumption || reflexivity|]). split.
    + intros j q Hj Hnth.
      destruct (le_lt_dec (length (pollers st)) j) as [Hge|Hlt].
      * rewrite nth_error_app2 in Hnth by exact Hge.
        destruct (j - length (pollers st)) as [|[|d]]; simpl in Hnth; try discriminate.
        inversion Hnth. exact I.
      * rewrite nth_error_app1 in Hnth by exact Hlt. eauto.
    + rewrite nth_error_app1 by exact Hklt. exact Hk.
  - (* StopListening *)
    ready_step Hstep. unfold StopListening_enter.
    destruct (isListening (sensor st)); unfold delivering; auto 10.
  - (* Notify *)
    ready_step Hstep.
    destruct (Notify_shape E ch st) as [Heq|(h & s & Happ & Heq)]; rewrite Heq in *;
      [unfold delivering; auto 10|].
    unfold delivering. simpl. split; [exact Hwf'|].
    split; [eapply append_keeps_wf; [exact Hwf|exact Happ|exact Hs0]|].
    split; [exact (append_keeps_elems _ _ _ _ _ _ s0 Hwf Happ Hs0 Hshort)|].
    split; [|auto].
    destruct (append_frame _ _ _ _ _ _ Hwf Happ) as (_ & _ & _ & _ & Harr & Hlen).
    intros Heq0. destruct Harr as [Ha|Ha].
    + rewrite Ha in Heq0. specialize (Hshort Heq0). lia.
    + destruct Hs0 as [Hs0 _]. lia.
  - (* a poller *)
    rename k0 into j. unfold poll_step in Hstep.
    destruct (nth_error (pollers st) j) as [q|] eqn:Hj; [|discriminate].
    destruct (Nat.eq_dec j k) as [->|Hjk].
    + (* the delivering poller *)
      destruct Hk as [(i & Hi & Hk & Hlog)|[[Hk|Hk] Hlog]];
        rewrite Hk in Hj; inversion Hj; subst q; clear Hj.
      * destruct (Nat.ltb_spec i (len s0)) as [Hlt|Hge].
        -- destruct (nth_error (backing (mem st) s0) i) as [ch|] eqn:Hnth;
             [|discriminate]. injection Hstep as <-.
           unfold delivering, set_poller. simpl.
           do 5 (split; [assumption || reflexivity|]).
           split; [now apply quiet_update|].
           left. exists (S i). split; [lia|].
           split; [now apply nth_error_update_same|].
           rewrite Hlog, <- app_assoc. f_equal.
           assert (Hfs : firstn (S i) r0 = firstn i r0 ++ [ch]).
           { rewrite <- Hel. unfold elems. rewrite !firstn_firstn.
             replace (Nat.min (S i) (len s0)) with (S i) by lia.
             replace (Nat.min i (len s0)) with i by lia.
             now apply firstn_S_nth_error. }
           rewrite Hfs. unfold fan_out. rewrite map_app. reflexivity.
        -- injection Hstep as <-.
           unfold delivering, set_poller. simpl.
           do 5 (split; [assumption || reflexivity|]).
           split; [now apply quiet_update|].
           right. split; [left; now apply nth_error_update_same|].
           rewrite Hlog. do 2 f_equal. apply firstn_all2.
           rewrite <- Hel. unfold elems. rewrite length_firstn. lia.
      * destruct (caller st).
        -- destruct (ReadUInt8Value E (nreads st) path value0); simpl in Hstep;
             [|discriminate]. injection Hstep as <-. simpl in Hn'. lia.
        -- injection Hstep as <-.
           unfold delivering, StopListening_leave, set_poller. simpl.
           do 5 (split; [assumption || reflexivity|]).
           split; [now apply quiet_update|].
           right. split; [right; now apply nth_error_update_same|exact Hlog].
      * discriminate.
    + (* another poller: it has not read yet *)
      pose proof (Hq _ _ Hjk Hj) as Hquiet.
      destruct q as [|path'|? ?|? ? ? ? ?|]; try contradiction; try discriminate.
      * destruct (findSensor E (nfinds st) (port (sensor st)) TypeTouch); simpl in Hstep;
          [|discriminate]. injection Hstep as <-.
        unfold delivering, set_poller. simpl.
        do 5 (split; [assumption || reflexivity|]).
        split; [now apply quiet_update_other|].
        rewrite !nth_error_update_other by auto. exact Hk.
      * destruct (ReadUInt8Value E (nreads st) path' value0); simpl in Hstep;
          [|discriminate]. injection Hstep as <-. simpl in Hn'. lia.
  - (* a subscriber *)
    unfold sendEvent in Hstep.
    destruct (nth_error (senders st) k0) as [[ch val]|]; [|discriminate].
    destruct (Nat.eqb ch 0); [discriminate|]. injection Hstep as <-.
    unfold delivering. simpl. auto 10.
Qed.

Lemma delivering_run :
  forall E k path cur value s0 r0 log0 n0 ls st st',
    delivering k path cur value s0 r0 log0 n0 st ->
    forallb no_StopNotify ls = true ->
    run E ls st = Some (Returned st') -> nreads st' = n0 ->
    delivering k path cur value s0 r0 log0 n0 st'.
Proof.
  intros E k path cur value s0 r0 log0 n0 ls.
  induction ls as [|l ls IH]; intros st st' Hd Hls Hrun Hn; simpl in Hrun.
  - now inv_some Hrun.
  - destruct (step E l st) as [[st1|]|] eqn:Hs; try discriminate.
    simpl in Hls. apply andb_prop in Hls. destruct Hls as [Hl Hls].
    apply (IH st1 st'); auto.
    eapply delivering_step; [exact Hd|exact Hl|exact Hs|].
    pose proof (step_nreads_mono _ _ _ _ Hs) as H1.
    pose proof (run_nreads_mono _ _ _ _ Hrun) as H2.
    destruct Hd as (_ & _ & _ & _ & Hn0 & _). lia.
Qed.

Lemma live_counted :
  forall ps k q, nth_error ps k = Some q -> live q = true -> 1 <= count_live ps.
Proof.
  unfold count_live.
  induction ps as [|x ps IH]; intros k q Hk Hl; [destruct k; discriminate|].
  destruct k; simpl in *.
  - inversion Hk; subst. rewrite Hl. simpl. lia.
  - specialize (IH _ _ Hk Hl). destruct (live x); simpl; lia.
Qed.

Lemma one_live_others_done :
  forall ps k q,
    count_live ps <= 1 -> nth_error ps k = Some q -> live q = true ->
    forall j q', j <> k -> nth_error ps j = Some q' -> q' = PDone.
Proof.
  induction ps as [|x ps IH]; intros k q Hc Hk Hl j q' Hjk Hj; [destruct k; discriminate|].
  assert (Hx : count_live (x :: ps) = (if live x then 1 else 0) + count_live ps)
    by (unfold count_live; simpl; destruct (live x); reflexivity).
  rewrite Hx in Hc.
  destruct k as [|k]; simpl in Hk.
  - inversion Hk; subst x. rewrite Hl in Hc.
    destruct j as [|j]; [congruence|]. simpl in Hj.
    assert (H0 : count_live ps = 0) by lia.
    apply count_live_zero in H0. rewrite Forall_forall in H0.
    apply H0. eapply nth_error_In. exact Hj.
  - pose proof (live_counted _ _ _ Hk Hl) as H1.
    destruct j as [|j]; simpl in Hj.
    + inversion Hj; subst x. destruct q'; simpl in Hc; try lia. reflexivity.
    + assert (Hc' : count_live ps <= 1) by lia.
      apply (IH k q Hc' Hk Hl j q'); [lia|exact Hj].
Qed.

Lemma Notify_same_tasks : forall E ch st, same_tasks st (Notify E ch st).
Proof.
  intros E ch st.
  destruct (Notify_shape E ch st) as [->|(h & s & _ & ->)];
    unfold same_tasks; simpl; auto 10.
Qed.

Lemma StopNotify_same_tasks : forall E ch st, same_tasks st (StopNotify E ch st).
Proof.
  intros E ch st. unfold StopNotify.
  destruct (negb _); [|unfold same_tasks; auto 10].
  destruct (append _ _ _ _). unfold same_tasks. simpl. auto 10.
Qed.

(** ** Motor: the folder lookup *)

(** [findFolder] has two results: a folder whose port attribute is the
    port asked for, or the end of the process. *)
Lemma findFolder_found :
  forall t port folder,
    Motor.findFolder t port = Returned folder ->
    exists name, folder = Motor.Join Motor.rootMotorPath name /\
                 Motor.ReadStringValue t folder Motor.portFD = Returned ("out" ++ port)%string.
Proof.
  intros t port folder. unfold Motor.findFolder.
  destruct (Motor.entries t) as [fs|]; [|discriminate].
  destruct (Nat.eqb (length fs) 0); [discriminate|].
  induction fs as [|f fs IH]; cbn [Motor.scan]; [discriminate|].
  destruct (Motor.ReadStringValue t (Motor.Join Motor.rootMotorPath f) Motor.portFD) as [mp|] eqn:Hr;
    cbn [bind]; [|discriminate].
  destruct (String.eqb mp ("out" ++ port)) eqn:Heq.
  - apply String.eqb_eq in Heq. subst mp.
    intros H. injection H as <-. exists f. auto.
  - exact IH.
Qed.

Lemma findFolder_absent :
  forall t port fs,
    Motor.entries t = Some fs ->
    Forall (fun f => exists mp, Motor.ReadStringValue t (Motor.Join Motor.rootMotorPath f) Motor.portFD = Returned mp /\
                                mp <> ("out" ++ port)%string) fs ->
    exists msg, Motor.findFolder t port = Fatal msg.
Proof.
  intros t port fs He Hall. unfold Motor.findFolder. rewrite He.
  destruct (Nat.eqb (length fs) 0); [eauto|]. clear He.
  induction Hall as [|f fs (mp & Hr & Hne) _ IH]; cbn [Motor.scan]; [eauto|].
  rewrite Hr. cbn [bind].
  destruct (String.eqb mp ("out" ++ port)) eqn:Heq; [|exact IH].
  apply String.eqb_eq in Heq. contradiction.
Qed.

(** ** The registry under Subscribe and Unsubscribe *)

Lemma Notify_then_member :
  forall E ch st, wf_state st -> NoDup (registry st) ->
    wf_state (Notify E ch st) /\ NoDup (registry (Notify E ch st)) /\
    forall c, In c (registry (Notify E ch st)) <-> c = ch \/ In c (registry st).
Proof.
  intros E ch st Hwf Hnd.
  destruct (Notify_registry E ch st Hwf) as [Hwf' [[Hin ->]|[Hn ->]]].
  - split; [exact Hwf|]. split; [exact Hnd|].
    intros c. split; [auto|]. intros [->|H]; assumption.
  - split; [exact Hwf'|]. split.
    + apply NoDup_app; [exact Hnd|repeat constructor; intros []|].
      intros c Hc [<-|[]]. contradiction.
    + intros c. rewrite in_app_iff. simpl. split; [intros [H|[H|[]]]; auto|].
      intros [->|H]; auto.
Qed.

Lemma or_cancel_eq :
  forall (c ch : chan) (r : list chan), c <> ch -> (c = ch \/ In c r) <-> In c r.
Proof. intros c ch r Hne. split; [intros [?|?]; [contradiction|assumption]|auto]. Qed.

(** C5: whatever calls were made, the registry holds no channel twice and
    holds exactly the channels whose last call was [Notify]; [Notify]
    twice is [Notify] once, [StopNotify] after [Notify] leaves no entry
    for the channel and keeps every other one, and [StopNotify] of a
    channel that is not registered changes nothing. *)
Theorem subscribe_unsubscribe_net_effect :
  forall E p ls st,
    program E p ls = Some (Returned st) ->
    NoDup (registry st) /\
    (forall ch, In ch (registry st) <-> last_call ls ch false = true) /\
    (forall ch,
        Notify E ch (Notify E ch st) = Notify E ch st /\
        count_occ Nat.eq_dec (registry (Notify E ch st)) ch = 1 /\
        ~ In ch (registry (StopNotify E ch (Notify E ch st))) /\
        (forall c, c <> ch ->
                   (In c (registry (StopNotify E ch (Notify E ch st)))
                    <-> In c (registry st))) /\
        (~ In ch (registry st) -> StopNotify E ch st = st)).
Proof.
  intros E p ls st H.
  destruct (program_ordered _ _ _ _ H) as [Hwf (Hs & Hin & _)].
  pose proof (sorted_irrefl_NoDup _ _ (earlier_irrefl _) Hs) as Hnd.
  split; [exact Hnd|]. split.
  - intros ch. rewrite Hin. apply (registered_at_last_call ls ch 0 None).
  - intros ch.
    destruct (Notify_then_member E ch st Hwf Hnd) as (Hwf1 & Hnd1 & Hmem1).
    assert (Hin1 : In ch (registry (Notify E ch st))) by (apply Hmem1; now left).
    split; [|split; [|split; [|split]]].
    + destruct (Notify_registry E ch (Notify E ch st) Hwf1) as [_ [[_ Heq]|[Hn _]]];
        [exact Heq|contradiction].
    + apply NoDup_count_occ'; assumption.
    + destruct (StopNotify_registry E ch _ Hwf1)
        as [_ [[Hn _]|(l1 & l2 & Heq & Hn1 & ->)]]; [contradiction|].
      rewrite Heq in Hnd1. apply NoDup_remove_2 in Hnd1. exact Hnd1.
    + intros c Hc.
      destruct (StopNotify_registry E ch _ Hwf1)
        as [_ [[Hn _]|(l1 & l2 & Heq & Hn1 & ->)]]; [contradiction|].
      rewrite <- (or_cancel_eq c ch (registry st) Hc), <- Hmem1, Heq, !in_app_iff.
      simpl. split; [tauto|]. intros [?|[?|?]]; [auto|congruence|auto].
    + intros Hn.
      destruct (StopNotify_registry E ch st Hwf) as [_ [[_ Heq]|(l1 & l2 & Heq & _)]];
        [exact Heq|].
      exfalso. apply Hn. rewrite Heq. apply in_or_app. right. now left.
Qed.

Lemma subscribe_unsubscribe_net_effect_witness :
  program steady in1 calls_demo = Some (Returned after_calls_demo) /\
  NoDup (registry after_calls_demo) /\
  (forall ch, In ch (registry after_calls_demo) <-> last_call calls_demo ch false = true).
Proof.
  split; [reflexivity|].
  pose proof (subscribe_unsubscribe_net_effect steady in1 calls_demo after_calls_demo eq_refl)
    as (H1 & H2 & _).
  split; assumption.
Defined.

(** C10: [StopNotify] of a registered channel removes the first entry
    equal to it and keeps the other entries in their order; after any
    program the registry holds no channel twice, holds exactly the
    channels that are registered, and lists them in the order of the
    calls of [Notify] that registered them. *)
Theorem StopNotify_removes_first_keeps_order :
  forall E,
    (forall ch st,
        wf_state st -> In ch (registry st) ->
        exists l1 l2,
          registry st = l1 ++ ch :: l2 /\ ~ In ch l1 /\
          registry (StopNotify E ch st) = l1 ++ l2) /\
    (forall p ls st,
        program E p ls = Some (Returned st) ->
        NoDup (registry st) /\
        (forall ch, In ch (registry st) <-> registered_at ls ch 0 None <> None) /\
        StronglySorted (earlier (fun c => registered_at ls c 0 None)) (registry st)).
Proof.
  intros E. split.
  - intros ch st Hwf Hin.
    destruct (StopNotify_registry E ch st Hwf) as [_ [[Hn _]|H]]; [contradiction|exact H].
  - intros p ls st H.
    destruct (program_ordered _ _ _ _ H) as [_ (Hs & Hin & _)].
    split; [exact (sorted_irrefl_NoDup _ _ (earlier_irrefl _) Hs)|].
    split; assumption.
Qed.

Lemma twice_7_wf : wf_state twice_7.
Proof. unfold wf_state, wf_slice, backing. simpl. lia. Qed.

Lemma StopNotify_removes_first_keeps_order_witness :
  (wf_state twice_7 /\ In 7 (registry twice_7) /\
   exists l1 l2,
     registry twice_7 = l1 ++ 7 :: l2 /\ ~ In 7 l1 /\
     registry (StopNotify steady 7 twice_7) = l1 ++ l2) /\
  (program steady in1 calls_demo = Some (Returned after_calls_demo) /\
   NoDup (registry after_calls_demo)).
Proof.
  destruct (StopNotify_removes_first_keeps_order steady) as [H1 H2].
  split.
  - split; [exact twice_7_wf|]. split; [simpl; tauto|].
    apply H1; [exact twice_7_wf|simpl; tauto].
  - split; [reflexivity|]. exact (proj1 (H2 in1 calls_demo after_calls_demo eq_refl)).
Defined.

(** ** The lifecycle: StartListening and StopListening *)

Lemma live_exists :
  forall ps, 1 <= count_live ps -> exists k q, nth_error ps k = Some q /\ live q = true.
Proof.
  unfold count_live.
  induction ps as [|x ps IH]; intros H; simpl in H; [lia|].
  destruct (live x) eqn:Hx.
  - exists 0, x. auto.
  - destruct (IH H) as (k & q & Hk & Hq). exists (S k), q. auto.
Qed.

Lemma StartListening_twice :
  forall st, StartListening (StartListening st) = StartListening st.
Proof.
  intros st. unfold StartListening at 2 3.
  destruct (isListening (sensor st)) eqn:Hl.
  - unfold StartListening. now rewrite Hl.
  - reflexivity.
Qed.

Lemma StartListening_one_poller :
  forall st, lifecycle_inv st -> count_live (pollers (StartListening st)) = 1.
Proof.
  intros st [Hc _]. unfold StartListening.
  destruct (isListening (sensor st)); [exact Hc|].
  simpl. rewrite count_live_app, Hc. reflexivity.
Qed.

(** C2: in the listening state [StopListening] blocks the caller on
    [chStop]; while it is blocked exactly one poller is live and no call
    of the caller proceeds; the only step that releases the caller is the
    receive in that poller's [select], after which the poller has
    returned, the flag is cleared and every poller goroutine ever spawned
    has returned (the sends it issued before stay pending until they are
    taken); the poller reaches that [select] after finitely many of its
    own steps, unless the process ends first.  In the idle state no
    poller can take a step, and [StartListening] spawns the only live
    poller. *)
Theorem StopListening_waits_for_poller :
  forall E p st,
    reachable E p st ->
    (caller st = CReady -> isListening (sensor st) = true ->
     step E LStop st = Some (Returned (set_caller st CStopping))) /\
    (caller st = CStopping ->
     count_live (pollers st) = 1 /\
     (forall l, background l = false -> step E l st = None) /\
     (forall l st',
         step E l st = Some (Returned st') -> caller st' = CReady ->
         (exists k path cur,
             l = LPoll k /\
             nth_error (pollers st) k = Some (PSelect path cur) /\
             nth_error (pollers st') k = Some PDone) /\
         isListening (sensor st') = false /\
         Forall (fun q => q = PDone) (pollers st') /\
         senders st' = senders st /\ issued st' = issued st) /\
     (exists k n, stopped k (run E (repeat (LPoll k) n) st))) /\
    (isListening (sensor st) = false ->
     caller st = CReady /\
     Forall (fun q => q = PDone) (pollers st) /\
     (forall k, step E (LPoll k) st = None) /\
     step E LStart st = Some (Returned (StartListening st)) /\
     count_live (pollers (StartListening st)) = 1).
Proof.
  intros E p st Hreach.
  pose proof (lifecycle_reachable _ _ _ Hreach) as Hlife.
  pose proof (mem_inv_reachable _ _ _ Hreach) as Hmem.
  destruct Hlife as [Hcount Hblocked].
  split; [|split].
  - intros Hc Hl. simpl. unfold when_ready, StopListening_enter. now rewrite Hc, Hl.
  - intros Hc. pose proof (Hblocked Hc) as Hl. rewrite Hl in Hcount.
    split; [exact Hcount|]. split; [|split].
    + intros l Hbg. destruct l; try discriminate; simpl; unfold when_ready; now rewrite Hc.
    + intros l st' Hstep Hc'.
      assert (Hlife' : lifecycle_inv st')
        by (eapply lifecycle_step; [split; [rewrite Hl|]; eassumption|exact Hstep]).
      destruct l; simpl in Hstep;
        try (unfold when_ready in Hstep; rewrite Hc in Hstep; discriminate).
      * poll_cases Hstep k.
        -- destruct (findSensor E (nfinds st) (port (sensor st)) TypeTouch);
             simpl in Hstep; inv_some Hstep. simpl in Hc'. congruence.
        -- destruct (ReadUInt8Value E (nreads st) path value0);
             simpl in Hstep; inv_some Hstep. simpl in Hc'. congruence.
        -- rewrite Hc in Hstep. inv_some Hstep.
           split; [|split; [|split]].
           ++ exists k, path, cur. split; [reflexivity|]. split; [exact Hk|].
              simpl. apply nth_error_update_same. eapply nth_error_Some_lt. exact Hk.
           ++ reflexivity.
           ++ destruct Hlife' as [Hcount' _]. simpl in Hcount'.
              now apply count_live_zero.
           ++ split; reflexivity.
        -- destruct (i <? len s).
           ++ destruct (nth_error (backing (mem st) s) i); inv_some Hstep.
              simpl in Hc'. congruence.
           ++ inv_some Hstep. simpl in Hc'. congruence.
      * unfold sendEvent in Hstep.
        destruct (nth_error (senders st) k) as [[ch val]|]; [|discriminate].
        destruct (Nat.eqb ch 0); inv_some Hstep. simpl in Hc'. congruence.
    + destruct (live_exists (pollers st)) as (k & q & Hk & Hq); [lia|].
      destruct (stop_completes E (steps_to_stop q) st k q Hmem Hc Hk Hq (le_n _))
        as (n & _ & Hstop).
      exists k, n. exact Hstop.
  - intros Hl. rewrite Hl in Hcount.
    assert (Hc : caller st = CReady).
    { destruct (caller st); [reflexivity|]. specialize (Hblocked eq_refl). congruence. }
    pose proof (count_live_zero _ Hcount) as Hdone.
    split; [exact Hc|]. split; [exact Hdone|]. split; [|split].
    + intros k. simpl. unfold poll_step.
      destruct (nth_error (pollers st) k) as [q|] eqn:Hk; [|reflexivity].
      rewrite Forall_forall in Hdone. rewrite (Hdone q (nth_error_In _ _ Hk)). reflexivity.
    + simpl. unfold when_ready. now rewrite Hc.
    + apply StartListening_one_poller. split; [now rewrite Hl|exact Hblocked].
Qed.

(** C3: at any time at most one poller goroutine of the sensor is live;
    [StartListening] on a listening sensor changes nothing, so calling it
    twice in a row is calling it once, whatever runs next; after it
    exactly one poller is live. *)
Theorem StartListening_idempotent :
  forall E p st,
    reachable E p st ->
    count_live (pollers st) <= 1 /\
    (isListening (sensor st) = true -> StartListening st = st) /\
    StartListening (StartListening st) = StartListening st /\
    count_live (pollers (StartListening st)) = 1 /\
    (forall ls, run E (LStart :: LStart :: ls) st = run E (LStart :: ls) st).
Proof.
  intros E p st Hreach.
  pose proof (lifecycle_reachable _ _ _ Hreach) as Hlife.
  split; [|split; [|split; [|split]]].
  - destruct Hlife as [Hc _]. rewrite Hc. destruct (isListening (sensor st)); lia.
  - intros Hl. unfold StartListening. now rewrite Hl.
  - apply StartListening_twice.
  - now apply StartListening_one_poller.
  - intros ls. simpl. unfold when_ready.
    destruct (caller st) eqn:Hc; [|reflexivity].
    assert (Hc' : caller (StartListening st) = CReady)
      by (unfold StartListening; destruct (isListening (sensor st)); exact Hc).
    rewrite Hc', StartListening_twice. reflexivity.
Qed.

Lemma stopping_demo_reachable : reachable steady in1 stopping_demo.
Proof. apply (program_reachable steady in1 stop_demo). reflexivity. Qed.

Lemma StopListening_waits_for_poller_witness :
  reachable steady in1 stopping_demo /\
  caller stopping_demo = CStopping /\
  count_live (pollers stopping_demo) = 1 /\
  (exists k n, stopped k (run steady (repeat (LPoll k) n) stopping_demo)).
Proof.
  split; [exact stopping_demo_reachable|]. split; [reflexivity|].
  destruct (StopListening_waits_for_poller steady in1 stopping_demo stopping_demo_reachable)
    as (_ & H & _).
  destruct (H eq_refl) as (H1 & _ & _ & H4). split; assumption.
Defined.

Lemma StartListening_idempotent_witness :
  reachable steady in1 stopping_demo /\
  count_live (pollers stopping_demo) <= 1 /\
  StartListening stopping_demo = stopping_demo.
Proof.
  split; [exact stopping_demo_reachable|].
  destruct (StartListening_idempotent steady in1 stopping_demo stopping_demo_reachable)
    as (H1 & H2 & _).
  split; [exact H1|]. apply H2. reflexivity.
Defined.

(** ** A change seen while nobody is subscribed *)

Lemma registry_nil_len :
  forall st, wf_state st -> registry st = [] -> len (channels (sensor st)) = 0.
Proof.
  intros st Hwf H. rewrite <- length_registry by exact Hwf. now rewrite H.
Qed.

Lemma tick_same :
  forall E st k path cur,
    caller st = CReady -> nth_error (pollers st) k = Some (PSelect path cur) ->
    ReadUInt8Value E (nreads st) path value0 = Returned cur ->
    step E (LPoll k) st = Some (Returned (count_read (set_poller st k (PSelect path cur)))).
Proof.
  intros E st k path cur Hc Hk Hr. simpl. unfold poll_step.
  rewrite Hk, Hc, Hr. simpl. now rewrite Z.eqb_refl.
Qed.

Lemma tick_change :
  forall E st k path cur value,
    caller st = CReady -> nth_error (pollers st) k = Some (PSelect path cur) ->
    ReadUInt8Value E (nreads st) path value0 = Returned value -> value <> cur ->
    step E (LPoll k) st
    = Some (Returned (count_read (set_poller st k
                        (PRange path cur value (channels (sensor st)) 0)))).
Proof.
  intros E st k path cur value Hc Hk Hr Hne. simpl. unfold poll_step.
  rewrite Hk, Hc, Hr. simpl. apply Z.eqb_neq in Hne. now rewrite Hne.
Qed.

Lemma range_send :
  forall E st k path cur value s i ch,
    nth_error (pollers st) k = Some (PRange path cur value s i) ->
    i < len s -> nth_error (backing (mem st) s) i = Some ch ->
    step E (LPoll k) st
    = Some (Returned (go_sendEvent (set_poller st k (PRange path cur value s (S i))) ch value)).
Proof.
  intros E st k path cur value s i ch Hk Hi Hn. simpl. unfold poll_step.
  rewrite Hk. destruct (Nat.ltb_spec i (len s)); [|lia]. now rewrite Hn.
Qed.

Lemma range_end :
  forall E st k path cur value s i,
    nth_error (pollers st) k = Some (PRange path cur value s i) ->
    len s <= i ->
    step E (LPoll k) st = Some (Returned (set_poller st k (PSelect path value))).
Proof.
  intros E st k path cur value s i Hk Hi. simpl. unfold poll_step.
  rewrite Hk. destruct (Nat.ltb_spec i (len s)); [lia|]. reflexivity.
Qed.

Lemma run_cons :
  forall E l ls st st1,
    step E l st = Some (Returned st1) -> run E (l :: ls) st = run E ls st1.
Proof. intros E l ls st st1 H. cbn [run]. now rewrite H. Qed.

Lemma nth_error_set_poller :
  forall st k q q0,
    nth_error (pollers st) k = Some q0 ->
    nth_error (pollers (set_poller st k q)) k = Some q.
Proof.
  intros st k q q0 H. simpl. apply nth_error_update_same.
  eapply nth_error_Some_lt. exact H.
Qed.

(** C7: when a change is seen while the registry is empty, the poller
    sends nothing and still takes the new value as the last one seen.  A
    channel subscribed afterwards is sent nothing as long as the sensor
    keeps that value, and is sent the next value that differs from it. *)
Theorem empty_registry_change_recorded :
  forall E st k path cur value,
    wf_state st -> caller st = CReady -> registry st = [] ->
    nth_error (pollers st) k = Some (PSelect path cur) ->
    ReadUInt8Value E (nreads st) path value0 = Returned value -> value <> cur ->
    exists st2,
      run E [LPoll k; LPoll k] st = Some (Returned st2) /\
      nth_error (pollers st2) k = Some (PSelect path value) /\
      issued st2 = issued st /\ senders st2 = senders st /\
      nreads st2 = S (nreads st) /\
      (forall ch,
          ReadUInt8Value E (nreads st2) path value0 = Returned value ->
          exists st3,
            run E [LNotify ch; LPoll k] st2 = Some (Returned st3) /\
            registry st3 = [ch] /\
            nth_error (pollers st3) k = Some (PSelect path value) /\
            issued st3 = issued st /\ senders st3 = senders st) /\
      (forall ch next,
          ReadUInt8Value E (nreads st2) path value0 = Returned next -> next <> value ->
          exists st3,
            run E [LNotify ch; LPoll k; LPoll k; LPoll k] st2 = Some (Returned st3) /\
            nth_error (pollers st3) k = Some (PSelect path next) /\
            issued st3 = issued st ++ [(ch, next)] /\
            senders st3 = senders st ++ [(ch, next)]).
Proof.
  intros E st k path cur value Hwf Hc Hreg Hk Hrd Hne.
  pose proof (registry_nil_len st Hwf Hreg) as Hlen.
  set (st1 := count_read (set_poller st k (PRange path cur value (channels (sensor st)) 0))).
  set (st2 := set_poller st1 k (PSelect path value)).
  assert (Hk1 : nth_error (pollers st1) k = Some (PRange path cur value (channels (sensor st)) 0))
    by (eapply nth_error_set_poller; exact Hk).
  assert (Hk2 : nth_error (pollers st2) k = Some (PSelect path value))
    by (eapply nth_error_set_poller; exact Hk1).
  exists st2. split; [|split; [exact Hk2|split; [reflexivity|split; [reflexivity|split; [reflexivity|split]]]]].
  - rewrite (run_cons E _ _ st st1) by (now apply tick_change).
    rewrite (run_cons E _ _ st1 st2) by (eapply range_end; [exact Hk1|lia]).
    reflexivity.
  - (* the sensor keeps the value *)
    intros ch Hsame.
    pose proof (Notify_same_tasks E ch st2) as (_ & _ & HcN & HpN & HsN & _ & HnN & HiN & _).
    destruct (Notify_registry E ch st2 Hwf) as [HwfN [[Hin _]|[_ HregN]]].
    { change (registry st2) with (registry st) in Hin. rewrite Hreg in Hin. destruct Hin. }
    change (registry st2) with (registry st) in HregN. rewrite Hreg in HregN.
    set (stN := Notify E ch st2) in *.
    exists (count_read (set_poller stN k (PSelect path value))).
    split; [|split; [exact HregN|split; [|split]]].
    + rewrite (run_cons E _ _ st2 stN) by (cbn [step]; unfold when_ready;
            change (caller st2) with (caller st); now rewrite Hc).
      rewrite (run_cons E _ _ stN (count_read (set_poller stN k (PSelect path value))))
        by (apply tick_same;
            [rewrite HcN; exact Hc|rewrite HpN; exact Hk2|rewrite HnN; exact Hsame]).
      reflexivity.
    + eapply nth_error_set_poller. rewrite HpN. exact Hk2.
    + simpl. exact HiN.
    + simpl. exact HsN.
  - (* the sensor shows another value *)
    intros ch next Hnext Hdiff.
    pose proof (Notify_same_tasks E ch st2) as (_ & _ & HcN & HpN & HsN & _ & HnN & HiN & _).
    destruct (Notify_registry E ch st2 Hwf) as [HwfN [[Hin _]|[_ HregN]]].
    { change (registry st2) with (registry st) in Hin. rewrite Hreg in Hin. destruct Hin. }
    change (registry st2) with (registry st) in HregN. rewrite Hreg in HregN.
    set (stN := Notify E ch st2) in *.
    assert (HlenN : len (channels (sensor stN)) = 1)
      by (rewrite <- length_registry, HregN by exact HwfN; reflexivity).
    assert (Hcell : nth_error (backing (mem stN) (channels (sensor stN))) 0 = Some ch).
    { unfold registry, elems in HregN. rewrite HlenN in HregN.
      destruct (backing (mem stN) (channels (sensor stN))); [discriminate|].
      simpl in HregN. now inversion HregN. }
    set (s := channels (sensor stN)) in *.
    set (stA := count_read (set_poller stN k (PRange path value next s 0))).
    set (stB := go_sendEvent (set_poller stA k (PRange path value next s 1)) ch next).
    set (stC := set_poller stB k (PSelect path next)).
    assert (HkN : nth_error (pollers stN) k = Some (PSelect path value))
      by (rewrite HpN; exact Hk2).
    assert (HkA : nth_error (pollers stA) k = Some (PRange path value next s 0))
      by (eapply nth_error_set_poller; exact HkN).
    assert (HkB : nth_error (pollers stB) k = Some (PRange path value next s 1))
      by (eapply nth_error_set_poller; exact HkA).
    exists stC. split; [|split; [|split]].
    + rewrite (run_cons E _ _ st2 stN) by (cbn [step]; unfold when_ready;
            change (caller st2) with (caller st); now rewrite Hc).
      rewrite (run_cons E _ _ stN stA)
        by (apply tick_change;
            [rewrite HcN; exact Hc|exact HkN|rewrite HnN; exact Hnext|exact Hdiff]).
      rewrite (run_cons E _ _ stA stB)
        by (eapply range_send; [exact HkA|rewrite HlenN; lia|exact Hcell]).
      rewrite (run_cons E _ _ stB stC)
        by (eapply range_end; [exact HkB|rewrite HlenN; lia]).
      reflexivity.
    + eapply nth_error_set_poller. exact HkB.
    + simpl. now rewrite HiN.
    + simpl. now rewrite HsN.
Qed.

Lemma empty_registry_change_recorded_witness :
  (wf_state nobody_demo /\ caller nobody_demo = CReady /\ registry nobody_demo = [] /\
   nth_error (pollers nobody_demo) 0 = Some (PSelect sensor0_path 0%Z) /\
   ReadUInt8Value late_env (nreads nobody_demo) sensor0_path value0 = Returned 1%Z /\
   1%Z <> 0%Z) /\
  exists st2,
    run late_env [LPoll 0; LPoll 0] nobody_demo = Some (Returned st2) /\
    nth_error (pollers st2) 0 = Some (PSelect sensor0_path 1%Z) /\
    issued st2 = issued nobody_demo.
Proof.
  assert (Hwf : wf_state nobody_demo)
    by (unfold wf_state, wf_slice, backing; simpl; lia).
  assert (Hne : 1%Z <> 0%Z) by discriminate.
  split; [repeat split; auto|].
  destruct (empty_registry_change_recorded late_env nobody_demo 0 sensor0_path 0%Z 1%Z
              Hwf eq_refl eq_refl eq_refl eq_refl Hne)
    as (st2 & H1 & H2 & H3 & _).
  exists st2. repeat split; assumption.
Defined.

(** ** The deliveries of the five ticks *)

Lemma prefix_all_on :
  forall (c : chan) (l rest full : list (chan * uint8)),
    l ++ rest = full -> Forall (fun e => fst e = c) full -> Forall (fun e => fst e = c) l.
Proof.
  intros c l rest full <- H. apply Forall_app in H. tauto.
Qed.

(** C1, as the code has it: with one channel subscribed before
    [StartListening] and the reads 0, 0, 1, 1, 2 (the first of them made
    before the loop, or after one more read of 0 made before the loop),
    the poller issues a send of 1 and then a send of 2 to the channel, and
    nothing for the repeated values; what the subscriber has taken and
    what is still pending are exactly the sends issued, each once; and
    the subscriber takes 1 before 2 in every run in which the pending
    sends are taken oldest first. *)
Theorem five_ticks_deliveries :
  forall b p c ls st,
    b <= 1 -> forallb background ls = true ->
    program (five_ticks_env b) p (LNotify c :: LStart :: ls) = Some (Returned st) ->
    (exists rest, issued st ++ rest = [(c, 1%Z); (c, 2%Z)]) /\
    (forall path cur, pollers st = [PSelect path cur] -> 5 + b <= nreads st ->
                      issued st = [(c, 1%Z); (c, 2%Z)]) /\
    Permutation (received st ++ senders st) (issued st) /\
    (program_all (five_ticks_env b) oldest_first p (LNotify c :: LStart :: ls) = true ->
     received st ++ senders st = issued st).
Proof.
  intros b p c ls st Hb Hls H.
  destruct (five_ticks_issued b p c ls st Hb Hls H) as [Hpre Hfull].
  pose proof (program_conservation _ _ _ _ H) as Hcons. unfold conservation in Hcons.
  split; [exact Hpre|]. split; [exact Hfull|]. split; [now symmetry|].
  intros Hall.
  pose proof (program_in_issue_order _ _ _ _ Hall H c) as Hord.
  destruct Hpre as [rest Hrest].
  assert (Hi : Forall (fun e => fst e = c) (issued st)).
  { eapply prefix_all_on; [exact Hrest|]. repeat constructor. }
  assert (Hrs : Forall (fun e => fst e = c) (received st ++ senders st)).
  { rewrite Forall_forall in *. intros e He. apply Hi.
    eapply Permutation_in; [symmetry; exact Hcons|exact He]. }
  rewrite <- on_chan_app in Hord.
  rewrite (on_chan_all c _ Hi), (on_chan_all c _ Hrs) in Hord. now symmetry.
Qed.

Lemma five_ticks_deliveries_witness :
  (0 <= 1 /\ forallb background prompt_schedule = true /\
   program (five_ticks_env 0) in1 (LNotify 7 :: LStart :: prompt_schedule)
   = Some (Returned after_prompt)) /\
  issued after_prompt = [(7, 1%Z); (7, 2%Z)] /\
  received after_prompt ++ senders after_prompt = issued after_prompt.
Proof.
  split; [repeat split; auto|].
  destruct (five_ticks_deliveries 0 in1 7 prompt_schedule after_prompt
              (le_S _ _ (le_n 0)) eq_refl eq_refl) as (_ & H2 & _ & H4).
  split.
  - apply (H2 sensor0_path 2%Z); [reflexivity|vm_compute; lia].
  - apply H4. reflexivity.
Defined.

Lemma five_ticks_received_out_of_order :
  exists st,
    program (five_ticks_env 0) in1 (LNotify 7 :: LStart :: late_schedule)
    = Some (Returned st) /\
    issued st = [(7, 1%Z); (7, 2%Z)] /\
    received st = [(7, 2%Z); (7, 1%Z)] /\ senders st = [].
Proof.
  eexists. split; [vm_compute; reflexivity|]. repeat split.
Qed.

(** ** Sends follow the reads, in every program *)

Lemma Forall_update_done :
  forall (P : poller -> Prop) ps k q q',
    count_live ps <= 1 -> nth_error ps k = Some q -> live q = true ->
    P PDone -> P q' -> Forall P (update ps k q').
Proof.
  intros P ps k q q' Hc Hk Hl Hdone Hq'. rewrite Forall_forall. intros x Hx.
  apply In_nth_error in Hx. destruct Hx as [j Hj].
  destruct (Nat.eq_dec j k) as [->|Hne].
  - rewrite nth_error_update_same in Hj by (eapply nth_error_Some_lt; exact Hk).
    now inversion Hj; subst.
  - rewrite nth_error_update_other in Hj by exact Hne.
    now rewrite (one_live_others_done ps k q Hc Hk Hl j x Hne Hj).
Qed.

Lemma observation_init :
  forall E p st, FindTouchSensor E p = Returned st -> observation_inv E st.
Proof.
  intros E p st H. pose proof (lifecycle_init _ _ _ H) as Hlife.
  unfold FindTouchSensor in H.
  destruct (findSensor E 0 p TypeTouch); simpl in H; [|discriminate].
  injection H as <-. split; [exact Hlife|]. simpl. repeat constructor.
Qed.

Lemma observation_step :
  forall E l st st',
    observation_inv E st -> step E l st = Some (Returned st') -> observation_inv E st'.
Proof.
  intros E l st st' (Hlife & Hps & Hlt & Hsort & Hobs) Hstep.
  pose proof (lifecycle_step _ _ _ _ Hlife Hstep) as Hlife'.
  split; [exact Hlife'|]. clear Hlife'.
  assert (Hone : count_live (pollers st) <= 1).
  { destruct Hlife as [Hc _]. rewrite Hc. destruct (isListening (sensor st)); lia. }
  destruct l; simpl in Hstep.
  - ready_step Hstep. unfold StartListening.
    destruct (isListening (sensor st)); [auto|]. simpl.
    split; [|auto]. apply Forall_app. split; [exact Hps|repeat constructor].
  - ready_step Hstep. unfold StopListening_enter.
    destruct (isListening (sensor st)); simpl; auto.
  - ready_step Hstep.
    destruct (Notify_same_tasks E ch st) as (_ & _ & _ & -> & _ & _ & -> & -> & _).
    destruct (Notify_shape E ch st) as [->|(h & s & _ & ->)]; simpl; auto.
  - ready_step Hstep.
    destruct (StopNotify_same_tasks E ch st) as (_ & _ & _ & -> & _ & _ & -> & -> & _).
    unfold StopNotify. destruct (negb _); [|auto].
    destruct (append _ _ _ _). simpl. auto.
  - poll_cases Hstep k.
    + destruct (findSensor E (nfinds st) (port (sensor st)) TypeTouch);
        simpl in Hstep; [|discriminate]. injection Hstep as <-. simpl.
      split; [|auto]. apply Forall_update; [exact Hps|exact I].
    + destruct (ReadUInt8Value E (nreads st) path value0) as [v|] eqn:Hrd;
        simpl in Hstep; [|discriminate]. injection Hstep as <-. simpl.
      split; [|split; [|auto]].
      * apply (Forall_update_done _ _ _ (PBase path));
          [exact Hone|exact Hk|reflexivity|exact I|]. simpl.
        split; [lia|]. unfold read_is. now rewrite Nat.sub_0_r.
      * eapply Forall_impl; [|exact Hlt]. simpl. intros; lia.
    + assert (Hme : poller_last_read E (nreads st) (PSelect path cur)).
      { rewrite Forall_forall in Hps. apply Hps. eapply nth_error_In. exact Hk. }
      destruct Hme as [Hn Hcur].
      destruct (caller st).
      * destruct (ReadUInt8Value E (nreads st) path value0) as [v|] eqn:Hrd;
          simpl in Hstep; [|discriminate]. injection Hstep as <-. simpl.
        split; [|split; [|auto]].
        -- apply (Forall_update_done _ _ _ (PSelect path cur));
             [exact Hone|exact Hk|reflexivity|exact I|].
           destruct (Z.eqb_spec v cur) as [->|Hne]; simpl.
           ++ split; [lia|]. unfold read_is. now rewrite Nat.sub_0_r.
           ++ split; [lia|]. unfold read_is. rewrite Nat.sub_0_r.
              split; [exact Hrd|]. split; [|exact Hne].
              replace (nreads st - 1) with (nreads st - 1) by lia.
              replace (S (nreads st) - 2) with (nreads st - 1) by lia. exact Hcur.
        -- eapply Forall_impl; [|exact Hlt]. simpl. intros; lia.
      * injection Hstep as <-. simpl.
        split; [|auto]. apply Forall_update; [exact Hps|exact I].
    + assert (Hme : poller_last_read E (nreads st) (PRange path cur value s i)).
      { rewrite Forall_forall in Hps. apply Hps. eapply nth_error_In. exact Hk. }
      destruct Hme as (Hn & Hval & Hcur & Hne).
      destruct (i <? len s).
      * destruct (nth_error (backing (mem st) s) i) as [ch|]; [|discriminate].
        injection Hstep as <-. simpl.
        split; [|split; [|split]].
        -- apply Forall_update; [exact Hps|]. simpl. auto.
        -- apply Forall_app. split; [exact Hlt|]. repeat constructor. lia.
        -- apply sorted_snoc; [exact Hsort|].
           eapply Forall_impl; [|exact Hlt]. simpl. intros; lia.
        -- apply Forall2_app; [exact Hobs|]. repeat constructor. simpl.
           exists path, cur. split; [lia|].
           replace (pred (nreads st)) with (nreads st - 1) by lia.
           replace (nreads st - 1 - 1) with (nreads st - 2) by lia. auto.
      * injection Hstep as <-. simpl.
        split; [|auto]. apply Forall_update; [exact Hps|]. simpl. split; [lia|exact Hval].
  - unfold sendEvent in Hstep.
    destruct (nth_error (senders st) k) as [[ch val]|]; [|discriminate].
    destruct (Nat.eqb ch 0); [discriminate|]. injection Hstep as <-. simpl. auto.
Qed.

Lemma observation_program :
  forall E p ls st, program E p ls = Some (Returned st) -> observation_inv E st.
Proof.
  intros E p ls st H. unfold program in H.
  destruct (FindTouchSensor E p) as [st0|] eqn:H0; [|discriminate].
  apply (run_invariant E (observation_inv E) (observation_step E) ls st0 st
           (observation_init _ _ _ H0) H).
Qed.

(** C9, as the code has it: the sends are issued in the order in which
    the poller saw the values differ (every send carries the value of a
    read that differed from the read before it, and the reads of
    successive sends never go back); what a subscriber has taken and what
    is pending for it are exactly the sends issued for it, each once; it
    takes them in the order of issue in every run in which pending sends
    are taken oldest first, and no order is kept otherwise, since each
    send is a goroutine of its own. *)
Theorem sends_follow_observations :
  forall E p ls st,
    program E p ls = Some (Returned st) ->
    StronglySorted le (stamps st) /\
    Forall2 (fun e t => observed_change E t (snd e)) (issued st) (stamps st) /\
    (forall ch,
        Permutation (on_chan ch (received st) ++ on_chan ch (senders st))
                    (on_chan ch (issued st))) /\
    (program_all E oldest_first p ls = true ->
     forall ch,
       on_chan ch (received st) ++ on_chan ch (senders st) = on_chan ch (issued st)).
Proof.
  intros E p ls st H.
  destruct (observation_program _ _ _ _ H) as (_ & _ & _ & Hsort & Hobs).
  split; [exact Hsort|]. split; [exact Hobs|]. split.
  - intros ch. rewrite <- on_chan_app. symmetry.
    apply Permutation_filter_compat. exact (program_conservation _ _ _ _ H).
  - intros Hall ch. symmetry. exact (program_in_issue_order _ _ _ _ Hall H ch).
Qed.

Lemma sends_follow_observations_witness :
  program press_release in1 in_order_schedule = Some (Returned after_in_order) /\
  StronglySorted le (stamps after_in_order) /\
  (forall ch,
      on_chan ch (received after_in_order) ++ on_chan ch (senders after_in_order)
      = on_chan ch (issued after_in_order)).
Proof.
  split; [reflexivity|].
  destruct (sends_follow_observations press_release in1 in_order_schedule after_in_order
              eq_refl) as (H1 & _ & _ & H4).
  split; [exact H1|]. apply H4. reflexivity.
Defined.

(** The poller saw 1 and then 0; the subscriber 7 waited until both
    sends were pending and was handed 0 before 1. *)
Lemma subscriber_handed_later_change_first :
  exists st,
    program press_release in1
      [LNotify 7; LNotify 8; LStart;
       LPoll 0; LPoll 0; LPoll 0; LPoll 0; LPoll 0; LPoll 0;
       LPoll 0; LPoll 0; LPoll 0; LPoll 0;
       LRecv 2; LRecv 0]
    = Some (Returned st) /\
    issued st = [(7, 1%Z); (8, 1%Z); (7, 0%Z); (8, 0%Z)] /\
    stamps st = [1; 1; 2; 2] /\
    on_chan 7 (received st) = [(7, 0%Z); (7, 1%Z)].
Proof.
  eexists. split; [vm_compute; reflexivity|]. repeat split.
Qed.

(** ** Delivery and the shared array *)

(** While every call runs as a whole: the [range] loop never reads
    outside the array; only [Notify] and [StopNotify] change the
    registry, whose members after any program are the channels whose last
    call was [Notify]; and a delivery during which no call of
    [StopNotify] is made sends the value to exactly the channels
    registered when the change was seen. *)
Lemma serial_delivery :
  forall E p st,
    reachable E p st ->
    (forall l msg,
        step E l st = Some (Fatal msg) ->
        findSensor E (nfinds st) (port (sensor st)) TypeTouch = Fatal msg \/
        exists path, ReadUInt8Value E (nreads st) path value0 = Fatal msg) /\
    (forall l st',
        registry_call l = false -> step E l st = Some (Returned st') ->
        registry st' = registry st) /\
    (forall ls st',
        program E p ls = Some (Returned st') ->
        forall ch, In ch (registry st') <-> last_call ls ch false = true) /\
    (forall k path cur value ls st',
        nth_error (pollers st) k = Some (PRange path cur value (channels (sensor st)) 0) ->
        forallb no_StopNotify ls = true ->
        run E ls st = Some (Returned st') -> nreads st' = nreads st ->
        (exists i,
            nth_error (pollers st') k
            = Some (PRange path cur value (channels (sensor st)) i) /\
            issued st' = issued st ++ fan_out (firstn i (registry st)) value) \/
        ((nth_error (pollers st') k = Some (PSelect path value) \/
          nth_error (pollers st') k = Some PDone) /\
         issued st' = issued st ++ fan_out (registry st) value)).
Proof.
  intros E p st Hreach.
  pose proof (mem_inv_reachable _ _ _ Hreach) as Hmem.
  pose proof (lifecycle_reachable _ _ _ Hreach) as [Hcount _].
  split; [|split; [|split]].
  - intros l msg Hstep. exact (step_fatal _ _ _ _ Hmem Hstep).
  - intros l st' Hl Hstep.
    destruct (step_keeps_registry _ _ _ _ Hl Hstep) as [Hm Hc].
    unfold registry. now rewrite Hm, Hc.
  - intros ls st' H ch.
    destruct (program_ordered _ _ _ _ H) as [_ (_ & Hin & _)].
    rewrite Hin. apply (registered_at_last_call ls ch 0 None).
  - intros k path cur value ls st' Hk Hls Hrun Hn.
    assert (Hone : count_live (pollers st) <= 1)
      by (rewrite Hcount; destruct (isListening (sensor st)); lia).
    assert (Hd : delivering k path cur value (channels (sensor st)) (registry st)
                            (issued st) (nreads st) st).
    { destruct Hmem as [Hwf _]. unfold delivering.
      split; [exact Hwf|]. split; [exact Hwf|]. split; [reflexivity|].
      split; [auto|]. split; [reflexivity|]. split.
      - intros j q Hj Hq.
        rewrite (one_live_others_done _ _ _ Hone Hk eq_refl j q Hj Hq). exact I.
      - left. exists 0. split; [lia|]. split; [exact Hk|].
        simpl. now rewrite app_nil_r. }
    pose proof (delivering_run _ _ _ _ _ _ _ _ _ _ _ _ Hd Hls Hrun Hn)
      as (_ & _ & _ & _ & _ & _ & [(i & _ & Hi & Hlog)|[Hend Hlog]]).
    + left. exists i. auto.
    + right. auto.
Qed.

Lemma change_seen_reachable : reachable late_env in1 change_seen.
Proof. apply (program_reachable late_env in1 three_subscribers). reflexivity. Qed.

(** The channel 7 unsubscribes while the value 1 is being delivered to
    the registry 7, 8, 9: the entries move down in the array the loop is
    reading, so that 8, registered all along, is sent nothing, and 9 is
    sent the value twice. *)
Lemma delivery_skips_one_and_repeats_another :
  exists st,
    program late_env in1
      [LNotify 7; LNotify 8; LNotify 9; LStart; LPoll 0; LPoll 0; LPoll 0;
       LPoll 0; LStopNotify 7; LPoll 0; LPoll 0; LPoll 0]
    = Some (Returned st) /\
    registry st = [8; 9] /\
    issued st = [(7, 1%Z); (9, 1%Z); (9, 1%Z)] /\
    pollers st = [PSelect sensor0_path 1%Z].
Proof.
  eexists. split; [vm_compute; reflexivity|]. repeat split.
Qed.

(** ** Calls that overlap *)

(** A schedule in which no call is split is a schedule of the machine
    whose calls are single steps. *)
Lemma fine_run_whole :
  forall E fls fs,
    settled fs = true -> forallb whole fls = true ->
    match run E (wholes fls) (base fs) with
    | Some (Returned st') =>
        fine_run E fls fs = Some (Returned {| base := st'; calls := calls fs |})
    | Some (Fatal msg) => fine_run E fls fs = Some (Fatal msg)
    | None => fine_run E fls fs = None
    end.
Proof.
  intros E fls. induction fls as [|fl fls IH]; intros fs Hs Hw.
  - simpl. now destruct fs.
  - simpl in Hw. apply andb_prop in Hw. destruct Hw as [Hfl Hw].
    destruct fl as [l| | | |]; try discriminate.
    cbn [wholes run fine_run fine_step]. rewrite Hs, andb_false_r.
    destruct (step E l (base fs)) as [[st1|msg]|]; try reflexivity.
    exact (IH {| base := st1; calls := calls fs |} Hs Hw).
Qed.

Lemma fine_run_whole_inv :
  forall E fls fs fs',
    settled fs = true -> forallb whole fls = true ->
    fine_run E fls fs = Some (Returned fs') ->
    run E (wholes fls) (base fs) = Some (Returned (base fs')) /\ calls fs' = calls fs.
Proof.
  intros E fls fs fs' Hs Hw Hrun.
  pose proof (fine_run_whole E fls fs Hs Hw) as H.
  destruct (run E (wholes fls) (base fs)) as [[st1|msg]|];
    rewrite H in Hrun; try discriminate.
  inv_some Hrun. auto.
Qed.

Lemma settled_app :
  forall st cs c,
    settled {| base := st; calls := cs |} = true -> mid_store c = false ->
    forall st', settled {| base := st'; calls := cs ++ [c] |} = true.
Proof.
  intros st cs c Hs Hc st'. unfold settled in *. cbn [calls] in *.
  rewrite existsb_app. cbn [existsb]. rewrite Hc.
  apply negb_true_iff in Hs. now rewrite Hs.
Qed.

(** The statements of a call of [Notify], run one after the other with
    nothing in between, make the call that is one step of the machine
    above, in whichever order the two words are stored. *)
Lemma whole_Notify_is_Notify :
  forall E ch fs,
    settled fs = true ->
    (indexOf (base fs) ch = (-1)%Z ->
     fine_run E (whole_Notify ch (length (calls fs))) fs
     = Some (Returned {| base := Notify E ch (base fs);
                         calls := calls fs ++ [CallReturned] |}) /\
     fine_run E [FEnter ch; FAppend (length (calls fs));
                 FStoreLen (length (calls fs)); FStorePtr (length (calls fs))] fs
     = Some (Returned {| base := Notify E ch (base fs);
                         calls := calls fs ++ [CallReturned] |})) /\
    (indexOf (base fs) ch <> (-1)%Z ->
     fine_step E (FEnter ch) fs = Some (Returned fs) /\ Notify E ch (base fs) = base fs).
Proof.
  intros E ch fs Hs. split.
  - intros Hi.
    assert (Hs' : settled {| base := base fs; calls := calls fs ++ [Checked ch] |} = true).
    { apply (settled_app (base fs)); [|reflexivity]. now destruct fs. }
    unfold whole_Notify. cbn [fine_run fine_step]. unfold Notify.
    rewrite Hs, Hi. cbn [negb Z.eqb Pos.eqb base calls].
    rewrite !nth_error_last, Hs'. cbn [negb].
    destruct (append E (mem (base fs)) (channels (sensor (base fs))) [ch]) as [h s].
    cbn [base calls]. rewrite !update_last, !nth_error_last.
    cbn [base calls after_store andb]. rewrite !update_last, !nth_error_last.
    cbn [base calls after_store andb]. rewrite !update_last.
    destruct s as [a n]. split; reflexivity.
  - intros Hi. apply Z.eqb_neq in Hi. cbn [fine_step]. unfold Notify.
    now rewrite Hs, Hi.
Qed.

(** C8, as the code has it: nothing in touch.go takes a lock or a copy.
    In the schedules in which no call overlaps another call or a
    statement of the poller (every call runs as a whole): the [range]
    loop of a delivery, which takes the slice header when the change is
    seen and then reads the shared array cell by cell, never reads
    outside the array, so no call of [Notify] or [StopNotify] ends the
    process; only these two calls change the registry, whose members are
    the channels whose last call was [Notify]; and a delivery during
    which no call of [StopNotify] is made sends the value to exactly the
    channels registered when the change was seen, in their order,
    whatever calls of [Notify] are made meanwhile. *)
Theorem delivery_reads_shared_array :
  forall E p fls fs,
    forallb whole fls = true ->
    fine_program E p fls = Some (Returned fs) ->
    (forall l msg,
        fine_step E (FWhole l) fs = Some (Fatal msg) ->
        findSensor E (nfinds (base fs)) (port (sensor (base fs))) TypeTouch = Fatal msg \/
        exists path, ReadUInt8Value E (nreads (base fs)) path value0 = Fatal msg) /\
    (forall l fs',
        registry_call l = false -> fine_step E (FWhole l) fs = Some (Returned fs') ->
        registry (base fs') = registry (base fs)) /\
    (forall ch, In ch (registry (base fs)) <-> last_call (wholes fls) ch false = true) /\
    (forall k path cur value fls' fs',
        nth_error (pollers (base fs)) k
        = Some (PRange path cur value (channels (sensor (base fs))) 0) ->
        forallb whole fls' = true -> forallb no_StopNotify (wholes fls') = true ->
        fine_run E fls' fs = Some (Returned fs') ->
        nreads (base fs') = nreads (base fs) ->
        (exists i,
            nth_error (pollers (base fs')) k
            = Some (PRange path cur value (channels (sensor (base fs))) i) /\
            issued (base fs')
            = issued (base fs) ++ fan_out (firstn i (registry (base fs))) value) \/
        ((nth_error (pollers (base fs')) k = Some (PSelect path value) \/
          nth_error (pollers (base fs')) k = Some PDone) /\
         issued (base fs') = issued (base fs) ++ fan_out (registry (base fs)) value)).
Proof.
  intros E p fls fs Hw Hprog.
  assert (Hp : program E p (wholes fls) = Some (Returned (base fs)) /\ calls fs = []).
  { unfold fine_program in Hprog. unfold program.
    destruct (FindTouchSensor E p) as [st0|]; [|discriminate].
    exact (fine_run_whole_inv E fls {| base := st0; calls := [] |} fs eq_refl Hw Hprog). }
  destruct Hp as [Hp Hcalls].
  assert (Hs : settled fs = true) by (unfold settled; now rewrite Hcalls).
  destruct (serial_delivery E p (base fs) (program_reachable _ _ _ _ Hp))
    as (Hfatal & Hkeep & Hnet & Hdel).
  split; [|split; [|split]].
  - intros l msg Hstep. apply (Hfatal l). cbn [fine_step] in Hstep.
    rewrite Hs, andb_false_r in Hstep.
    destruct (step E l (base fs)) as [[st1|m]|]; try discriminate. congruence.
  - intros l fs' Hl Hstep. cbn [fine_step] in Hstep.
    rewrite Hs, andb_false_r in Hstep.
    destruct (step E l (base fs)) as [[st1|m]|] eqn:Hstep1; try discriminate.
    inv_some Hstep. exact (Hkeep l st1 Hl Hstep1).
  - exact (Hnet _ _ Hp).
  - intros k path cur value fls' fs' Hk Hw' Hns Hrun Hn.
    destruct (fine_run_whole_inv _ _ _ _ Hs Hw' Hrun) as [Hrun' _].
    exact (Hdel k path cur value _ _ Hk Hns Hrun' Hn).
Qed.

Lemma delivery_reads_shared_array_witness :
  (forallb whole (map FWhole three_subscribers) = true /\
   fine_program late_env in1 (map FWhole three_subscribers)
   = Some (Returned {| base := change_seen; calls := [] |}) /\
   nth_error (pollers change_seen) 0
   = Some (PRange sensor0_path 0%Z 1%Z (channels (sensor change_seen)) 0)) /\
  exists fs',
    fine_run late_env (map FWhole [LPoll 0; LNotify 5; LPoll 0; LPoll 0; LPoll 0])
      {| base := change_seen; calls := [] |}
    = Some (Returned fs') /\
    registry (base fs') = [7; 8; 9; 5] /\
    issued (base fs') = issued change_seen ++ fan_out (registry change_seen) 1%Z.
Proof.
  split; [split; [reflexivity|split; reflexivity]|].
  destruct (delivery_reads_shared_array late_env in1 (map FWhole three_subscribers)
              {| base := change_seen; calls := [] |} eq_refl eq_refl)
    as (_ & _ & _ & H).
  eexists. split; [vm_compute; reflexivity|]. split; [reflexivity|].
  match goal with
  | |- issued (base ?s) = _ =>
      destruct (H 0 sensor0_path 0%Z 1%Z
                  (map FWhole [LPoll 0; LNotify 5; LPoll 0; LPoll 0; LPoll 0]) s
                  eq_refl eq_refl eq_refl eq_refl eq_refl)
        as [(i & _ & Hlog)|[_ Hlog]]; exact Hlog || reflexivity
  end.
Defined.

(** What the code does without a copy and without a lock.

    - The channel 7 unsubscribes while the value 1 is being delivered to
      the registry 7, 8, 9: 8, registered all along, is sent nothing and
      9 is sent the value twice.
    - Two goroutines call [Notify(7)] and both find 7 absent before
      either has appended: 7 is registered twice, and is still
      registered after the call of [StopNotify(7)] that follows, although
      the last call about 7 was [StopNotify].
    - Two goroutines call [Notify(7)] and [Notify(8)] and both append to
      the empty slice before either has stored its result: both calls
      have returned and 7 is not registered.
    - The poller takes the slice header when [Notify(8)] has stored its
      new length and not yet its new pointer: the loop goes on to the
      cell 1 of an array of one cell. *)
Lemma delivery_without_copy_or_lock :
  (exists st,
      program late_env in1
        [LNotify 7; LNotify 8; LNotify 9; LStart; LPoll 0; LPoll 0; LPoll 0;
         LPoll 0; LStopNotify 7; LPoll 0; LPoll 0; LPoll 0]
      = Some (Returned st) /\
      registry st = [8; 9] /\
      issued st = [(7, 1%Z); (9, 1%Z); (9, 1%Z)]) /\
  (exists fs fs',
      fine_program steady in1 both_pass_the_check = Some (Returned fs) /\
      calls fs = [CallReturned; CallReturned] /\
      registry (base fs) = [7; 7] /\
      fine_step steady (FWhole (LStopNotify 7)) fs = Some (Returned fs') /\
      registry (base fs') = [7] /\
      last_call [LNotify 7; LNotify 7; LStopNotify 7] 7 false = false) /\
  (exists fs,
      fine_program steady in1 both_append_to_nil = Some (Returned fs) /\
      calls fs = [CallReturned; CallReturned] /\
      registry (base fs) = [8]) /\
  (exists fs s,
      fine_program late_env in1 header_read_in_mid_store = Some (Returned fs) /\
      pollers (base fs) = [PRange sensor0_path 0%Z 1%Z s 1] /\
      len s = 2 /\ backing (mem (base fs)) s = [7] /\
      fine_step late_env (FWhole (LPoll 0)) fs
      = Some (Fatal "panic: index out of range")).
Proof.
  split; [|split; [|split]].
  - destruct delivery_skips_one_and_repeats_another as (st & H1 & H2 & H3 & _).
    exists st. auto.
  - eexists. eexists. split; [vm_compute; reflexivity|].
    split; [reflexivity|]. split; [reflexivity|].
    split; [vm_compute; reflexivity|]. split; reflexivity.
  - eexists. split; [vm_compute; reflexivity|]. split; reflexivity.
  - eexists. eexists. split; [vm_compute; reflexivity|].
    split; [reflexivity|]. split; [reflexivity|]. split; reflexivity.
Qed.

(** ** Failures *)

Lemma run_fatal :
  forall E l ls st msg, step E l st = Some (Fatal msg) -> run E (l :: ls) st = Some (Fatal msg).
Proof. intros E l ls st msg H. cbn [run]. now rewrite H. Qed.

(** C4, as the code has it: [FindTouchSensor] looks the sensor up before
    it returns and has no error to return: when the lookup fails the
    process ends, whatever the program would have done next.
    [StartListening] returns at once, with the sensor listening and a
    poller that has not looked the sensor up yet; the lookup is the
    poller's first step and ends the process when it fails.  The motor
    lookup ends the process as well when no folder has the port. *)
Theorem lookup_failure_ends_process :
  forall E p,
    (forall msg,
        findSensor E 0 p TypeTouch = Fatal msg ->
        FindTouchSensor E p = Fatal msg /\
        forall ls, program E p ls = Some (Fatal msg)) /\
    (forall snr,
        findSensor E 0 p TypeTouch = Returned snr ->
        exists st,
          FindTouchSensor E p = Returned st /\ port (sensor st) = p /\
          isListening (sensor st) = false /\ pollers st = []) /\
    (forall st,
        caller st = CReady -> isListening (sensor st) = false ->
        step E LStart st = Some (Returned (StartListening st)) /\
        isListening (sensor (StartListening st)) = true /\
        pollers (StartListening st) = pollers st ++ [PFind] /\
        nfinds (StartListening st) = nfinds st) /\
    (forall st k msg,
        nth_error (pollers st) k = Some PFind ->
        findSensor E (nfinds st) (port (sensor st)) TypeTouch = Fatal msg ->
        forall ls, run E (LPoll k :: ls) st = Some (Fatal msg)) /\
    (forall t mport,
        Motor.entries t = None \/ Motor.entries t = Some [] ->
        Motor.findFolder t mport = Fatal "There are no motors connected") /\
    (forall t mport fs,
        Motor.entries t = Some fs ->
        Forall (fun f =>
                  exists mp,
                    Motor.ReadStringValue t (Motor.Join Motor.rootMotorPath f) Motor.portFD
                    = Returned mp /\ mp <> ("out" ++ mport)%string) fs ->
        exists msg, Motor.findFolder t mport = Fatal msg).
Proof.
  intros E p. split; [|split; [|split; [|split; [|split]]]].
  - intros msg Hf. unfold program, FindTouchSensor. rewrite Hf. simpl. auto.
  - intros snr Hf. unfold FindTouchSensor. rewrite Hf. simpl. eexists. repeat split.
  - intros st Hc Hl. simpl. unfold when_ready, StartListening. rewrite Hc, Hl. simpl. auto.
  - intros st k msg Hk Hf ls. apply run_fatal. simpl. unfold poll_step.
    now rewrite Hk, Hf.
  - intros t mport [H|H]; unfold Motor.findFolder; rewrite H; reflexivity.
  - intros t mport fs. apply findFolder_absent.
Qed.

Lemma lookup_failure_ends_process_witness :
  (findSensor (unplugged_after 0) 0 in1 TypeTouch = Fatal "sensor not found" /\
   forall ls, program (unplugged_after 0) in1 ls = Some (Fatal "sensor not found")) /\
  (caller built = CReady /\ isListening (sensor built) = false /\
   step (unplugged_after 1) LStart built = Some (Returned (StartListening built))) /\
  (nth_error (pollers (StartListening built)) 0 = Some PFind /\
   forall ls,
     run (unplugged_after 1) (LPoll 0 :: ls) (StartListening built)
     = Some (Fatal "sensor not found")).
Proof.
  destruct (lookup_failure_ends_process (unplugged_after 0) in1) as (H0 & _).
  destruct (lookup_failure_ends_process (unplugged_after 1) in1) as (_ & _ & H3 & H4 & _).
  split; [split; [reflexivity|exact (proj2 (H0 _ eq_refl))]|].
  split; [split; [reflexivity|split; [reflexivity|exact (proj1 (H3 built eq_refl eq_refl))]]|].
  split; [reflexivity|]. exact (H4 (StartListening built) 0 _ eq_refl eq_refl).
Defined.

(** No sensor is attached when the sensor object is built: no error comes
    back, the process ends.  And when the sensor is unplugged after the
    object was built, [StartListening] returns as if all were well; the
    failure comes later, in the poller, and ends the process. *)
Lemma no_error_comes_back :
  FindTouchSensor (unplugged_after 0) in1 = Fatal "sensor not found" /\
  (exists st,
      program (unplugged_after 1) in1 [LStart] = Some (Returned st) /\
      isListening (sensor st) = true /\ pollers st = [PFind] /\ caller st = CReady) /\
  program (unplugged_after 1) in1 [LStart; LPoll 0] = Some (Fatal "sensor not found").
Proof.
  split; [reflexivity|]. split; [|reflexivity].
  eexists. split; [vm_compute; reflexivity|]. repeat split.
Qed.




(** * More of the code: the motor commands *)

(** ** The folder lookup, exactly *)

Lemma scan_first_match :
  forall t port fs folder,
    Motor.scan t port fs = Returned folder <->
    exists before name after,
      fs = before ++ name :: after /\
      folder = Motor.Join Motor.rootMotorPath name /\
      Motor.ReadStringValue t folder Motor.portFD = Returned ("out" ++ port)%string /\
      Forall (fun f =>
                exists mp,
                  Motor.ReadStringValue t (Motor.Join Motor.rootMotorPath f) Motor.portFD
                  = Returned mp /\ mp <> ("out" ++ port)%string) before.
Proof.
  intros t port fs folder. induction fs as [|f fs IH]; cbn [Motor.scan].
  - split; [discriminate|].
    intros (before & name & after & H & _). destruct before; discriminate.
  - destruct (Motor.ReadStringValue t (Motor.Join Motor.rootMotorPath f) Motor.portFD)
      as [mp|msg] eqn:Hr; cbn [bind].
    + destruct (String.eqb mp ("out" ++ port)) eqn:Heq.
      * apply String.eqb_eq in Heq. subst mp. split.
        -- intros H. injection H as <-. exists [], f, fs. auto.
        -- intros (before & name & after & Hfs & -> & Hname & Hbefore).
           destruct before as [|b before]; simpl in Hfs; injection Hfs as -> ->.
           ++ reflexivity.
           ++ inversion Hbefore as [|? ? (mp & Hmp & Hne) _]; subst.
              rewrite Hr in Hmp. injection Hmp as <-. contradiction.
      * apply String.eqb_neq in Heq. rewrite IH. split.
        -- intros (before & name & after & -> & Hf & Hname & Hbefore).
           exists (f :: before), name, after. repeat split; auto.
           constructor; [exists mp; auto|exact Hbefore].
        -- intros (before & name & after & Hfs & Hf & Hname & Hbefore).
           destruct before as [|b before]; simpl in Hfs; injection Hfs as -> ->.
           ++ subst folder. rewrite Hr in Hname. injection Hname as ->. contradiction.
           ++ inversion Hbefore; subst. exists before, name, after. auto.
    + split; [discriminate|].
      intros (before & name & after & Hfs & -> & Hname & Hbefore).
      destruct before as [|b before]; simpl in Hfs; injection Hfs as -> ->.
      * rewrite Hr in Hname. discriminate.
      * inversion Hbefore as [|? ? (mp & Hmp & _) _]; subst.
        rewrite Hr in Hmp. discriminate.
Qed.

(** X1: [findFolder] returns a folder exactly when the motor directory
    lists an entry whose port attribute is the port asked for, after
    entries that are all read as other ports; the folder returned is that
    of the first such entry. *)
Theorem findFolder_first_match :
  forall t port folder,
    Motor.findFolder t port = Returned folder <->
    exists before name after,
      Motor.entries t = Some (before ++ name :: after) /\
      folder = Motor.Join Motor.rootMotorPath name /\
      Motor.ReadStringValue t folder Motor.portFD = Returned ("out" ++ port)%string /\
      Forall (fun f =>
                exists mp,
                  Motor.ReadStringValue t (Motor.Join Motor.rootMotorPath f) Motor.portFD
                  = Returned mp /\ mp <> ("out" ++ port)%string) before.
Proof.
  intros t port folder. unfold Motor.findFolder.
  destruct (Motor.entries t) as [fs|].
  - destruct fs as [|f fs].
    + simpl. split; [discriminate|].
      intros (before & name & after & H & _). injection H as H.
      destruct before; discriminate.
    + cbn [length Nat.eqb]. rewrite scan_first_match. split.
      * intros (before & name & after & -> & H). exists before, name, after. auto.
      * intros (before & name & after & H & H'). injection H as ->.
        exists before, name, after. auto.
  - split; [discriminate|]. intros (before & name & after & H & _). discriminate.
Qed.

(** ** Running a piece of code *)

Lemma and_then_Done :
  forall (A B : Type) (m : MotorOps.M A) (k : A -> MotorOps.M B) ws a ws',
    m ws = MotorOps.Done a ws' -> MotorOps.and_then m k ws = k a ws'.
Proof. intros A B m k ws a ws' H. unfold MotorOps.and_then. now rewrite H. Qed.

Lemma and_then_Died :
  forall (A B : Type) (m : MotorOps.M A) (k : A -> MotorOps.M B) ws msg ws',
    m ws = MotorOps.Died msg ws' ->
    MotorOps.and_then m k ws = MotorOps.Died msg ws'.
Proof. intros A B m k ws msg ws' H. unfold MotorOps.and_then. now rewrite H. Qed.

Lemma wrote_and_then :
  forall (A B : Type) (P : MotorOps.write -> Prop)
         (m : MotorOps.M A) (k : A -> MotorOps.M B) ws,
    MotorOps.wrote P ws (m ws) ->
    (forall a ws', m ws = MotorOps.Done a ws' -> MotorOps.wrote P ws' (k a ws')) ->
    MotorOps.wrote P ws (MotorOps.and_then m k ws).
Proof.
  intros A B P m k ws (new & Hnew & HP) Hk. unfold MotorOps.and_then.
  destruct (m ws) as [a ws'|msg ws'] eqn:Hm; simpl in Hnew; subst ws'.
  - destruct (Hk a _ eq_refl) as (new' & Hnew' & HP').
    exists (new ++ new'). rewrite Hnew', app_assoc. split; [reflexivity|].
    apply Forall_app. auto.
  - exists new. auto.
Qed.

Lemma wrote_nothing :
  forall (A : Type) (P : MotorOps.write -> Prop) ws (r : MotorOps.result A),
    MotorOps.writes_of r = ws -> MotorOps.wrote P ws r.
Proof. intros A P ws r H. exists []. rewrite app_nil_r. auto. Qed.

Lemma wrote_reading :
  forall (A : Type) (P : MotorOps.write -> Prop) (read : list MotorOps.write -> outcome A) ws,
    MotorOps.wrote P ws (MotorOps.reading read ws).
Proof.
  intros A P read ws. apply wrote_nothing. unfold MotorOps.reading.
  destruct (read ws); reflexivity.
Qed.

Lemma wrote_writing :
  forall (P : MotorOps.write -> Prop) D w ws,
    P w -> MotorOps.wrote P ws (MotorOps.writing D w ws).
Proof.
  intros P D w ws Hw. unfold MotorOps.writing.
  destruct (MotorOps.write_fails D ws w).
  - now apply wrote_nothing.
  - exists [w]. split; [reflexivity|]. repeat constructor. exact Hw.
Qed.

Lemma wrote_ret :
  forall (A : Type) (P : MotorOps.write -> Prop) (a : A) ws,
    MotorOps.wrote P ws (MotorOps.ret a ws).
Proof. intros. now apply wrote_nothing. Qed.

Lemma wrote_fatal :
  forall (A : Type) (P : MotorOps.write -> Prop) msg ws,
    MotorOps.wrote P ws (@MotorOps.fatal A msg ws).
Proof. intros. now apply wrote_nothing. Qed.

Lemma reading_inv :
  forall (A : Type) (read : list MotorOps.write -> outcome A) ws a ws',
    MotorOps.reading read ws = MotorOps.Done a ws' -> ws' = ws /\ read ws = Returned a.
Proof.
  intros A read ws a ws' H. unfold MotorOps.reading in H.
  destruct (read ws); inversion H; subst. auto.
Qed.

(** ** setSpeed and run *)

Lemma setSpeed_after_read :
  forall D folder (speed : Z) ws mode,
    Motor.ReadStringValue (MotorOps.tree_after D ws) folder MotorOps.regulationModeFD
    = Returned mode ->
    MotorOps.ReadStringValue D folder MotorOps.regulationModeFD ws = MotorOps.Done mode ws.
Proof.
  intros D folder speed ws mode Hmode.
  unfold MotorOps.ReadStringValue, MotorOps.reading. now rewrite Hmode.
Qed.

Lemma setSpeed_off_out :
  forall D folder speed ws,
    Motor.ReadStringValue (MotorOps.tree_after D ws) folder MotorOps.regulationModeFD
    = Returned "off"%string ->
    (speed < -100 \/ 100 < speed)%Z ->
    MotorOps.setSpeed D folder speed ws
    = MotorOps.Died "The speed must be in range [-100, 100]" ws.
Proof.
  intros D folder speed ws Hmode Hout. unfold MotorOps.setSpeed.
  rewrite (and_then_Done _ _ _ _ _ _ _ (setSpeed_after_read D folder speed ws _ Hmode)).
  change (String.eqb "off" "on") with false.
  change (String.eqb "off" "off") with true. cbv iota.
  assert (Hb : ((speed >? 100) || (speed <? -100))%Z = true).
  { apply orb_true_iff. destruct Hout; [right; lia|left; lia]. }
  rewrite Hb. reflexivity.
Qed.

Lemma setSpeed_off_in :
  forall D folder speed ws,
    Motor.ReadStringValue (MotorOps.tree_after D ws) folder MotorOps.regulationModeFD
    = Returned "off"%string ->
    (-100 <= speed <= 100)%Z ->
    MotorOps.setSpeed D folder speed ws
    = MotorOps.WriteIntValue D folder MotorOps.powerSetterFD speed ws.
Proof.
  intros D folder speed ws Hmode Hin. unfold MotorOps.setSpeed.
  rewrite (and_then_Done _ _ _ _ _ _ _ (setSpeed_after_read D folder speed ws _ Hmode)).
  change (String.eqb "off" "on") with false.
  change (String.eqb "off" "off") with true. cbv iota.
  assert (Hb : ((speed >? 100) || (speed <? -100))%Z = false).
  { apply orb_false_iff. split; lia. }
  rewrite Hb. reflexivity.
Qed.

Lemma setSpeed_on :
  forall D folder speed ws,
    Motor.ReadStringValue (MotorOps.tree_after D ws) folder MotorOps.regulationModeFD
    = Returned "on"%string ->
    MotorOps.setSpeed D folder speed ws
    = MotorOps.WriteIntValue D folder MotorOps.speedSetterFD speed ws.
Proof.
  intros D folder speed ws Hmode. unfold MotorOps.setSpeed.
  now rewrite (and_then_Done _ _ _ _ _ _ _ (setSpeed_after_read D folder speed ws _ Hmode)).
Qed.

Lemma setSpeed_other :
  forall D folder speed ws mode,
    Motor.ReadStringValue (MotorOps.tree_after D ws) folder MotorOps.regulationModeFD
    = Returned mode ->
    mode <> "on"%string -> mode <> "off"%string ->
    MotorOps.setSpeed D folder speed ws = MotorOps.Done tt ws.
Proof.
  intros D folder speed ws mode Hmode Hon Hoff. unfold MotorOps.setSpeed.
  rewrite (and_then_Done _ _ _ _ _ _ _ (setSpeed_after_read D folder speed ws _ Hmode)).
  apply String.eqb_neq in Hon. apply String.eqb_neq in Hoff.
  rewrite Hon, Hoff. reflexivity.
Qed.

(** X2: [setSpeed] checks the range only when the regulation attribute
    reads "off": there a speed outside [-100, 100] ends the process
    before anything is written, and a speed inside is written to
    duty_cycle_sp.  When the attribute reads "on", any speed is written to
    speed_sp.  When it reads anything else, [setSpeed] returns without
    writing. *)
Theorem setSpeed_by_mode :
  forall D folder speed ws mode,
    Motor.ReadStringValue (MotorOps.tree_after D ws) folder MotorOps.regulationModeFD
    = Returned mode ->
    (mode = "off"%string ->
     ((speed < -100 \/ 100 < speed)%Z ->
      MotorOps.setSpeed D folder speed ws
      = MotorOps.Died "The speed must be in range [-100, 100]" ws) /\
     ((-100 <= speed <= 100)%Z ->
      MotorOps.setSpeed D folder speed ws
      = MotorOps.WriteIntValue D folder MotorOps.powerSetterFD speed ws)) /\
    (mode = "on"%string ->
     MotorOps.setSpeed D folder speed ws
     = MotorOps.WriteIntValue D folder MotorOps.speedSetterFD speed ws) /\
    (mode <> "on"%string -> mode <> "off"%string ->
     MotorOps.setSpeed D folder speed ws = MotorOps.Done tt ws).
Proof.
  intros D folder speed ws mode Hmode. split; [|split].
  - intros ->. split; intros H.
    + now apply setSpeed_off_out.
    + now apply setSpeed_off_in.
  - intros ->. now apply setSpeed_on.
  - intros Hon Hoff. now apply (setSpeed_other D folder speed ws mode).
Qed.

(** X3: when the regulation attribute reads neither "on" nor "off",
    [run] writes the command and nothing else: the motor is started
    without the speed asked for having been written anywhere. *)
Theorem run_without_speed :
  forall D folder speed command ws mode,
    Motor.ReadStringValue (MotorOps.tree_after D ws) folder MotorOps.regulationModeFD
    = Returned mode ->
    mode <> "on"%string -> mode <> "off"%string ->
    MotorOps.run D folder speed command ws
    = MotorOps.WriteStringValue D folder MotorOps.runFD command ws.
Proof.
  intros D folder speed command ws mode Hmode Hon Hoff.
  unfold MotorOps.run.
  now rewrite (and_then_Done _ _ _ _ _ _ _
                 (setSpeed_other D folder speed ws mode Hmode Hon Hoff)).
Qed.

(** ** Every exported function *)

Lemma wrote_setSpeed :
  forall (P : MotorOps.write -> Prop) D folder speed ws,
    (forall name v, P (MotorOps.WriteInt folder name v)) ->
    MotorOps.wrote P ws (MotorOps.setSpeed D folder speed ws).
Proof.
  intros P D folder speed ws HP. unfold MotorOps.setSpeed.
  apply wrote_and_then; [apply wrote_reading|].
  intros mode ws' _.
  destruct (String.eqb mode "on"); [apply wrote_writing, HP|].
  destruct (String.eqb mode "off"); [|apply wrote_ret].
  apply wrote_and_then.
  - destruct ((speed >? 100)%Z || (speed <? -100)%Z); [apply wrote_fatal|apply wrote_ret].
  - intros _ ws'' _. apply wrote_writing, HP.
Qed.

Lemma wrote_run :
  forall (P : MotorOps.write -> Prop) D folder speed command ws,
    (forall w, MotorOps.folder_of w = folder -> P w) ->
    MotorOps.wrote P ws (MotorOps.run D folder speed command ws).
Proof.
  intros P D folder speed command ws HP. unfold MotorOps.run.
  apply wrote_and_then; [apply wrote_setSpeed; intros; now apply HP|].
  intros _ ws' _. apply wrote_writing. now apply HP.
Qed.

Lemma found_folder :
  forall D port ws f ws',
    MotorOps.findFolder D port ws = MotorOps.Done f ws' ->
    ws' = ws /\ Motor.findFolder (MotorOps.tree_after D ws) port = Returned f.
Proof.
  intros D port ws f ws' H. unfold MotorOps.findFolder in H.
  exact (reading_inv _ _ _ _ _ H).
Qed.

Ltac open_call :=
  unfold MotorOps.exec, MotorOps.forget, MotorOps.answer,
    MotorOps.RunForever, MotorOps.Rotate, MotorOps.RotateTo, MotorOps.RunFor,
    MotorOps.Stop, MotorOps.CurrentSpeed, MotorOps.CurrentPower,
    MotorOps.EnableRegulationMode, MotorOps.DisableRegulationMode,
    MotorOps.SetStopMode, MotorOps.CurrentPosition, MotorOps.InitializePosition,
    MotorOps.setAngle, MotorOps.setTime,
    MotorOps.WriteIntValue, MotorOps.WriteStringValue.

(** X4: when the lookup of the motor fails, every exported function ends
    the process with the message of the lookup and without any write. *)
Theorem no_motor_no_write :
  forall D port c ws msg,
    Motor.findFolder (MotorOps.tree_after D ws) port = Fatal msg ->
    MotorOps.exec D port c ws = MotorOps.Died msg ws.
Proof.
  intros D port c ws msg Hf.
  assert (H : MotorOps.findFolder D port ws = MotorOps.Died msg ws).
  { unfold MotorOps.findFolder, MotorOps.reading. now rewrite Hf. }
  destruct c; open_call;
    rewrite (and_then_Died _ _ _ _ ws msg ws); try reflexivity;
    apply and_then_Died; exact H.
Qed.

(** X5: every write of an exported function goes to the folder that the
    lookup found for the port, after the writes made before, which are
    kept. *)
Theorem writes_only_found_folder :
  forall D port c ws f,
    Motor.findFolder (MotorOps.tree_after D ws) port = Returned f ->
    MotorOps.wrote (fun w => MotorOps.folder_of w = f) ws (MotorOps.exec D port c ws).
Proof.
  intros D port c ws f Hf.
  assert (Hfound : forall g ws',
             MotorOps.findFolder D port ws = MotorOps.Done g ws' -> g = f /\ ws' = ws).
  { intros g ws' H. apply found_folder in H. destruct H as [-> H]. split; congruence. }
  destruct c; open_call;
    (apply wrote_and_then; [|intros; apply wrote_ret]);
    (apply wrote_and_then; [apply wrote_reading|]);
    intros g ws' Hg; destruct (Hfound _ _ Hg) as [-> ->];
    try (apply wrote_writing; reflexivity);
    try apply wrote_reading;
    try (apply wrote_run; auto);
    (apply wrote_and_then; [apply wrote_writing; reflexivity|]);
    intros; apply wrote_run; auto.
Qed.

Lemma died_clean_and_then :
  forall (A B : Type) (P : MotorOps.write -> Prop)
         (m : MotorOps.M A) (k : A -> MotorOps.M B) ws,
    MotorOps.wrote P ws (m ws) ->
    (forall a ws', m ws = MotorOps.Done a ws' -> MotorOps.died_clean P ws' (k a ws')) ->
    MotorOps.died_clean P ws (MotorOps.and_then m k ws).
Proof.
  intros A B P m k ws (new & Hnew & HP) Hk. unfold MotorOps.and_then.
  destruct (m ws) as [a ws'|msg ws'] eqn:Hm; simpl in Hnew; subst ws'.
  - specialize (Hk a _ eq_refl).
    destruct (k a (ws ++ new)) as [b ws''|msg ws'']; [exact I|].
    destruct Hk as (new' & -> & HP'). exists (new ++ new').
    rewrite app_assoc. split; [reflexivity|]. apply Forall_app. auto.
  - exists new. auto.
Qed.

Lemma died_clean_wrote :
  forall (A : Type) (P : MotorOps.write -> Prop) ws (r : MotorOps.result A),
    MotorOps.wrote P ws r -> MotorOps.died_clean P ws r.
Proof.
  intros A P ws r (new & Hnew & HP). destruct r; [exact I|]. exists new. auto.
Qed.

Lemma died_clean_writing :
  forall (P : MotorOps.write -> Prop) D w ws,
    MotorOps.died_clean P ws (MotorOps.writing D w ws).
Proof.
  intros P D w ws. unfold MotorOps.writing.
  destruct (MotorOps.write_fails D ws w); [|exact I].
  exists []. rewrite app_nil_r. auto.
Qed.

Lemma died_clean_run :
  forall D folder speed command ws,
    MotorOps.died_clean (fun w => MotorOps.is_command w = false) ws
      (MotorOps.run D folder speed command ws).
Proof.
  intros D folder speed command ws. unfold MotorOps.run.
  apply died_clean_and_then; [apply wrote_setSpeed; reflexivity|].
  intros _ ws' _. apply died_clean_writing.
Qed.

Lemma died_clean_returning :
  forall (A B : Type) (P : MotorOps.write -> Prop)
         (m : MotorOps.M A) (g : A -> B) ws,
    MotorOps.died_clean P ws (m ws) ->
    MotorOps.died_clean P ws (MotorOps.and_then m (fun a => MotorOps.ret (g a)) ws).
Proof.
  intros A B P m g ws H. unfold MotorOps.and_then.
  destruct (m ws); [exact I|exact H].
Qed.

(** X6: a call that ended the process has not started the motor: among
    the writes it made before the process ended, none is a write to the
    command file. *)
Theorem died_without_command :
  forall D port c ws msg ws',
    MotorOps.exec D port c ws = MotorOps.Died msg ws' ->
    exists new,
      ws' = ws ++ new /\ Forall (fun w => MotorOps.is_command w = false) new.
Proof.
  intros D port c ws msg ws' H.
  assert (Hc : MotorOps.died_clean (fun w => MotorOps.is_command w = false) ws
                 (MotorOps.exec D port c ws)).
  { destruct c; open_call;
      first [ apply (died_clean_returning _ _ _ _ (fun _ => None))
            | apply (died_clean_returning _ _ _ _ (fun v => Some v)) ];
      (apply died_clean_and_then; [apply wrote_reading|]); intros f ws1 _;
      first [ apply died_clean_run
            | apply died_clean_writing
            | apply died_clean_wrote, wrote_reading
            | apply died_clean_and_then;
              [apply wrote_writing; reflexivity|intros; apply died_clean_run] ]. }
  rewrite H in Hc. exact Hc.
Qed.

Lemma findFolder_Done :
  forall D port ws f,
    Motor.findFolder (MotorOps.tree_after D ws) port = Returned f ->
    MotorOps.findFolder D port ws = MotorOps.Done f ws.
Proof.
  intros D port ws f H. unfold MotorOps.findFolder, MotorOps.reading. now rewrite H.
Qed.

Lemma writing_Done :
  forall D w ws,
    MotorOps.write_fails D ws w = None ->
    MotorOps.writing D w ws = MotorOps.Done tt (ws ++ [w]).
Proof. intros D w ws H. unfold MotorOps.writing. now rewrite H. Qed.

Lemma run_dies_unregulated :
  forall D folder speed command ws,
    Motor.ReadStringValue (MotorOps.tree_after D ws) folder MotorOps.regulationModeFD
    = Returned "off"%string ->
    (speed < -100 \/ 100 < speed)%Z ->
    MotorOps.run D folder speed command ws
    = MotorOps.Died "The speed must be in range [-100, 100]" ws.
Proof.
  intros D folder speed command ws Hmode Hout.
  unfold MotorOps.run. apply and_then_Died. now apply setSpeed_off_out.
Qed.

(** X7: with regulation off and a speed outside [-100, 100], [Rotate],
    [RotateTo] and [RunFor] end the process after they have written the
    target (position_sp or time_sp): the target stays written although
    the call failed and the motor was not started.  [RunForever] ends the
    process before any write. *)
Theorem target_written_before_death :
  forall D port c ws f speed,
    Motor.findFolder (MotorOps.tree_after D ws) port = Returned f ->
    MotorOps.speed_of c = Some speed -> (speed < -100 \/ 100 < speed)%Z ->
    (forall w, In w (MotorOps.set_point_writes f c) -> MotorOps.write_fails D ws w = None) ->
    Motor.ReadStringValue
      (MotorOps.tree_after D (ws ++ MotorOps.set_point_writes f c)) f
      MotorOps.regulationModeFD = Returned "off"%string ->
    MotorOps.exec D port c ws
    = MotorOps.Died "The speed must be in range [-100, 100]"
        (ws ++ MotorOps.set_point_writes f c).
Proof.
  intros D port c ws f speed Hf Hs Hout Hw Hmode.
  pose proof (findFolder_Done _ _ _ _ Hf) as Hfound.
  destruct c; try discriminate; simpl in Hs; injection Hs as ->;
    unfold MotorOps.set_point_writes in *; simpl in Hw, Hmode |- *;
    open_call; apply and_then_Died;
    rewrite (and_then_Done _ _ _ _ _ _ _ Hfound).
  - rewrite app_nil_r in *. now apply run_dies_unregulated.
  - rewrite (and_then_Done _ _ _ _ _ _ _ (writing_Done _ _ _ (Hw _ (or_introl eq_refl)))).
    now apply run_dies_unregulated.
  - rewrite (and_then_Done _ _ _ _ _ _ _ (writing_Done _ _ _ (Hw _ (or_introl eq_refl)))).
    now apply run_dies_unregulated.
  - rewrite (and_then_Done _ _ _ _ _ _ _ (writing_Done _ _ _ (Hw _ (or_introl eq_refl)))).
    now apply run_dies_unregulated.
Qed.

Lemma done_wrote_writing :
  forall D w ws, MotorOps.done_wrote ws (MotorOps.writing D w ws).
Proof.
  intros D w ws. unfold MotorOps.writing.
  destruct (MotorOps.write_fails D ws w); [exact I|]. exists w, []. reflexivity.
Qed.

Lemma done_wrote_and_then :
  forall (A B : Type) (m : MotorOps.M A) (k : A -> MotorOps.M B) ws,
    MotorOps.wrote (fun _ => True) ws (m ws) ->
    (forall a ws', m ws = MotorOps.Done a ws' -> MotorOps.done_wrote ws' (k a ws')) ->
    MotorOps.done_wrote ws (MotorOps.and_then m k ws).
Proof.
  intros A B m k ws (new & Hnew & _) Hk. unfold MotorOps.and_then.
  destruct (m ws) as [a ws'|msg ws'] eqn:Hm; [|exact I]. simpl in Hnew. subst ws'.
  specialize (Hk a _ eq_refl).
  destruct (k a (ws ++ new)) as [b ws''|]; [|exact I].
  destruct Hk as (w & new' & ->). exists w, (new ++ new').
  now rewrite <- !app_assoc.
Qed.

Lemma done_wrote_returning :
  forall (A B : Type) (m : MotorOps.M A) (g : A -> B) ws,
    MotorOps.done_wrote ws (m ws) ->
    MotorOps.done_wrote ws (MotorOps.and_then m (fun a => MotorOps.ret (g a)) ws).
Proof.
  intros A B m g ws H. unfold MotorOps.and_then.
  destruct (m ws); [exact H|exact I].
Qed.

Lemma done_wrote_run :
  forall D folder speed command ws,
    MotorOps.done_wrote ws (MotorOps.run D folder speed command ws).
Proof.
  intros D folder speed command ws. unfold MotorOps.run.
  apply done_wrote_and_then; [apply wrote_setSpeed; intros; exact I|].
  intros _ ws' _. apply done_wrote_writing.
Qed.

(** X8: the functions that read ([CurrentSpeed], [CurrentPower],
    [CurrentPosition]) never write; every other exported function, when
    it returns, has written at least one file. *)
Theorem readers_never_write :
  forall D port c ws,
    (MotorOps.reads_value c = true ->
     MotorOps.writes_of (MotorOps.exec D port c ws) = ws) /\
    (MotorOps.reads_value c = false ->
     forall r ws', MotorOps.exec D port c ws = MotorOps.Done r ws' ->
                   exists w new, ws' = ws ++ new ++ [w]).
Proof.
  intros D port c ws. split.
  - intros Hc. destruct c; try discriminate; open_call;
      unfold MotorOps.and_then, MotorOps.findFolder, MotorOps.reading, MotorOps.ret;
      destruct (Motor.findFolder (MotorOps.tree_after D ws) port); try reflexivity;
      match goal with
      | |- context [MotorOps.ReadInt16Value ?D ?w ?f ?n] =>
          destruct (MotorOps.ReadInt16Value D w f n); reflexivity
      | |- context [MotorOps.ReadInt32Value ?D ?w ?f ?n] =>
          destruct (MotorOps.ReadInt32Value D w f n); reflexivity
      end.
  - intros Hc r ws' H.
    assert (Hd : MotorOps.done_wrote ws (MotorOps.exec D port c ws)).
    { destruct c; try discriminate; open_call;
        apply (done_wrote_returning _ _ _ (fun _ => None));
        (apply done_wrote_and_then; [apply wrote_reading|]); intros f ws1 _;
        first [ apply done_wrote_run
              | apply done_wrote_writing
              | apply done_wrote_and_then;
                [apply wrote_writing; exact I|intros; apply done_wrote_run] ]. }
    rewrite H in Hd. exact Hd.
Qed.

Lemma run_Done :
  forall D folder speed command ws mode fd,
    Motor.ReadStringValue (MotorOps.tree_after D ws) folder MotorOps.regulationModeFD
    = Returned mode ->
    (mode = "on"%string /\ fd = MotorOps.speedSetterFD) \/
    (mode = "off"%string /\ fd = MotorOps.powerSetterFD /\ (-100 <= speed <= 100)%Z) ->
    (forall ws' w, MotorOps.write_fails D ws' w = None) ->
    MotorOps.run D folder speed command ws
    = MotorOps.Done tt
        (ws ++ [MotorOps.WriteInt folder fd speed;
                MotorOps.WriteString folder MotorOps.runFD command]).
Proof.
  intros D folder speed command ws mode fd Hmode Hcase Hw.
  assert (Hs : MotorOps.setSpeed D folder speed ws
               = MotorOps.Done tt (ws ++ [MotorOps.WriteInt folder fd speed])).
  { destruct Hcase as [[-> ->]|(-> & -> & Hin)].
    - rewrite (setSpeed_on _ _ _ _ Hmode). apply writing_Done, Hw.
    - rewrite (setSpeed_off_in _ _ _ _ Hmode Hin). apply writing_Done, Hw. }
  unfold MotorOps.run. rewrite (and_then_Done _ _ _ _ _ _ _ Hs).
  unfold MotorOps.WriteStringValue. rewrite writing_Done by apply Hw.
  now rewrite <- app_assoc.
Qed.

(** X9: a call that moves the motor and returns has written, in this
    order and to the folder of the motor: its target if it has one
    (position_sp for [Rotate] and [RotateTo], time_sp for [RunFor]), the
    speed (to speed_sp when regulation reads "on", to duty_cycle_sp when
    it reads "off"), and last its command. *)
Theorem motion_writes_in_order :
  forall D port c ws f speed mode fd,
    Motor.findFolder (MotorOps.tree_after D ws) port = Returned f ->
    MotorOps.speed_of c = Some speed ->
    (forall ws' w, MotorOps.write_fails D ws' w = None) ->
    Motor.ReadStringValue
      (MotorOps.tree_after D (ws ++ MotorOps.set_point_writes f c)) f
      MotorOps.regulationModeFD = Returned mode ->
    (mode = "on"%string /\ fd = MotorOps.speedSetterFD) \/
    (mode = "off"%string /\ fd = MotorOps.powerSetterFD /\ (-100 <= speed <= 100)%Z) ->
    MotorOps.exec D port c ws
    = MotorOps.Done None
        (ws ++ MotorOps.set_point_writes f c
            ++ [MotorOps.WriteInt f fd speed;
                MotorOps.WriteString f MotorOps.runFD (MotorOps.command_of c)]).
Proof.
  intros D port c ws f speed mode fd Hf Hs Hw Hmode Hcase.
  pose proof (findFolder_Done _ _ _ _ Hf) as Hfound.
  destruct c; try discriminate; simpl in Hs; injection Hs as ->;
    unfold MotorOps.set_point_writes in *; simpl in Hmode |- *;
    open_call; unfold MotorOps.and_then at 1;
    rewrite (and_then_Done _ _ _ _ _ _ _ Hfound).
  - rewrite app_nil_r in Hmode.
    now rewrite (run_Done _ _ _ _ _ _ _ Hmode Hcase Hw).
  - rewrite (and_then_Done _ _ _ _ _ _ _ (writing_Done _ _ _ (Hw _ _))).
    rewrite (run_Done _ _ _ _ _ _ _ Hmode Hcase Hw). now rewrite <- app_assoc.
  - rewrite (and_then_Done _ _ _ _ _ _ _ (writing_Done _ _ _ (Hw _ _))).
    rewrite (run_Done _ _ _ _ _ _ _ Hmode Hcase Hw). now rewrite <- app_assoc.
  - rewrite (and_then_Done _ _ _ _ _ _ _ (writing_Done _ _ _ (Hw _ _))).
    rewrite (run_Done _ _ _ _ _ _ _ Hmode Hcase Hw). now rewrite <- app_assoc.
Qed.

Lemma switch_Done :
  forall D port ws f v,
    Motor.findFolder (MotorOps.tree_after D ws) port = Returned f ->
    (forall ws' w, MotorOps.write_fails D ws' w = None) ->
    MotorOps.and_then (MotorOps.findFolder D port)
      (fun folder => MotorOps.WriteStringValue D folder MotorOps.regulationModeFD v) ws
    = MotorOps.Done tt (ws ++ [MotorOps.WriteString f MotorOps.regulationModeFD v]).
Proof.
  intros D port ws f v Hf Hw.
  rewrite (and_then_Done _ _ _ _ _ _ _ (findFolder_Done _ _ _ _ Hf)).
  apply writing_Done, Hw.
Qed.

(** X10: on files that read back the regulation mode written to them,
    [EnableRegulationMode] followed by [RunForever] writes any speed to
    speed_sp and starts the motor, while [DisableRegulationMode] followed
    by [RunForever] starts it only for a speed in [-100, 100], written to
    duty_cycle_sp, and otherwise ends the process with only the mode
    written. *)
Theorem regulation_switch :
  forall D port ws f speed,
    Motor.findFolder (MotorOps.tree_after D ws) port = Returned f ->
    (forall v,
        Motor.findFolder
          (MotorOps.tree_after D (ws ++ [MotorOps.WriteString f MotorOps.regulationModeFD v]))
          port = Returned f) ->
    (forall v,
        Motor.ReadStringValue
          (MotorOps.tree_after D (ws ++ [MotorOps.WriteString f MotorOps.regulationModeFD v]))
          f MotorOps.regulationModeFD = Returned v) ->
    (forall ws' w, MotorOps.write_fails D ws' w = None) ->
    MotorOps.exec_all D port [MotorOps.CEnableRegulationMode; MotorOps.CRunForever speed] ws
    = MotorOps.Done tt
        (ws ++ [MotorOps.WriteString f MotorOps.regulationModeFD "on";
                MotorOps.WriteInt f MotorOps.speedSetterFD speed;
                MotorOps.WriteString f MotorOps.runFD MotorOps.runForeverCommand]) /\
    ((-100 <= speed <= 100)%Z ->
     MotorOps.exec_all D port [MotorOps.CDisableRegulationMode; MotorOps.CRunForever speed] ws
     = MotorOps.Done tt
         (ws ++ [MotorOps.WriteString f MotorOps.regulationModeFD "off";
                 MotorOps.WriteInt f MotorOps.powerSetterFD speed;
                 MotorOps.WriteString f MotorOps.runFD MotorOps.runForeverCommand])) /\
    ((speed < -100 \/ 100 < speed)%Z ->
     MotorOps.exec_all D port [MotorOps.CDisableRegulationMode; MotorOps.CRunForever speed] ws
     = MotorOps.Died "The speed must be in range [-100, 100]"
         (ws ++ [MotorOps.WriteString f MotorOps.regulationModeFD "off"])).
Proof.
  intros D port ws f speed Hf Hf' Hback Hw.
  assert (Hswitch : forall c v,
             (c = MotorOps.CEnableRegulationMode /\ v = "on"%string) \/
             (c = MotorOps.CDisableRegulationMode /\ v = "off"%string) ->
             MotorOps.exec D port c ws
             = MotorOps.Done None (ws ++ [MotorOps.WriteString f MotorOps.regulationModeFD v])).
  { intros c v [[-> ->]|[-> ->]]; cbn [MotorOps.exec];
      unfold MotorOps.forget, MotorOps.EnableRegulationMode, MotorOps.DisableRegulationMode;
      now rewrite (and_then_Done _ _ _ _ _ _ _ (switch_Done D port ws f _ Hf Hw)). }
  assert (Hrun : forall v,
             MotorOps.exec D port (MotorOps.CRunForever speed)
               (ws ++ [MotorOps.WriteString f MotorOps.regulationModeFD v])
             = MotorOps.and_then
                 (MotorOps.run D f speed MotorOps.runForeverCommand)
                 (fun _ => MotorOps.ret None)
                 (ws ++ [MotorOps.WriteString f MotorOps.regulationModeFD v])).
  { intros v. cbn [MotorOps.exec]. unfold MotorOps.forget, MotorOps.RunForever.
    unfold MotorOps.and_then at 1.
    now rewrite (and_then_Done _ _ _ _ _ _ _ (findFolder_Done _ _ _ _ (Hf' v))). }
  split; [|split].
  - cbn [MotorOps.exec_all].
    rewrite (and_then_Done _ _ _ _ _ _ _
               (Hswitch _ "on"%string (or_introl (conj eq_refl eq_refl)))).
    unfold MotorOps.and_then at 1. rewrite Hrun.
    rewrite (and_then_Done _ _ _ _ _ _ _
               (run_Done D f speed _ _ _ MotorOps.speedSetterFD (Hback _)
                  (or_introl (conj eq_refl eq_refl)) Hw)).
    unfold MotorOps.ret. now rewrite <- app_assoc.
  - intros Hin. cbn [MotorOps.exec_all].
    rewrite (and_then_Done _ _ _ _ _ _ _
               (Hswitch _ "off"%string (or_intror (conj eq_refl eq_refl)))).
    unfold MotorOps.and_then at 1. rewrite Hrun.
    rewrite (and_then_Done _ _ _ _ _ _ _
               (run_Done D f speed _ _ _ MotorOps.powerSetterFD (Hback _)
                  (or_intror (conj eq_refl (conj eq_refl Hin))) Hw)).
    unfold MotorOps.ret. now rewrite <- app_assoc.
  - intros Hout. cbn [MotorOps.exec_all].
    rewrite (and_then_Done _ _ _ _ _ _ _
               (Hswitch _ "off"%string (or_intror (conj eq_refl eq_refl)))).
    apply and_then_Died. rewrite Hrun. apply and_then_Died.
    now apply run_dies_unregulated.
Qed.

(** * More of the code: the touch sensor *)

(** ** indexOf *)

(** X11: [indexOf] returns -1 exactly when the channel is not in the
    registry; otherwise it returns the index of the first cell that holds
    the channel, which is within the bounds of the registry. *)
Theorem indexOf_first_occurrence :
  forall st ch,
    (indexOf st ch = (-1)%Z <-> ~ In ch (registry st)) /\
    (In ch (registry st) ->
     (0 <= indexOf st ch < Z.of_nat (length (registry st)))%Z /\
     nth_error (registry st) (Z.to_nat (indexOf st ch)) = Some ch /\
     ~ In ch (firstn (Z.to_nat (indexOf st ch)) (registry st))).
Proof.
  intros st ch. unfold indexOf. generalize (registry st) as r. intros r. split.
  - split.
    + intros H Hin. destruct (split_first ch r Hin) as (l1 & l2 & -> & Hn).
      rewrite indexOf_from_first in H by exact Hn. lia.
    + apply indexOf_from_absent.
  - intros Hin. destruct (split_first ch r Hin) as (l1 & l2 & -> & Hn).
    rewrite indexOf_from_first by exact Hn.
    replace (Z.to_nat (0 + Z.of_nat (length l1))) with (length l1) by lia.
    split; [rewrite length_app; simpl; lia|]. split.
    + rewrite nth_error_app2 by lia. now rewrite Nat.sub_diag.
    + now rewrite firstn_app_exact.
Qed.

(** ** StopNotify works in place *)

Lemma nth_error_write_at_above :
  forall a i xs j,
    i + length xs <= length a -> i + length xs <= j ->
    nth_error (write_at a i xs) j = nth_error a j.
Proof.
  intros a i xs j Hfit Hj. unfold write_at.
  rewrite app_assoc, nth_error_app2; rewrite length_app, length_firstn; [|lia].
  replace (Nat.min i (length a)) with i by lia.
  rewrite nth_error_skipn. f_equal. lia.
Qed.

(** X12: [StopNotify] of a registered channel allocates nothing: the
    slice keeps its array and is one shorter, and the cells of the array
    from the last cell of the old registry on are left as they were, so
    the array still holds the channel that was last in the registry. *)
Theorem StopNotify_in_place :
  forall E ch st,
    wf_state st -> In ch (registry st) ->
    length (mem (StopNotify E ch st)) = length (mem st) /\
    arr (channels (sensor (StopNotify E ch st))) = arr (channels (sensor st)) /\
    S (len (channels (sensor (StopNotify E ch st)))) = len (channels (sensor st)) /\
    forall j,
      len (channels (sensor (StopNotify E ch st))) <= j ->
      nth_error (backing (mem (StopNotify E ch st))
                         (channels (sensor (StopNotify E ch st)))) j
      = nth_error (backing (mem st) (channels (sensor st))) j.
Proof.
  intros E ch st Hwf Hin.
  pose proof (length_registry st Hwf) as Hlen.
  destruct (split_first ch _ Hin) as (l1 & l2 & Heq & Hn1).
  rewrite Heq, length_app in Hlen. simpl in Hlen.
  unfold StopNotify, indexOf.
  rewrite Heq, indexOf_from_first by exact Hn1.
  destruct (Z.eqb_spec (0 + Z.of_nat (length l1)) (-1)); [lia|]. simpl negb. cbv iota.
  replace (Z.to_nat (0 + Z.of_nat (length l1))) with (length l1) by lia.
  fold (registry st). rewrite Heq.
  replace (skipn (length l1 + 1) (l1 ++ ch :: l2)) with l2.
  2:{ rewrite skipn_app. rewrite skipn_all2 by lia.
      replace (length l1 + 1 - length l1) with 1 by lia. reflexivity. }
  destruct Hwf as [Ha Hl].
  unfold append, backing in *. simpl arr. simpl len.
  destruct (Nat.leb_spec (length l1 + length l2)
                         (length (nth (arr (channels (sensor st))) (mem st) [])))
    as [Hfit|Hfit]; [|lia].
  simpl. rewrite length_update. split; [reflexivity|]. split; [reflexivity|].
  split; [lia|]. intros j Hj.
  rewrite nth_update_same by exact Ha.
  apply nth_error_write_at_above; lia.
Qed.

(** ** StopListening during a delivery *)

Lemma skipn_nth_error :
  forall (A : Type) (l : list A) i x,
    nth_error l i = Some x -> skipn i l = x :: skipn (S i) l.
Proof.
  induction l as [|y l IH]; intros i x Hi; [destruct i; discriminate|].
  destruct i; simpl in *.
  - now inversion Hi.
  - now apply IH.
Qed.

Lemma nth_error_elems :
  forall h s i, i < len s -> nth_error (elems h s) i = nth_error (backing h s) i.
Proof.
  intros h s i Hi. unfold elems.
  rewrite <- (firstn_skipn (len s) (backing h s)) at 2.
  destruct (Nat.le_gt_cases (len s) (length (backing h s))) as [Hl|Hl].
  - rewrite nth_error_app1; [reflexivity|]. rewrite length_firstn. lia.
  - rewrite skipn_all2 by lia. now rewrite app_nil_r.
Qed.

(** X13: [StopListening] does not interrupt a delivery.  When the caller
    blocks in it while the poller is in its [range] loop, the poller
    first sends the value to every remaining cell of the slice it took,
    without reading the sensor again, and only then takes the stop
    signal: the caller returns after the poller's next [len s - i + 2]
    steps, with the sensor idle and the poller gone. *)
Theorem StopListening_finishes_delivery :
  forall E st k path cur value s i,
    wf_slice (mem st) s -> caller st = CStopping ->
    nth_error (pollers st) k = Some (PRange path cur value s i) ->
    exists st',
      run E (repeat (LPoll k) (2 + (len s - i))) st = Some (Returned st') /\
      caller st' = CReady /\ isListening (sensor st') = false /\
      nth_error (pollers st') k = Some PDone /\
      nreads st' = nreads st /\
      issued st' = issued st ++ fan_out (skipn i (elems (mem st) s)) value /\
      senders st' = senders st ++ fan_out (skipn i (elems (mem st) s)) value.
Proof.
  intros E st k path cur value s i Hwf Hc Hk.
  remember (len s - i) as n eqn:Hn. revert st i Hwf Hc Hk Hn.
  induction n as [|n IH]; intros st i Hwf Hc Hk Hn.
  - assert (Hi : len s <= i) by lia.
    set (st1 := set_poller st k (PSelect path value)).
    assert (Hk1 : nth_error (pollers st1) k = Some (PSelect path value))
      by (eapply nth_error_set_poller; exact Hk).
    exists (StopListening_leave (set_poller st1 k PDone)).
    split.
    + cbn [repeat Nat.add]. rewrite (run_cons _ _ _ _ _ (range_end E st k _ _ _ _ _ Hk Hi)).
      fold st1. cbn [run step]. unfold poll_step. rewrite Hk1.
      change (caller st1) with (caller st). rewrite Hc. reflexivity.
    + assert (Hnil : skipn i (elems (mem st) s) = []).
      { apply skipn_all2. unfold elems. rewrite length_firstn. lia. }
      rewrite Hnil. simpl. rewrite !app_nil_r.
      repeat split.
      apply nth_error_update_same. rewrite length_update.
      eapply nth_error_Some_lt. exact Hk.
  - assert (Hi : i < len s) by lia.
    destruct (nth_error (backing (mem st) s) i) as [ch|] eqn:Hnth.
    2:{ apply nth_error_None in Hnth. destruct Hwf as [_ Hl]. lia. }
    set (st1 := go_sendEvent (set_poller st k (PRange path cur value s (S i))) ch value).
    assert (Hk1 : nth_error (pollers st1) k = Some (PRange path cur value s (S i)))
      by (eapply nth_error_set_poller; exact Hk).
    destruct (IH st1 (S i) Hwf Hc Hk1 ltac:(lia))
      as (st' & Hrun & Hc' & Hl' & Hk' & Hr' & Hi' & Hs').
    exists st'. split.
    + change (2 + S n) with (S (2 + n)). cbn [repeat].
      rewrite (run_cons _ _ _ _ _ (range_send E st k _ _ _ _ _ _ Hk Hi Hnth)).
      exact Hrun.
    + assert (Hskip : skipn i (elems (mem st) s) = ch :: skipn (S i) (elems (mem st) s)).
      { apply skipn_nth_error. now rewrite nth_error_elems. }
      rewrite Hskip. change (mem st1) with (mem st) in *.
      simpl fan_out. repeat split; try assumption.
      * rewrite Hi'. simpl. now rewrite <- app_assoc.
      * rewrite Hs'. simpl. now rewrite <- app_assoc.
Qed.

(** ** Pending sends are never cancelled *)

Lemma step_keeps_senders :
  forall E l st st',
    no_recv l = true -> step E l st = Some (Returned st') ->
    (exists new, senders st' = senders st ++ new) /\ received st' = received st.
Proof.
  intros E l st st' Hl Hstep.
  assert (Hsame : forall st0 : state,
             senders st0 = senders st -> received st0 = received st ->
             (exists new, senders st0 = senders st ++ new) /\ received st0 = received st).
  { intros st0 Hs Hr. split; [exists []; now rewrite app_nil_r|exact Hr]. }
  destruct l; simpl in Hstep; try discriminate.
  - ready_step Hstep. unfold StartListening.
    destruct (isListening (sensor st)); now apply Hsame.
  - ready_step Hstep. unfold StopListening_enter.
    destruct (isListening (sensor st)); now apply Hsame.
  - ready_step Hstep.
    destruct (Notify_same_tasks E ch st) as (_ & _ & _ & _ & Hs & _ & _ & _ & Hr).
    now apply Hsame.
  - ready_step Hstep.
    destruct (StopNotify_same_tasks E ch st) as (_ & _ & _ & _ & Hs & _ & _ & _ & Hr).
    now apply Hsame.
  - poll_cases Hstep k.
    + destruct (findSensor E (nfinds st) (port (sensor st)) TypeTouch);
        simpl in Hstep; inv_some Hstep. now apply Hsame.
    + destruct (ReadUInt8Value E (nreads st) path value0);
        simpl in Hstep; inv_some Hstep. now apply Hsame.
    + destruct (caller st).
      * destruct (ReadUInt8Value E (nreads st) path value0);
          simpl in Hstep; inv_some Hstep. now apply Hsame.
      * inv_some Hstep. now apply Hsame.
    + destruct (i <? len s).
      * destruct (nth_error (backing (mem st) s) i) as [c|]; inv_some Hstep.
        simpl. split; [now exists [(c, value)]|reflexivity].
      * inv_some Hstep. now apply Hsame.
Qed.

(** X14: nothing but a subscriber taking the value ends a pending
    [sendEvent]: whatever calls the caller makes ([StopNotify] of the
    channel and [StopListening] among them) and whatever the pollers do,
    a send that was pending is still pending, at the same place, and its
    value can still be taken from the channel afterwards. *)
Theorem pending_sends_survive :
  forall E ls st st',
    forallb no_recv ls = true -> run E ls st = Some (Returned st') ->
    (exists new, senders st' = senders st ++ new) /\
    received st' = received st /\
    forall k ch v,
      nth_error (senders st) k = Some (ch, v) -> ch <> 0 ->
      exists st'',
        step E (LRecv k) st' = Some (Returned st'') /\
        received st'' = received st ++ [(ch, v)] /\
        senders st'' = remove_nth (senders st') k.
Proof.
  intros E ls st st' Hls Hrun.
  assert (H : (exists new, senders st' = senders st ++ new) /\ received st' = received st).
  { revert st Hls Hrun. induction ls as [|l ls IH]; intros st Hls Hrun.
    - simpl in Hrun. inv_some Hrun. split; [exists []; now rewrite app_nil_r|reflexivity].
    - simpl in Hls. apply andb_prop in Hls. destruct Hls as [Hl Hls].
      cbn [run] in Hrun.
      destruct (step E l st) as [[st1|]|] eqn:Hstep; try discriminate.
      destruct (step_keeps_senders _ _ _ _ Hl Hstep) as [(new1 & Hs1) Hr1].
      destruct (IH st1 Hls Hrun) as [(new & Hs) Hr].
      split; [|congruence].
      exists (new1 ++ new). now rewrite Hs, Hs1, app_assoc. }
  destruct H as [(new & Hs) Hr].
  split; [now exists new|]. split; [exact Hr|].
  intros k ch v Hk Hch.
  assert (Hk' : nth_error (senders st') k = Some (ch, v)).
  { rewrite Hs, nth_error_app1; [exact Hk|]. eapply nth_error_Some_lt. exact Hk. }
  eexists. simpl. unfold sendEvent. rewrite Hk'.
  apply Nat.eqb_neq in Hch. rewrite Hch. split; [reflexivity|].
  simpl. now rewrite Hr.
Qed.

(** ** The nil channel *)

Lemma on_chan_remove_nth :
  forall c l k ch v,
    nth_error l k = Some (ch, v) -> ch <> c ->
    on_chan c (remove_nth l k) = on_chan c l.
Proof.
  intros c l k ch v Hk Hne.
  destruct (remove_nth_split _ _ _ _ Hk) as [Hl Hr]. rewrite Hr.
  set (a := firstn k l) in *. set (b := skipn (S k) l) in *. rewrite Hl.
  rewrite !on_chan_app. f_equal. unfold on_chan. cbn [filter fst].
  destruct (Nat.eqb_spec ch c); [contradiction|reflexivity].
Qed.

Lemma nil_blocked_step :
  forall E l st st',
    nil_blocked st -> step E l st = Some (Returned st') -> nil_blocked st'.
Proof.
  intros E l st st' [Hr Hs] Hstep. unfold nil_blocked in *.
  destruct l; simpl in Hstep.
  - ready_step Hstep. unfold StartListening.
    destruct (isListening (sensor st)); auto.
  - ready_step Hstep. unfold StopListening_enter.
    destruct (isListening (sensor st)); auto.
  - ready_step Hstep.
    destruct (Notify_same_tasks E ch st) as (_ & _ & _ & _ & H1 & _ & _ & H2 & H3).
    now rewrite H1, H2, H3.
  - ready_step Hstep.
    destruct (StopNotify_same_tasks E ch st) as (_ & _ & _ & _ & H1 & _ & _ & H2 & H3).
    now rewrite H1, H2, H3.
  - poll_cases Hstep k.
    + destruct (findSensor E (nfinds st) (port (sensor st)) TypeTouch);
        simpl in Hstep; inv_some Hstep. auto.
    + destruct (ReadUInt8Value E (nreads st) path value0);
        simpl in Hstep; inv_some Hstep. auto.
    + destruct (caller st).
      * destruct (ReadUInt8Value E (nreads st) path value0);
          simpl in Hstep; inv_some Hstep. auto.
      * inv_some Hstep. auto.
    + destruct (i <? len s).
      * destruct (nth_error (backing (mem st) s) i) as [c|]; inv_some Hstep.
        simpl. rewrite !on_chan_app, Hs. auto.
      * inv_some Hstep. auto.
  - unfold sendEvent in Hstep.
    destruct (nth_error (senders st) k) as [[ch val]|] eqn:Hk; [|discriminate].
    destruct (Nat.eqb_spec ch 0) as [|Hne]; inv_some Hstep. simpl.
    rewrite on_chan_app, Hr, (on_chan_remove_nth 0 _ _ _ _ Hk Hne). simpl.
    destruct (Nat.eqb_spec ch 0); [contradiction|]. auto.
Qed.

(** X15: [Notify] accepts the nil channel like any other, and a value
    sent to it is never taken: in every state of every program, nothing
    was received from the nil channel, no pending send to it can
    complete, and every send ever issued to it is still pending. *)
Theorem nil_channel_blocks_for_ever :
  forall E p st,
    reachable E p st ->
    In 0 (registry (Notify E 0 st)) /\
    on_chan 0 (received st) = [] /\
    on_chan 0 (senders st) = on_chan 0 (issued st) /\
    (forall k v, nth_error (senders st) k = Some (0, v) -> step E (LRecv k) st = None).
Proof.
  intros E p st Hreach.
  assert (Hnil : nil_blocked st).
  { induction Hreach as [st H|st l st' _ IH Hstep].
    - unfold FindTouchSensor in H.
      destruct (findSensor E 0 p TypeTouch); simpl in H; [|discriminate].
      inv_some H. split; reflexivity.
    - eapply nil_blocked_step; eassumption. }
  destruct Hnil as [Hr Hs].
  split; [|split; [exact Hr|split; [exact Hs|]]].
  - destruct (mem_inv_reachable _ _ _ Hreach) as [Hwf _].
    destruct (Notify_registry E 0 st Hwf) as [_ [[Hin ->]|[_ ->]]]; [exact Hin|].
    apply in_or_app. right. now left.
  - intros k v Hk. simpl. unfold sendEvent. now rewrite Hk.
Qed.

(** ** Listening again *)

(** X16: [StartListening] on an idle sensor starts from nothing the last
    session knew: the new poller looks the sensor up again and takes the
    value it reads then as the value to compare with, sending nothing;
    it sends nothing either as long as the reads give that value,
    whatever value the session before saw last. *)
Theorem restart_takes_fresh_baseline :
  forall E st snr v,
    caller st = CReady -> isListening (sensor st) = false ->
    findSensor E (nfinds st) (port (sensor st)) TypeTouch = Returned snr ->
    ReadUInt8Value E (nreads st) (sensor_path E snr) value0 = Returned v ->
    exists st',
      run E [LStart; LPoll (length (pollers st)); LPoll (length (pollers st))] st
      = Some (Returned st') /\
      pollers st' = pollers st ++ [PSelect (sensor_path E snr) v] /\
      isListening (sensor st') = true /\
      nfinds st' = S (nfinds st) /\ nreads st' = S (nreads st) /\
      issued st' = issued st /\ senders st' = senders st /\
      (ReadUInt8Value E (nreads st') (sensor_path E snr) value0 = Returned v ->
       exists st'',
         step E (LPoll (length (pollers st))) st' = Some (Returned st'') /\
         pollers st'' = pollers st' /\ issued st'' = issued st' /\
         senders st'' = senders st').
Proof.
  intros E st snr v Hc Hl Hf Hr.
  set (k := length (pollers st)).
  set (st1 := StartListening st).
  assert (Hp1 : pollers st1 = pollers st ++ [PFind])
    by (unfold st1, StartListening; now rewrite Hl).
  assert (Hs1 : step E LStart st = Some (Returned st1))
    by (simpl; unfold when_ready; now rewrite Hc).
  set (st2 := count_find (set_poller st1 k (PBase (sensor_path E snr)))).
  assert (Hs2 : step E (LPoll k) st1 = Some (Returned st2)).
  { change (step E (LPoll k) st1) with (poll_step E k st1).
    unfold poll_step. rewrite Hp1. unfold k at 1. rewrite nth_error_last.
    replace (nfinds st1) with (nfinds st)
      by (unfold st1, StartListening; now rewrite Hl).
    replace (port (sensor st1)) with (port (sensor st))
      by (unfold st1, StartListening; now rewrite Hl).
    rewrite Hf. reflexivity. }
  assert (Hp2 : pollers st2 = pollers st ++ [PBase (sensor_path E snr)])
    by (simpl; rewrite Hp1; apply update_last).
  set (st3 := count_read (set_poller st2 k (PSelect (sensor_path E snr) v))).
  assert (Hn2 : nreads st2 = nreads st)
    by (unfold st2, st1, StartListening; now rewrite Hl).
  assert (Hs3 : step E (LPoll k) st2 = Some (Returned st3)).
  { change (step E (LPoll k) st2) with (poll_step E k st2).
    unfold poll_step. rewrite Hp2. unfold k at 1. rewrite nth_error_last.
    rewrite Hn2, Hr. reflexivity. }
  assert (Hp3 : pollers st3 = pollers st ++ [PSelect (sensor_path E snr) v]).
  { change (pollers st3)
      with (update (pollers st2) k (PSelect (sensor_path E snr) v)).
    rewrite Hp2. apply update_last. }
  exists st3. split.
  { rewrite (run_cons _ _ _ _ _ Hs1), (run_cons _ _ _ _ _ Hs2), (run_cons _ _ _ _ _ Hs3).
    reflexivity. }
  split; [exact Hp3|].
  assert (Hc3 : caller st3 = CReady)
    by (unfold st3, st2, st1, StartListening; rewrite Hl; exact Hc).
  unfold st3, st2, st1, StartListening. rewrite Hl. simpl.
  do 5 (split; [reflexivity|]).
  intros Hr'.
  assert (Hk3 : nth_error (pollers st3) k = Some (PSelect (sensor_path E snr) v))
    by (rewrite Hp3; apply nth_error_last).
  pose proof (tick_same E st3 k _ _ Hc3 Hk3) as Ht.
  unfold st3, st2, st1, StartListening in Ht. rewrite Hl in Ht. simpl in Ht.
  specialize (Ht Hr'). simpl. rewrite Ht.
  eexists. split; [reflexivity|]. simpl.
  split; [|split; reflexivity].
  fold k.
  replace (update (update (pollers st ++ [PFind]) k (PBase (sensor_path E snr))) k
             (PSelect (sensor_path E snr) v))
    with (pollers st ++ [PSelect (sensor_path E snr) v]).
  - apply update_last.
  - unfold k. now rewrite !update_last.
Qed.

(** * The properties above, on two motors and on a sensor at work *)

(** ** Two motors, at the ports A and B, both unregulated *)

Lemma setSpeed_by_mode_witness :
  Motor.ReadStringValue
    (MotorOps.tree_after (MotorOps.kv_driver MotorOps.two_motors) [])
    MotorOps.motor1 MotorOps.regulationModeFD = Returned "off"%string /\
  MotorOps.setSpeed (MotorOps.kv_driver MotorOps.two_motors) MotorOps.motor1 150 []
  = MotorOps.Died "The speed must be in range [-100, 100]"%string [] /\
  MotorOps.setSpeed (MotorOps.kv_driver MotorOps.two_motors) MotorOps.motor1 (-100) []
  = MotorOps.Done tt [MotorOps.WriteInt MotorOps.motor1 "duty_cycle_sp"%string (-100)].
Proof.
  split; [reflexivity|]. split.
  - apply (proj1 (setSpeed_by_mode (MotorOps.kv_driver MotorOps.two_motors)
                    MotorOps.motor1 150 [] "off"%string eq_refl) eq_refl).
    lia.
  - rewrite (proj2 (proj1 (setSpeed_by_mode (MotorOps.kv_driver MotorOps.two_motors)
                             MotorOps.motor1 (-100) [] "off"%string eq_refl) eq_refl))
      by lia.
    reflexivity.
Defined.

(** The regulation attribute holds a word that is neither "on" nor
    "off": the motor is started and the speed 500 is written nowhere. *)
Lemma run_without_speed_witness :
  MotorOps.run (MotorOps.kv_driver MotorOps.two_motors) MotorOps.motor1 500
    MotorOps.runForeverCommand
    [MotorOps.WriteString MotorOps.motor1 MotorOps.regulationModeFD "auto"%string]
  = MotorOps.Done tt
      [MotorOps.WriteString MotorOps.motor1 MotorOps.regulationModeFD "auto"%string;
       MotorOps.WriteString MotorOps.motor1 "command"%string "run-forever"%string].
Proof.
  rewrite (run_without_speed (MotorOps.kv_driver MotorOps.two_motors) MotorOps.motor1 500
             MotorOps.runForeverCommand
             [MotorOps.WriteString MotorOps.motor1 MotorOps.regulationModeFD "auto"%string]
             "auto"%string eq_refl);
    [reflexivity|discriminate|discriminate].
Defined.

Lemma died_without_command_witness :
  MotorOps.exec (MotorOps.kv_driver MotorOps.two_motors) "B"%string (MotorOps.CRotate 90 150) []
  = MotorOps.Died "The speed must be in range [-100, 100]"%string
      [MotorOps.WriteInt MotorOps.motor1 "position_sp"%string 90] /\
  exists new,
    [MotorOps.WriteInt MotorOps.motor1 "position_sp"%string 90] = [] ++ new /\
    Forall (fun w => MotorOps.is_command w = false) new.
Proof.
  split; [reflexivity|].
  apply (died_without_command (MotorOps.kv_driver MotorOps.two_motors) "B"%string
           (MotorOps.CRotate 90 150) [] "The speed must be in range [-100, 100]"%string).
  reflexivity.
Defined.

Lemma target_written_before_death_witness :
  MotorOps.exec (MotorOps.kv_driver MotorOps.two_motors) "B"%string (MotorOps.CRunFor 3 (-101)) []
  = MotorOps.Died "The speed must be in range [-100, 100]"%string
      [MotorOps.WriteInt MotorOps.motor1 "time_sp"%string 3].
Proof.
  apply (target_written_before_death (MotorOps.kv_driver MotorOps.two_motors) "B"%string
           (MotorOps.CRunFor 3 (-101)) [] MotorOps.motor1 (-101)).
  - reflexivity.
  - reflexivity.
  - lia.
  - intros w _. reflexivity.
  - reflexivity.
Defined.

(** No motor is at the port C. *)
Lemma no_motor_no_write_witness :
  MotorOps.exec (MotorOps.kv_driver MotorOps.two_motors) "C"%string (MotorOps.CRunForever 50) []
  = MotorOps.Died "No motor is connected to port C"%string [].
Proof.
  apply (no_motor_no_write (MotorOps.kv_driver MotorOps.two_motors) "C"%string
           (MotorOps.CRunForever 50) []).
  reflexivity.
Defined.

Lemma writes_only_found_folder_witness :
  Motor.findFolder (MotorOps.tree_after (MotorOps.kv_driver MotorOps.two_motors) []) "B"%string
  = Returned MotorOps.motor1 /\
  MotorOps.wrote (fun w => MotorOps.folder_of w = MotorOps.motor1) []
    (MotorOps.exec (MotorOps.kv_driver MotorOps.two_motors) "B"%string (MotorOps.CRunFor 3 50) []).
Proof.
  split; [reflexivity|].
  apply (writes_only_found_folder (MotorOps.kv_driver MotorOps.two_motors) "B"%string
           (MotorOps.CRunFor 3 50) [] MotorOps.motor1).
  reflexivity.
Defined.

Lemma motion_writes_in_order_witness :
  MotorOps.exec (MotorOps.kv_driver MotorOps.two_motors) "B"%string (MotorOps.CRunFor 3 50) []
  = MotorOps.Done None
      [MotorOps.WriteInt MotorOps.motor1 "time_sp"%string 3;
       MotorOps.WriteInt MotorOps.motor1 "duty_cycle_sp"%string 50;
       MotorOps.WriteString MotorOps.motor1 "command"%string "run-timed"%string].
Proof.
  apply (motion_writes_in_order (MotorOps.kv_driver MotorOps.two_motors) "B"%string
           (MotorOps.CRunFor 3 50) [] MotorOps.motor1 50 "off"%string
           MotorOps.powerSetterFD).
  - reflexivity.
  - reflexivity.
  - intros ws' w. reflexivity.
  - reflexivity.
  - right. split; [reflexivity|]. split; [reflexivity|lia].
Defined.

Lemma regulation_switch_witness :
  MotorOps.exec_all (MotorOps.kv_driver MotorOps.two_motors) "B"%string
    [MotorOps.CEnableRegulationMode; MotorOps.CRunForever 500] []
  = MotorOps.Done tt
      [MotorOps.WriteString MotorOps.motor1 "speed_regulation"%string "on"%string;
       MotorOps.WriteInt MotorOps.motor1 "speed_sp"%string 500;
       MotorOps.WriteString MotorOps.motor1 "command"%string "run-forever"%string] /\
  MotorOps.exec_all (MotorOps.kv_driver MotorOps.two_motors) "B"%string
    [MotorOps.CDisableRegulationMode; MotorOps.CRunForever 500] []
  = MotorOps.Died "The speed must be in range [-100, 100]"%string
      [MotorOps.WriteString MotorOps.motor1 "speed_regulation"%string "off"%string].
Proof.
  destruct (regulation_switch (MotorOps.kv_driver MotorOps.two_motors) "B"%string []
              MotorOps.motor1 500)
    as (Hon & _ & Hout).
  - reflexivity.
  - intros v. reflexivity.
  - intros v. reflexivity.
  - intros ws' w. reflexivity.
  - split; [exact Hon|]. apply Hout. lia.
Defined.

(** ** A sensor at work *)

Lemma change_seen_wf : wf_state change_seen.
Proof. unfold wf_state, wf_slice. simpl. lia. Qed.

(** The registry 7, 8, 9 fills the cells 0 to 2 of an array of four;
    after [StopNotify] of 7 the registry is 8, 9 and the cell 2 still
    holds 9. *)
Lemma StopNotify_in_place_witness :
  (wf_state change_seen /\ In 7 (registry change_seen)) /\
  registry (StopNotify late_env 7 change_seen) = [8; 9] /\
  nth_error (backing (mem (StopNotify late_env 7 change_seen))
                     (channels (sensor (StopNotify late_env 7 change_seen)))) 2
  = Some 9.
Proof.
  split; [split; [exact change_seen_wf|simpl; auto]|].
  split; [reflexivity|].
  destruct (StopNotify_in_place late_env 7 change_seen change_seen_wf)
    as (_ & _ & _ & H); [simpl; auto|].
  rewrite (H 2); [reflexivity|simpl; lia].
Defined.

Lemma stop_during_delivery_wf :
  wf_slice (mem stop_during_delivery) (channels (sensor stop_during_delivery)).
Proof. unfold wf_slice. simpl. lia. Qed.

(** The caller asks to stop when 7 was sent the change and 8 and 9 were
    not yet: they are sent it before the caller returns. *)
Lemma StopListening_finishes_delivery_witness :
  program late_env in1 (three_subscribers ++ [LPoll 0; LStop])
  = Some (Returned stop_during_delivery) /\
  caller stop_during_delivery = CStopping /\
  exists st',
    run late_env (repeat (LPoll 0) 4) stop_during_delivery = Some (Returned st') /\
    caller st' = CReady /\ isListening (sensor st') = false /\
    issued st' = [(7, 1%Z); (8, 1%Z); (9, 1%Z)].
Proof.
  split; [reflexivity|]. split; [reflexivity|].
  destruct (StopListening_finishes_delivery late_env stop_during_delivery 0
              sensor0_path 0%Z 1%Z (channels (sensor stop_during_delivery)) 1
              stop_during_delivery_wf eq_refl eq_refl)
    as (st' & Hrun & Hc & Hl & _ & _ & Hi & _).
  exists st'. split; [exact Hrun|]. split; [exact Hc|]. split; [exact Hl|].
  rewrite Hi. reflexivity.
Defined.

(** The channel 7 unsubscribes and listening stops while the value 1 is
    pending for it; the subscriber is handed the value afterwards. *)
Lemma pending_sends_survive_witness :
  program late_env in1 [LNotify 7; LStart; LPoll 0; LPoll 0; LPoll 0; LPoll 0]
  = Some (Returned one_pending) /\
  senders one_pending = [(7, 1%Z)] /\
  exists st' st'',
    run late_env [LStopNotify 7; LPoll 0; LStop; LPoll 0] one_pending
    = Some (Returned st') /\
    registry st' = [] /\ isListening (sensor st') = false /\
    step late_env (LRecv 0) st' = Some (Returned st'') /\
    received st'' = [(7, 1%Z)].
Proof.
  split; [reflexivity|]. split; [reflexivity|].
  eexists. 
  destruct (pending_sends_survive late_env [LStopNotify 7; LPoll 0; LStop; LPoll 0]
              one_pending _ eq_refl eq_refl)
    as (_ & _ & H).
  destruct (H 0 7 1%Z eq_refl ltac:(discriminate)) as (st'' & Hstep & Hr & _).
  exists st''. split; [reflexivity|]. split; [reflexivity|]. split; [reflexivity|].
  split; [exact Hstep|exact Hr].
Defined.

Lemma nil_subscribed_reachable : reachable late_env in1 nil_subscribed.
Proof.
  apply (program_reachable late_env in1
           [LNotify 0; LStart; LPoll 0; LPoll 0; LPoll 0; LPoll 0]).
  reflexivity.
Qed.

Lemma nil_channel_blocks_for_ever_witness :
  reachable late_env in1 nil_subscribed /\
  registry nil_subscribed = [0] /\
  senders nil_subscribed = [(0, 1%Z)] /\
  step late_env (LRecv 0) nil_subscribed = None.
Proof.
  split; [exact nil_subscribed_reachable|]. split; [reflexivity|]. split; [reflexivity|].
  destruct (nil_channel_blocks_for_ever late_env in1 nil_subscribed nil_subscribed_reachable)
    as (_ & _ & _ & H).
  exact (H 0 1%Z eq_refl).
Defined.

(** The first session saw 0 and was stopped; the sensor now reads 1.
    The second session takes 1 as its baseline: the change from 0 to 1
    is not sent to the channel 7, which is still subscribed. *)
Lemma restart_takes_fresh_baseline_witness :
  program late_env in1 [LNotify 7; LStart; LPoll 0; LPoll 0; LStop; LPoll 0]
  = Some (Returned stopped_session) /\
  pollers stopped_session = [PDone] /\ registry stopped_session = [7] /\
  exists st',
    run late_env [LStart; LPoll 1; LPoll 1] stopped_session = Some (Returned st') /\
    pollers st' = [PDone; PSelect sensor0_path 1%Z] /\
    issued st' = [].
Proof.
  split; [reflexivity|]. split; [reflexivity|]. split; [reflexivity|].
  destruct (restart_takes_fresh_baseline late_env stopped_session "sensor0"%string 1%Z
              eq_refl eq_refl eq_refl eq_refl)
    as (st' & Hrun & Hp & _ & _ & _ & Hi & _).
  exists st'. split; [exact Hrun|]. split; [exact Hp|exact Hi].
Defined.
